(** * The forward dynamics driver of MuJoCo (src/engine/engine_forward.c)

    A shallow embedding of the driver and the properties checked on it.

    - [mjtNum] is the C [double]: an IEEE-754 binary64 value, with the
      round-to-nearest-even operations of [SpecFloat].
    - An array of the model or of the data is a pointer in C; here it is a
      buffer addressed from its base, [Z -> mjtNum], and [p + k] is
      [shift p k].  An access outside the allocated range is undefined in C;
      the embedding does not model allocation, so the theorems speak of the
      indices inside the declared sizes only.  Signed overflow of the [int]
      dimensions is undefined as well and the dimensions are plain [Z].
    - The driver mutates one [mjData]; the embedding threads it through a
      state monad that can also stop on [mju_error].  Next to the data the
      state carries a trace of the procedures the driver calls, in call order.
    - The collaborators that are not defined in engine_forward.c are the
      fields of [Collab].  The timing macros (TM_START, TM_END) and the scratch
      stack (mjMARKSTACK, mj_stackAlloc, mjFREESTACK) are not modelled: a
      stack allocation is a fresh local buffer. *)

From Stdlib Require Import ZArith List Bool Lia String.
From Stdlib Require Import Floats.SpecFloat.
Import ListNotations.
Local Open Scope Z_scope.

(** ** Numbers *)

Definition mjtNum : Type := spec_float.

Module Num.
Definition prec : Z := 53.
Definition emax : Z := 1024.

Definition add : mjtNum -> mjtNum -> mjtNum := SFadd prec emax.
Definition sub : mjtNum -> mjtNum -> mjtNum := SFsub prec emax.
Definition mul : mjtNum -> mjtNum -> mjtNum := SFmul prec emax.
Definition div : mjtNum -> mjtNum -> mjtNum := SFdiv prec emax.
Definition neg : mjtNum -> mjtNum := SFopp.

(** [x < y], [x > y] and [x <= y] of C: false as soon as one side is NaN. *)
Definition lt (x y : mjtNum) : bool := SFltb x y.
Definition gt (x y : mjtNum) : bool := SFltb y x.
Definition le (x y : mjtNum) : bool := SFleb x y.

Definition is_nan (x : mjtNum) : bool :=
  match x with S754_nan => true | _ => false end.

Definition is_finite (x : mjtNum) : bool :=
  match x with S754_zero _ | S754_finite _ _ _ => true | _ => false end.

(** An [int] constant used where a [double] is expected. *)
Definition of_Z (z : Z) : mjtNum :=
  match z with
  | Z0 => S754_zero false
  | Zpos p => binary_round prec emax false p 0
  | Zneg p => binary_round prec emax true p 0
  end.

Definition zero : mjtNum := S754_zero false.
Definition one : mjtNum := Eval vm_compute in of_Z 1.
Definition half : mjtNum := Eval vm_compute in div (of_Z 1) (of_Z 2).
Definition nan : mjtNum := S754_nan.

(** [x] lies in the closed interval from [lo] to [hi]. *)
Definition within (lo hi x : mjtNum) : Prop :=
  le lo x = true /\ le x hi = true.
End Num.

(** ** Buffers and loops *)

Definition buf : Type := Z -> mjtNum.
Definition ibuf : Type := Z -> Z.

(** [p + k] *)
Definition shift {A : Type} (p : Z -> A) (k : Z) : Z -> A :=
  fun i => p (k + i).

(** [p[i] = v] *)
Definition upd {A : Type} (p : Z -> A) (i : Z) (v : A) : Z -> A :=
  fun k => if k =? i then v else p k.

(** Run [f] on the view [p + k] and keep what it wrote. *)
Definition at_off (k : Z) (f : buf -> buf) (p : buf) : buf :=
  fun i => f (shift p k) (i - k).

(** A fresh buffer of the scratch stack. *)
Definition scratch : buf := fun _ => Num.zero.

(** [i] is one of the [n] indices of an array. *)
Definition inb (n i : Z) : bool := (0 <=? i) && (i <? n).

(** [for (i = lo; i < hi; i++) s = body(i, s);] *)
Fixpoint for_up {S : Type} (k : nat) (i : Z) (body : Z -> S -> S) (s : S) : S :=
  match k with
  | O => s
  | Datatypes.S k' => for_up k' (i + 1) body (body i s)
  end.

Definition for_loop {S : Type} (lo hi : Z) (body : Z -> S -> S) (s : S) : S :=
  for_up (Z.to_nat (hi - lo)) lo body s.

(** [for (i = lo; i < hi; i++) if (p(i)) break;] gives the [i] of the break,
    and nothing when the loop runs to its end. *)
Fixpoint scan_up (k : nat) (i : Z) (p : Z -> bool) : option Z :=
  match k with
  | O => None
  | Datatypes.S k' => if p i then Some i else scan_up k' (i + 1) p
  end.

Definition first_index (n : Z) (p : Z -> bool) : option Z :=
  scan_up (Z.to_nat n) 0 p.

(** ** The element-wise vector primitives

    Modelled from the spec: the BLAS-like primitives of engine_util_blas are
    not under src/; the element-wise ones are written out here by their
    contract, each result entry computed from the entries of the same index.
    The reductions ([mju_dot], the matrix products) round in an order the
    driver does not fix and stay collaborators. *)

(** [res = 0] *)
Definition mju_zero (res : buf) (n : Z) : buf :=
  fun i => if inb n i then Num.zero else res i.

(** [res = vec] *)
Definition mju_copy (res vec : buf) (n : Z) : buf :=
  fun i => if inb n i then vec i else res i.

(** [res = vec1 + vec2] *)
Definition mju_add (res vec1 vec2 : buf) (n : Z) : buf :=
  fun i => if inb n i then Num.add (vec1 i) (vec2 i) else res i.

(** [res = vec1 - vec2] *)
Definition mju_sub (res vec1 vec2 : buf) (n : Z) : buf :=
  fun i => if inb n i then Num.sub (vec1 i) (vec2 i) else res i.

(** [res += vec] *)
Definition mju_addTo (res vec : buf) (n : Z) : buf :=
  fun i => if inb n i then Num.add (res i) (vec i) else res i.

(** [res -= vec] *)
Definition mju_subFrom (res vec : buf) (n : Z) : buf :=
  fun i => if inb n i then Num.sub (res i) (vec i) else res i.

(** [res += vec * scl] *)
Definition mju_addToScl (res vec : buf) (scl : mjtNum) (n : Z) : buf :=
  fun i => if inb n i then Num.add (res i) (Num.mul (vec i) scl) else res i.


(** ** Enumerations and flags

    Modelled from the spec: mjmodel.h and mjdata.h are not under src/.  The
    stage labels are ordered NONE < POS < VEL < ACC, as the spec states; the
    other labels only need to be pairwise distinct, and the flags distinct
    bits.  The fields that hold them are [int]s in C, so they are [Z] here and
    the [default:] branches of the source remain reachable. *)

Definition mjSTAGE_NONE : Z := 0.
Definition mjSTAGE_POS : Z := 1.
Definition mjSTAGE_VEL : Z := 2.
Definition mjSTAGE_ACC : Z := 3.

Definition mjINT_EULER : Z := 0.
Definition mjINT_RK4 : Z := 1.
Definition mjINT_IMPLICIT : Z := 2.

Definition mjSOL_PGS : Z := 0.
Definition mjSOL_CG : Z := 1.
Definition mjSOL_NEWTON : Z := 2.

Definition mjDSBL_CLAMPCTRL : Z := Z.shiftl 1 7.
Definition mjDSBL_WARMSTART : Z := Z.shiftl 1 8.
Definition mjDSBL_ACTUATION : Z := Z.shiftl 1 10.

Definition mjENBL_ENERGY : Z := Z.shiftl 1 1.
Definition mjENBL_FWDINV : Z := Z.shiftl 1 2.

Definition mjDYN_NONE : Z := 0.
Definition mjDYN_INTEGRATOR : Z := 1.
Definition mjDYN_FILTER : Z := 2.
Definition mjDYN_MUSCLE : Z := 3.

Definition mjGAIN_FIXED : Z := 0.
Definition mjGAIN_MUSCLE : Z := 1.

Definition mjBIAS_NONE : Z := 0.
Definition mjBIAS_AFFINE : Z := 1.
Definition mjBIAS_MUSCLE : Z := 2.

Definition mjNDYN : Z := 10.
Definition mjNGAIN : Z := 10.
Definition mjNBIAS : Z := 10.

(** [mjMINVAL], 1E-15 *)
Definition mjMINVAL : mjtNum :=
  Eval vm_compute in Num.div (Num.of_Z 1) (Num.of_Z 1000000000000000).

Inductive mjtWarning : Type :=
| mjWARN_INERTIA
| mjWARN_CONTACTFULL
| mjWARN_CNSTRFULL
| mjWARN_VGEOMFULL
| mjWARN_BADQPOS
| mjWARN_BADQVEL
| mjWARN_BADQACC
| mjWARN_BADCTRL.

Definition mjtWarning_eqb (a b : mjtWarning) : bool :=
  match a, b with
  | mjWARN_INERTIA, mjWARN_INERTIA
  | mjWARN_CONTACTFULL, mjWARN_CONTACTFULL
  | mjWARN_CNSTRFULL, mjWARN_CNSTRFULL
  | mjWARN_VGEOMFULL, mjWARN_VGEOMFULL
  | mjWARN_BADQPOS, mjWARN_BADQPOS
  | mjWARN_BADQVEL, mjWARN_BADQVEL
  | mjWARN_BADQACC, mjWARN_BADQACC
  | mjWARN_BADCTRL, mjWARN_BADCTRL => true
  | _, _ => false
  end.

(** ** mjModel *)

Record mjOption : Type := {
  timestep : mjtNum;
  integrator : Z;
  solver : Z;
  iterations : Z;
  noslip_iterations : Z;
  disableflags : Z;
  enableflags : Z
}.

Record mjModel : Type := {
  nq : Z;
  nv : Z;
  nu : Z;
  na : Z;
  nM : Z;
  nD : Z;
  ntendon : Z;
  opt : mjOption;
  dof_damping : buf;
  dof_Madr : ibuf;
  actuator_dyntype : ibuf;
  actuator_gaintype : ibuf;
  actuator_biastype : ibuf;
  actuator_ctrllimited : ibuf;
  actuator_forcelimited : ibuf;
  actuator_actlimited : ibuf;
  actuator_dynprm : buf;
  actuator_gainprm : buf;
  actuator_biasprm : buf;
  actuator_ctrlrange : buf;
  actuator_forcerange : buf;
  actuator_actrange : buf;
  actuator_lengthrange : buf;
  actuator_acc0 : buf
}.

(** [mjDISABLED(x)] and [mjENABLED(x)] *)
Definition mjDISABLED (m : mjModel) (x : Z) : bool :=
  negb (Z.land (disableflags (opt m)) x =? 0).

Definition mjENABLED (m : mjModel) (x : Z) : bool :=
  negb (Z.land (enableflags (opt m)) x =? 0).

(** A C truth value. *)
Definition truthy (z : Z) : bool := negb (z =? 0).

(** ** mjData

    The real-valued arrays of mjData are addressed by name; [other_array]
    stands for the arrays the driver never names and that its collaborators
    keep for themselves (body poses, contacts, sensor data, energy...). *)

Inductive darray : Type :=
| qpos | qvel | act | ctrl | qfrc_applied
| qacc | act_dot | qacc_warmstart | qacc_smooth
| qfrc_passive | qfrc_bias | qfrc_actuator | qfrc_smooth | qfrc_constraint
| actuator_force | actuator_moment | actuator_length | actuator_velocity
| ten_velocity | ten_J
| qM | qLD | qLDiagInv | qLDiagSqrtInv
| efc_aref | efc_b | efc_force | efc_AR
| qDeriv | qLU
| other_array (k : Z).

Inductive diarray : Type :=
| ten_J_rownnz | ten_J_rowadr | ten_J_colind
| efc_AR_rownnz | efc_AR_rowadr | efc_AR_colind
| D_rownnz | D_rowadr | D_colind
| other_iarray (k : Z).

Definition darray_eq_dec (a b : darray) : {a = b} + {a <> b}.
Proof. decide equality; apply Z.eq_dec. Defined.

Definition diarray_eq_dec (a b : diarray) : {a = b} + {a <> b}.
Proof. decide equality; apply Z.eq_dec. Defined.

Record mjWarningStat : Type := {
  lastinfo : Z;
  number : Z
}.

Record mjData : Type := {
  arr : darray -> buf;
  iarr : diarray -> ibuf;
  time : mjtNum;
  nefc : Z;
  solver_iter : Z;
  warning : mjtWarning -> mjWarningStat
}.

Declare Scope data_scope.
Delimit Scope data_scope with data.
Open Scope data_scope.

Notation "d .[ a ]" := (arr d a)
  (at level 1, left associativity, format "d .[ a ]") : data_scope.

Definition set_arr (a : darray) (v : buf) (d : mjData) : mjData :=
  {| arr := fun b => if darray_eq_dec b a then v else arr d b;
     iarr := iarr d; time := time d; nefc := nefc d;
     solver_iter := solver_iter d; warning := warning d |}.

Definition set_iarr (a : diarray) (v : ibuf) (d : mjData) : mjData :=
  {| arr := arr d;
     iarr := fun b => if diarray_eq_dec b a then v else iarr d b;
     time := time d; nefc := nefc d;
     solver_iter := solver_iter d; warning := warning d |}.

Definition set_time (t : mjtNum) (d : mjData) : mjData :=
  {| arr := arr d; iarr := iarr d; time := t; nefc := nefc d;
     solver_iter := solver_iter d; warning := warning d |}.

Definition set_solver_iter (k : Z) (d : mjData) : mjData :=
  {| arr := arr d; iarr := iarr d; time := time d; nefc := nefc d;
     solver_iter := k; warning := warning d |}.

Definition set_warning (k : mjtWarning) (s : mjWarningStat) (d : mjData) : mjData :=
  {| arr := arr d; iarr := iarr d; time := time d; nefc := nefc d;
     solver_iter := solver_iter d;
     warning := fun j => if mjtWarning_eqb j k then s else warning d j |}.

Notation "d .[ a := v ]" := (set_arr a v d)
  (at level 1, left associativity, format "d .[ a  :=  v ]") : data_scope.

(** Modelled from the spec: [mj_warning] of engine_util_errmem is not under
    src/.  A warning of kind [k] with information [info] records [info] as
    the kind's [lastinfo] and increments the kind's counter. *)
Definition mj_warning (d : mjData) (k : mjtWarning) (info : Z) : mjData :=
  set_warning k {| lastinfo := info; number := number (warning d k) + 1 |} d.

(** ** Collaborators

    The procedures below receive the data and update it in place; each call
    of one by the driver is recorded in the trace. *)

Inductive proc : Type :=
| mj_kinematics | mj_comPos | mj_camlight | mj_tendon | mj_transmission
| mj_crb | mj_factorM | mj_collision | mj_makeConstraint | mj_projectConstraint
| mj_comVel | mj_passive | mj_referenceConstraint
| mj_sensorPos | mj_sensorVel | mj_sensorAcc
| mj_energyPos | mj_energyVel
| mj_resetData | mj_compareFwdInv | mjd_smooth_vel
| mj_solPGS | mj_solCG | mj_solNewton | mj_solNoSlip
| mj_constraintUpdate
| mjcb_control.

(** The procedures of engine_forward.c itself; entering one is recorded in
    the trace as well. *)
Inductive routine : Type :=
| CheckPos | CheckVel | CheckAcc
| FwdPosition | FwdVelocity | FwdActuation | FwdAcceleration
| Warmstart | FwdConstraint
| Euler | RungeKutta | Implicit
| ForwardSkip | Forward | Step | Step1 | Step2.

Inductive event : Type :=
| Call (p : proc)
| Enter (r : routine).

Definition proc_eq_dec (a b : proc) : {a = b} + {a <> b}.
Proof. decide equality. Defined.

Definition routine_eq_dec (a b : routine) : {a = b} + {a <> b}.
Proof. decide equality. Defined.

Definition event_eq_dec (a b : event) : {a = b} + {a <> b}.
Proof. decide equality; [apply proc_eq_dec | apply routine_eq_dec]. Defined.

(** [occurs e t]: the event [e] is in the trace [t]. *)
Definition occurs (e : event) (t : list event) : bool :=
  existsb (fun x => if event_eq_dec x e then true else false) t.

(** The collaborators.  A collaborator that writes through an output pointer
    is a function of the former content of that output and gives the new
    one; it reads the data it receives and leaves it as it is. *)
Record Collab : Type := {
  (* in place on the data *)
  run : proc -> mjModel -> mjData -> mjData;
  (* the solvers, with their iteration count *)
  solve : proc -> mjModel -> mjData -> Z -> mjData;
  (* mj_constraintUpdate(m, d, jar, cost, flg_coneHessian): the data and the cost *)
  constraintUpdate : mjModel -> mjData -> buf -> Z -> mjData * mjtNum;
  (* the global callbacks, null when [None] *)
  cb_control : option (mjModel -> mjData -> mjData);
  mjcb_act_dyn : option (mjModel -> mjData -> Z -> mjtNum);
  mjcb_act_gain : option (mjModel -> mjData -> Z -> mjtNum);
  mjcb_act_bias : option (mjModel -> mjData -> Z -> mjtNum);
  (* predicates *)
  mju_isBad : mjtNum -> bool;
  mj_isSparse : mjModel -> bool;
  (* mju_max(a, b) *)
  mju_max : mjtNum -> mjtNum -> mjtNum;
  (* mju_dot(vec1, vec2, n) *)
  mju_dot : buf -> buf -> Z -> mjtNum;
  (* mju_mulMatVec(res, mat, vec, nr, nc) *)
  mju_mulMatVec : buf -> buf -> buf -> Z -> Z -> buf;
  (* mju_mulMatTVec(res, mat, vec, nr, nc) *)
  mju_mulMatTVec : buf -> buf -> buf -> Z -> Z -> buf;
  (* mju_mulMatVecSparse(res, mat, vec, nr, rownnz, rowadr, colind, NULL) *)
  mju_mulMatVecSparse : buf -> buf -> buf -> Z -> ibuf -> ibuf -> ibuf -> buf;
  (* mj_rne(m, d, flg_acc, result) *)
  mj_rne : mjModel -> mjData -> Z -> buf -> buf;
  (* mj_xfrcAccumulate(m, d, qfrc) *)
  mj_xfrcAccumulate : mjModel -> mjData -> buf -> buf;
  (* mj_solveM(m, d, x, y, n) *)
  mj_solveM : mjModel -> mjData -> buf -> buf -> Z -> buf;
  (* mj_mulM(m, d, res, vec) *)
  mj_mulM : mjModel -> mjData -> buf -> buf -> buf;
  (* mj_mulJacVec(m, d, res, vec) *)
  mj_mulJacVec : mjModel -> mjData -> buf -> buf -> buf;
  (* mj_integratePos(m, qpos, qvel, dt) *)
  mj_integratePos : mjModel -> buf -> buf -> mjtNum -> buf;
  (* mj_makeMSparse(m, d, rownnz, rowadr, colind) *)
  mj_makeMSparse : mjModel -> mjData -> ibuf -> ibuf -> ibuf -> ibuf * ibuf * ibuf;
  (* mj_setMSparse(m, d, dst, rownnz, rowadr, colind) *)
  mj_setMSparse : mjModel -> mjData -> buf -> ibuf -> ibuf -> ibuf -> buf;
  (* mju_factorLUSparse(LU, n, scratch, rownnz, rowadr, colind) *)
  mju_factorLUSparse : buf -> Z -> ibuf -> ibuf -> ibuf -> buf;
  (* mju_solveLUSparse(res, LU, vec, n, rownnz, rowadr, colind) *)
  mju_solveLUSparse : buf -> buf -> buf -> Z -> ibuf -> ibuf -> ibuf -> buf;
  (* mju_muscleGain(len, vel, lengthrange, acc0, prm) *)
  mju_muscleGain : mjtNum -> mjtNum -> buf -> mjtNum -> buf -> mjtNum;
  (* mju_muscleBias(len, lengthrange, acc0, prm) *)
  mju_muscleBias : mjtNum -> buf -> mjtNum -> buf -> mjtNum;
  (* mju_muscleDynamics(ctrl, act, prm) *)
  mju_muscleDynamics : mjtNum -> mjtNum -> buf -> mjtNum
}.

(** ** The monad of the driver *)

Record world : Type := {
  dat : mjData;
  trace : list event
}.

Inductive result (A : Type) : Type :=
| Done (a : A) (w : world)
| Fatal (msg : string) (w : world).

Arguments Done {A} a w.
Arguments Fatal {A} msg w.

Definition M (A : Type) : Type := world -> result A.

Definition ret {A : Type} (a : A) : M A := fun w => Done a w.

Definition bind {A B : Type} (c : M A) (k : A -> M B) : M B :=
  fun w =>
    match c w with
    | Done a w' => k a w'
    | Fatal msg w' => Fatal msg w'
    end.

Declare Scope drv_scope.
Delimit Scope drv_scope with drv.
Notation "x <- c ;; k" := (bind c (fun x => k))
  (at level 61, c at next level, right associativity) : drv_scope.
Notation "c ;; k" := (bind c (fun _ => k))
  (at level 61, right associativity) : drv_scope.
Open Scope drv_scope.

(** The state a computation stops in, returned or not. *)
Definition final {A : Type} (r : result A) : world :=
  match r with
  | Done _ w => w
  | Fatal _ w => w
  end.


Definition start (d : mjData) : world := {| dat := d; trace := [] |}.

Definition get : M mjData := fun w => Done (dat w) w.

Definition modify (f : mjData -> mjData) : M unit :=
  fun w => Done tt {| dat := f (dat w); trace := trace w |}.

Definition log (e : event) : M unit :=
  fun w => Done tt {| dat := dat w; trace := trace w ++ [e] |}.

(** [mju_error]: the program stops. *)
Definition mju_error {A : Type} (msg : string) : M A := fun w => Fatal msg w.

Definition when (b : bool) (c : M unit) : M unit :=
  if b then c else ret tt.

(** [for (i = lo; i < hi; i++)] over a body that calls procedures. *)
Fixpoint forM_up {S : Type} (k : nat) (i : Z) (body : Z -> S -> M S) (s : S) : M S :=
  match k with
  | O => ret s
  | Datatypes.S k' => s' <- body i s ;; forM_up k' (i + 1) body s'
  end.

Definition forM {S : Type} (lo hi : Z) (body : Z -> S -> M S) (s : S) : M S :=
  forM_up (Z.to_nat (hi - lo)) lo body s.

(** ** The driver *)

Section Driver.

Variable C : Collab.

(** A call of a collaborator that works in place on the data. *)
Definition call (p : proc) (m : mjModel) : M unit :=
  log (Call p) ;; modify (run C p m).

(** A call of a solver. *)
Definition call_solver (p : proc) (m : mjModel) (maxiter : Z) : M unit :=
  log (Call p) ;; modify (fun d => solve C p m d maxiter).

(** [mj_constraintUpdate(m, d, jar, &cost, flg)], giving the cost. *)
Definition call_constraintUpdate (m : mjModel) (jar : buf) (flg : Z) : M mjtNum :=
  log (Call mj_constraintUpdate) ;;
  d <- get ;;
  modify (fun _ => fst (constraintUpdate C m d jar flg)) ;;
  ret (snd (constraintUpdate C m d jar flg)).

(** [if (mjcb_control) mjcb_control(m, d);] *)
Definition call_control (m : mjModel) : M unit :=
  match cb_control C with
  | Some f => log (Call mjcb_control) ;; modify (f m)
  | None => ret tt
  end.

Definition enter (r : routine) : M unit := log (Enter r).

(** [d->warning[k].number++] *)
Definition warning_number_incr (k : mjtWarning) (d : mjData) : mjData :=
  set_warning k {| lastinfo := lastinfo (warning d k);
                   number := number (warning d k) + 1 |} d.

(** [d->warning[k].lastinfo = i] *)
Definition warning_set_lastinfo (k : mjtWarning) (i : Z) (d : mjData) : mjData :=
  set_warning k {| lastinfo := i; number := number (warning d k) |} d.

(** The index at which the scan of [n] entries of [p] meets a bad value. *)
Definition first_bad (p : buf) (n : Z) : option Z :=
  first_index n (fun i => mju_isBad C (p i)).

(** *** Solver components *)

Definition mj_fwdPosition (m : mjModel) : M unit :=
  enter FwdPosition ;;
  call mj_kinematics m ;;
  call mj_comPos m ;;
  call mj_camlight m ;;
  call mj_tendon m ;;
  call mj_transmission m ;;
  call mj_crb m ;;
  call mj_factorM m ;;
  call mj_collision m ;;
  call mj_makeConstraint m ;;
  call mj_projectConstraint m.

Definition mj_fwdVelocity (m : mjModel) : M unit :=
  enter FwdVelocity ;;
  (* tendon velocity: dense or sparse *)
  modify (fun d =>
    if mj_isSparse C m then
      d.[ten_velocity :=
          mju_mulMatVecSparse C d.[ten_velocity] d.[ten_J] d.[qvel] (ntendon m)
            (iarr d ten_J_rownnz) (iarr d ten_J_rowadr) (iarr d ten_J_colind)]
    else
      d.[ten_velocity :=
          mju_mulMatVec C d.[ten_velocity] d.[ten_J] d.[qvel] (ntendon m) (nv m)]) ;;
  (* actuator velocity *)
  modify (fun d =>
    d.[actuator_velocity :=
        mju_mulMatVec C d.[actuator_velocity] d.[actuator_moment] d.[qvel] (nu m) (nv m)]) ;;
  (* standard velocity computations *)
  call mj_comVel m ;;
  call mj_passive m ;;
  call mj_referenceConstraint m ;;
  (* qfrc_bias with the abbreviated RNE *)
  modify (fun d => d.[qfrc_bias := mj_rne C m d 0 d.[qfrc_bias]]).

(** [x] saturated into the range ([lo], [hi]), the way the source writes it:
    [if (x < lo) x = lo; else if (x > hi) x = hi;] *)
Definition clamp (x lo hi : mjtNum) : mjtNum :=
  if Num.lt x lo then lo else if Num.gt x hi then hi else x.

(** Lines 166-173: check controls, set to 0 if any are bad. *)
Definition check_ctrl (m : mjModel) (d : mjData) : mjData :=
  match first_bad d.[ctrl] (nu m) with
  | Some i =>
      let d1 := mj_warning d mjWARN_BADCTRL i in
      d1.[ctrl := mju_zero d1.[ctrl] (nu m)]
  | None => d
  end.

(** One pass of the loop [force = gain .* [ctrl/act] + bias], lines 181-253. *)
Definition force_body (m : mjModel) (i : Z) (d : mjData) : mjData :=
  (* clamp ctrl *)
  let d1 :=
    if truthy (actuator_ctrllimited m i) && negb (mjDISABLED m mjDSBL_CLAMPCTRL) then
      d.[ctrl := upd d.[ctrl] i
            (clamp (d.[ctrl] i) (actuator_ctrlrange m (2 * i))
                   (actuator_ctrlrange m (2 * i + 1)))]
    else d in
  (* gain *)
  let prm := shift (actuator_gainprm m) (mjNGAIN * i) in
  let gain :=
    if actuator_gaintype m i =? mjGAIN_FIXED then prm 0
    else if actuator_gaintype m i =? mjGAIN_MUSCLE then
      mju_muscleGain C (d1.[actuator_length] i) (d1.[actuator_velocity] i)
        (shift (actuator_lengthrange m) (2 * i)) (actuator_acc0 m i) prm
    else
      match mjcb_act_gain C with
      | Some f => f m d1 i
      | None => Num.of_Z 1
      end in
  (* force = gain .* [ctrl/act] *)
  let d2 :=
    if actuator_dyntype m i =? mjDYN_NONE then
      d1.[actuator_force := upd d1.[actuator_force] i (Num.mul gain (d1.[ctrl] i))]
    else
      d1.[actuator_force :=
           upd d1.[actuator_force] i (Num.mul gain (d1.[act] (i - (nu m - na m))))] in
  (* bias *)
  let prm := shift (actuator_biasprm m) (mjNBIAS * i) in
  let bias :=
    if actuator_biastype m i =? mjBIAS_NONE then Num.zero
    else if actuator_biastype m i =? mjBIAS_AFFINE then
      Num.add (Num.add (prm 0) (Num.mul (prm 1) (d2.[actuator_length] i)))
              (Num.mul (prm 2) (d2.[actuator_velocity] i))
    else if actuator_biastype m i =? mjBIAS_MUSCLE then
      mju_muscleBias C (d2.[actuator_length] i)
        (shift (actuator_lengthrange m) (2 * i)) (actuator_acc0 m i) prm
    else
      match mjcb_act_bias C with
      | Some f => f m d2 i
      | None => Num.of_Z 0
      end in
  (* add bias *)
  d2.[actuator_force := upd d2.[actuator_force] i (Num.add (d2.[actuator_force] i) bias)].

(** One pass of the loop that clamps actuator_force, lines 256-264. *)
Definition clamp_force_body (m : mjModel) (i : Z) (d : mjData) : mjData :=
  if truthy (actuator_forcelimited m i) then
    d.[actuator_force := upd d.[actuator_force] i
          (clamp (d.[actuator_force] i) (actuator_forcerange m (2 * i))
                 (actuator_forcerange m (2 * i + 1)))]
  else d.

(** One pass of the loop that computes act_dot, lines 270-297. *)
Definition act_dot_body (m : mjModel) (i : Z) (d : mjData) : mjData :=
  let prm := shift (actuator_dynprm m) (i * mjNDYN) in
  let j := i - (nu m - na m) in
  let v :=
    if actuator_dyntype m i =? mjDYN_INTEGRATOR then d.[ctrl] i
    else if actuator_dyntype m i =? mjDYN_FILTER then
      let tau := mju_max C mjMINVAL (prm 0) in
      Num.div (Num.sub (d.[ctrl] i) (d.[act] j)) tau
    else if actuator_dyntype m i =? mjDYN_MUSCLE then
      mju_muscleDynamics C (d.[ctrl] i) (d.[act] j) prm
    else
      match mjcb_act_dyn C with
      | Some f => f m d i
      | None => Num.of_Z 0
      end in
  d.[act_dot := upd d.[act_dot] j v].

Definition mj_fwdActuation (m : mjModel) : M unit :=
  enter FwdActuation ;;
  (* clear results *)
  modify (fun d => d.[qfrc_actuator := mju_zero d.[qfrc_actuator] (nv m)]) ;;
  when (truthy (nu m))
    (modify (fun d => d.[actuator_force := mju_zero d.[actuator_force] (nu m)])) ;;
  (* check controls, set to 0 if any are bad *)
  modify (check_ctrl m) ;;
  (* disabled or no actuation: return *)
  if (nu m =? 0) || mjDISABLED m mjDSBL_ACTUATION then ret tt
  else
    (* force = gain .* [ctrl/act] + bias *)
    modify (for_loop 0 (nu m) (force_body m)) ;;
    (* clamp actuator_force *)
    modify (for_loop 0 (nu m) (clamp_force_body m)) ;;
    (* qfrc_actuator = moment' * force *)
    modify (fun d =>
      d.[qfrc_actuator :=
          mju_mulMatTVec C d.[qfrc_actuator] d.[actuator_moment] d.[actuator_force]
            (nu m) (nv m)]) ;;
    (* act_dot for stateful actuators *)
    modify (for_loop (nu m - na m) (nu m) (act_dot_body m)).

Definition mj_fwdAcceleration (m : mjModel) : M unit :=
  enter FwdAcceleration ;;
  (* qforce = sum of all non-constraint forces *)
  modify (fun d => d.[qfrc_smooth := mju_sub d.[qfrc_smooth] d.[qfrc_passive] d.[qfrc_bias] (nv m)]) ;;
  modify (fun d => d.[qfrc_smooth := mju_addTo d.[qfrc_smooth] d.[qfrc_applied] (nv m)]) ;;
  modify (fun d => d.[qfrc_smooth := mju_addTo d.[qfrc_smooth] d.[qfrc_actuator] (nv m)]) ;;
  modify (fun d => d.[qfrc_smooth := mj_xfrcAccumulate C m d d.[qfrc_smooth]]) ;;
  (* qacc_smooth = M \ qfrc_smooth *)
  modify (fun d => d.[qacc_smooth := mj_solveM C m d d.[qacc_smooth] d.[qfrc_smooth] 1]).

(** The cost of the forces kept from the previous solve, as [warmstart]
    computes it for PGS (lines 348-357): [efc_force . efc_b] plus half of
    [efc_force . (AR efc_force)], over the [nefc0] constraints counted when
    [warmstart] was entered. *)
Definition PGS_cost (m : mjModel) (d : mjData) (nefc0 : Z) : mjtNum :=
  let PGS_warmstart := mju_dot C d.[efc_force] d.[efc_b] nefc0 in
  let ARf :=
    if mj_isSparse C m then
      mju_mulMatVecSparse C scratch d.[efc_AR] d.[efc_force] nefc0
        (iarr d efc_AR_rownnz) (iarr d efc_AR_rowadr) (iarr d efc_AR_colind)
    else
      mju_mulMatVec C scratch d.[efc_AR] d.[efc_force] nefc0 nefc0 in
  Num.add PGS_warmstart (Num.mul Num.half (mju_dot C d.[efc_force] ARf nefc0)).

(** The Gauss term added to [cost] (lines 369-373), one degree of freedom
    after the other. *)
Definition add_Gauss (m : mjModel) (d : mjData) (cost : mjtNum) : mjtNum :=
  let Ma := mj_mulM C m d scratch d.[qacc_warmstart] in
  for_loop 0 (nv m)
    (fun i c =>
       Num.add c
         (Num.mul (Num.mul Num.half (Num.sub (Ma i) (d.[qfrc_smooth] i)))
                  (Num.sub (d.[qacc_warmstart] i) (d.[qacc_smooth] i))))
    cost.

(** [jar = J * qacc_warmstart - efc_aref] (lines 338-339) *)
Definition jar_warmstart (m : mjModel) (d : mjData) (nefc0 : Z) : buf :=
  mju_subFrom (mj_mulJacVec C m d scratch d.[qacc_warmstart]) d.[efc_aref] nefc0.

Definition warmstart (m : mjModel) : M unit :=
  enter Warmstart ;;
  d0 <- get ;;
  let nefc0 := nefc d0 in
  (* warmstart with best of (qacc_warmstart, qacc_smooth) *)
  if negb (mjDISABLED m mjDSBL_WARMSTART) then
    (* start with qacc = qacc_warmstart *)
    modify (fun d => d.[qacc := mju_copy d.[qacc] d.[qacc_warmstart] (nv m)]) ;;
    (* compute jar(qacc_warmstart) *)
    d <- get ;;
    let jar := jar_warmstart m d nefc0 in
    (* update constraints, save cost(qacc_warmstart) *)
    cost_warmstart <- call_constraintUpdate m jar 0 ;;
    if solver (opt m) =? mjSOL_PGS then
      (* cost(force_warmstart) *)
      d <- get ;;
      let PGS_warmstart := PGS_cost m d nefc0 in
      (* use zero if better *)
      when (Num.gt PGS_warmstart (Num.of_Z 0))
        (modify (fun d => d.[efc_force := mju_zero d.[efc_force] nefc0]) ;;
         modify (fun d => d.[qfrc_constraint := mju_zero d.[qfrc_constraint] (nv m)]))
    else
      (* add Gauss to cost(qacc_warmstart) *)
      d <- get ;;
      let cost_warmstart := add_Gauss m d cost_warmstart in
      (* cost(qacc_smooth) *)
      cost_smooth <- call_constraintUpdate m d.[efc_b] 0 ;;
      (* use qacc_smooth if better *)
      when (Num.gt cost_warmstart cost_smooth)
        (modify (fun d => d.[qacc := mju_copy d.[qacc] d.[qacc_smooth] (nv m)]))
  else
    (* coldstart with qacc = qacc_smooth, efc_force = 0 *)
    modify (fun d => d.[qacc := mju_copy d.[qacc] d.[qacc_smooth] (nv m)]) ;;
    modify (fun d => d.[efc_force := mju_zero d.[efc_force] nefc0]).

Definition mj_fwdConstraint (m : mjModel) : M unit :=
  enter FwdConstraint ;;
  d0 <- get ;;
  let nefc0 := nefc d0 in
  (* no constraints: copy unconstrained acc, clear forces, return *)
  if negb (truthy nefc0) then
    modify (fun d => d.[qacc := mju_copy d.[qacc] d.[qacc_smooth] (nv m)]) ;;
    modify (fun d => d.[qacc_warmstart := mju_copy d.[qacc_warmstart] d.[qacc_smooth] (nv m)]) ;;
    modify (fun d => d.[qfrc_constraint := mju_zero d.[qfrc_constraint] (nv m)]) ;;
    modify (set_solver_iter 0)
  else
    (* compute efc_b = J*qacc_smooth - aref *)
    modify (fun d => d.[efc_b := mj_mulJacVec C m d d.[efc_b] d.[qacc_smooth]]) ;;
    modify (fun d => d.[efc_b := mju_subFrom d.[efc_b] d.[efc_aref] nefc0]) ;;
    (* warmstart solver *)
    warmstart m ;;
    modify (set_solver_iter 0) ;;
    (* run main solver *)
    (if solver (opt m) =? mjSOL_PGS then call_solver mj_solPGS m (iterations (opt m))
     else if solver (opt m) =? mjSOL_CG then call_solver mj_solCG m (iterations (opt m))
     else if solver (opt m) =? mjSOL_NEWTON then call_solver mj_solNewton m (iterations (opt m))
     else mju_error "Unknown solver type %d") ;;
    (* save result for next step warmstart *)
    modify (fun d => d.[qacc_warmstart := mju_copy d.[qacc_warmstart] d.[qacc] (nv m)]) ;;
    (* run noslip solver if enabled *)
    when (0 <? noslip_iterations (opt m))
      (call_solver mj_solNoSlip m (noslip_iterations (opt m))).

(** *** Integrators *)

(** One pass of the loop that clamps the activations, lines 510-521 and
    636-647. *)
Definition clamp_act_body (m : mjModel) (i : Z) (d : mjData) : mjData :=
  let iu := i + nu m - na m in
  if truthy (actuator_actlimited m iu) then
    let min := actuator_actrange m (2 * iu) in
    let max := actuator_actrange m (2 * iu + 1) in
    d.[act := upd d.[act] i (clamp (d.[act] i) min max)]
  else d.

(** Lines 484-486: add hB to diagonal of M. *)
Definition add_damping (m : mjModel) (M0 : buf) : buf :=
  for_loop 0 (nv m)
    (fun i Mi =>
       upd Mi (dof_Madr m i)
         (Num.add (Mi (dof_Madr m i)) (Num.mul (timestep (opt m)) (dof_damping m i))))
    M0.

Definition mj_Euler (m : mjModel) : M unit :=
  enter Euler ;;
  (* check for dof damping *)
  (match first_index (nv m) (fun i => Num.gt (dof_damping m i) (Num.of_Z 0)) with
   | None =>
       (* no damping: explicit velocity integration *)
       modify (fun d => d.[qvel := mju_addToScl d.[qvel] d.[qacc] (timestep (opt m)) (nv m)])
   | Some _ =>
       (* damping: integrate implicitly; save M and factorization *)
       d0 <- get ;;
       let saveM := mju_copy scratch d0.[qM] (nM m) in
       let saveLD := mju_copy scratch d0.[qLD] (nM m) in
       let saveLDiagInv := mju_copy scratch d0.[qLDiagInv] (nv m) in
       let saveLDiagSqrtInv := mju_copy scratch d0.[qLDiagSqrtInv] (nv m) in
       (* add hB to diagonal of M *)
       modify (fun d => d.[qM := add_damping m d.[qM]]) ;;
       (* factor *)
       call mj_factorM m ;;
       (* solve *)
       d <- get ;;
       let qfrc := mju_add scratch d.[qfrc_smooth] d.[qfrc_constraint] (nv m) in
       let qacc := mj_solveM C m d scratch qfrc 1 in
       (* integrate velocity *)
       modify (fun d => d.[qvel := mju_addToScl d.[qvel] qacc (timestep (opt m)) (nv m)]) ;;
       (* restore M and factorization *)
       modify (fun d => d.[qM := mju_copy d.[qM] saveM (nM m)]) ;;
       modify (fun d => d.[qLD := mju_copy d.[qLD] saveLD (nM m)]) ;;
       modify (fun d => d.[qLDiagInv := mju_copy d.[qLDiagInv] saveLDiagInv (nv m)]) ;;
       modify (fun d => d.[qLDiagSqrtInv := mju_copy d.[qLDiagSqrtInv] saveLDiagSqrtInv (nv m)])
   end) ;;
  (* update act *)
  when (truthy (na m))
    (modify (fun d => d.[act := mju_addToScl d.[act] d.[act_dot] (timestep (opt m)) (na m)]) ;;
     (* clamp activations *)
     modify (for_loop 0 (na m) (clamp_act_body m))) ;;
  (* update qpos using new qvel *)
  modify (fun d => d.[qpos := mj_integratePos C m d.[qpos] d.[qvel] (timestep (opt m))]) ;;
  (* advance time *)
  modify (fun d => set_time (Num.add (time d) (timestep (opt m))) d).

Definition mj_implicit (m : mjModel) : M unit :=
  enter Implicit ;;
  (* construct sparse structure in d->D_xxx *)
  modify (fun d =>
    let '(rownnz, rowadr, colind) :=
      mj_makeMSparse C m d (iarr d D_rownnz) (iarr d D_rowadr) (iarr d D_colind) in
    set_iarr D_colind colind (set_iarr D_rowadr rowadr (set_iarr D_rownnz rownnz d))) ;;
  (* compute analytical derivative qDeriv *)
  call mjd_smooth_vel m ;;
  (* set qLU = qM - dt*qDeriv *)
  modify (fun d =>
    d.[qLU := mj_setMSparse C m d d.[qLU]
                (iarr d D_rownnz) (iarr d D_rowadr) (iarr d D_colind)]) ;;
  modify (fun d =>
    d.[qLU := mju_addToScl d.[qLU] d.[qDeriv] (Num.neg (timestep (opt m))) (nD m)]) ;;
  (* factorize qLU; the integer scratch it uses is the local qacc *)
  modify (fun d =>
    d.[qLU := mju_factorLUSparse C d.[qLU] (nv m)
                (iarr d D_rownnz) (iarr d D_rowadr) (iarr d D_colind)]) ;;
  (* set qfrc = qfrc_smooth + qfrc_constraint *)
  d <- get ;;
  let qfrc := mju_add scratch d.[qfrc_smooth] d.[qfrc_constraint] (nv m) in
  (* solve for qacc: (qM - dt*qDeriv) * qacc = qfrc *)
  let qacc :=
    mju_solveLUSparse C scratch d.[qLU] qfrc (nv m)
      (iarr d D_rownnz) (iarr d D_rowadr) (iarr d D_colind) in
  (* update qvel *)
  modify (fun d => d.[qvel := mju_addToScl d.[qvel] qacc (timestep (opt m)) (nv m)]) ;;
  (* update act *)
  when (truthy (na m))
    (modify (fun d => d.[act := mju_addToScl d.[act] d.[act_dot] (timestep (opt m)) (na m)])) ;;
  (* update qpos using new qvel *)
  modify (fun d => d.[qpos := mj_integratePos C m d.[qpos] d.[qvel] (timestep (opt m))]) ;;
  (* advance time *)
  modify (fun d => set_time (Num.add (time d) (timestep (opt m))) d).

(** *** Forward dynamics *)

(** Lines 707-716, position-dependent. *)
Definition position_block (m : mjModel) (skipstage skipsensor : Z) : M unit :=
  when (skipstage <? mjSTAGE_POS)
    (mj_fwdPosition m ;;
     when (negb (truthy skipsensor)) (call mj_sensorPos m) ;;
     when (mjENABLED m mjENBL_ENERGY) (call mj_energyPos m)).

(** Lines 718-727, velocity-dependent. *)
Definition velocity_block (m : mjModel) (skipstage skipsensor : Z) : M unit :=
  when (skipstage <? mjSTAGE_VEL)
    (mj_fwdVelocity m ;;
     when (negb (truthy skipsensor)) (call mj_sensorVel m) ;;
     when (mjENABLED m mjENBL_ENERGY) (call mj_energyVel m)).

Definition mj_forwardSkip (m : mjModel) (skipstage skipsensor : Z) : M unit :=
  enter ForwardSkip ;;
  position_block m skipstage skipsensor ;;
  velocity_block m skipstage skipsensor ;;
  (* acceleration-dependent *)
  call_control m ;;
  mj_fwdActuation m ;;
  mj_fwdAcceleration m ;;
  mj_fwdConstraint m ;;
  when (negb (truthy skipsensor)) (call mj_sensorAcc m).

Definition mj_forward (m : mjModel) : M unit :=
  enter Forward ;;
  mj_forwardSkip m mjSTAGE_NONE 0.

(** *** Value checks *)

Definition mj_checkPos (m : mjModel) : M unit :=
  enter CheckPos ;;
  d <- get ;;
  match first_bad d.[qpos] (nq m) with
  | Some i =>
      modify (fun d => mj_warning d mjWARN_BADQPOS i) ;;
      call mj_resetData m ;;
      modify (warning_number_incr mjWARN_BADQPOS) ;;
      modify (warning_set_lastinfo mjWARN_BADQPOS i)
  | None => ret tt
  end.

Definition mj_checkVel (m : mjModel) : M unit :=
  enter CheckVel ;;
  d <- get ;;
  match first_bad d.[qvel] (nv m) with
  | Some i =>
      modify (fun d => mj_warning d mjWARN_BADQVEL i) ;;
      call mj_resetData m ;;
      modify (warning_number_incr mjWARN_BADQVEL) ;;
      modify (warning_set_lastinfo mjWARN_BADQVEL i)
  | None => ret tt
  end.

Definition mj_checkAcc (m : mjModel) : M unit :=
  enter CheckAcc ;;
  d <- get ;;
  match first_bad d.[qacc] (nv m) with
  | Some i =>
      modify (fun d => mj_warning d mjWARN_BADQACC i) ;;
      call mj_resetData m ;;
      modify (warning_number_incr mjWARN_BADQACC) ;;
      modify (warning_set_lastinfo mjWARN_BADQACC i) ;;
      mj_forward m
  | None => ret tt
  end.

(** *** Runge-Kutta *)

Definition of_list (l : list mjtNum) : buf :=
  fun i => nth (Z.to_nat i) l Num.zero.

Definition RK4_A : buf :=
  of_list [Num.half; Num.zero; Num.zero;
           Num.zero; Num.half; Num.zero;
           Num.zero; Num.zero; Num.one].

Definition RK4_B : buf :=
  Eval vm_compute in
    of_list [Num.div (Num.of_Z 1) (Num.of_Z 6); Num.div (Num.of_Z 1) (Num.of_Z 3);
             Num.div (Num.of_Z 1) (Num.of_Z 3); Num.div (Num.of_Z 1) (Num.of_Z 6)].

(** Lines 570-579: [C(i) = sum_j A(i,j)] and [T(i) = time + C(i)*h]. *)
Definition rk_precompute (A : buf) (N : Z) (h time0 : mjtNum) : buf * buf :=
  for_loop 1 N
    (fun i CT =>
       let C0 := upd (fst CT) (i - 1) (Num.of_Z 0) in
       let C1 :=
         for_loop 0 i
           (fun j Cj => upd Cj (i - 1) (Num.add (Cj (i - 1)) (A ((i - 1) * (N - 1) + j))))
           C0 in
       (C1, upd (snd CT) (i - 1) (Num.add time0 (Num.mul (C1 (i - 1)) h))))
    (scratch, scratch).

(** [dX] zeroed, then the sum over [j < count] of [coef j] times
    [(X[j].vel, F[j])]: lines 593-597 with the row of A, lines 621-625 with B. *)
Definition rk_dX (m : mjModel) (X F : Z -> buf) (coef : Z -> mjtNum) (count : Z)
                 (dX : buf) : buf :=
  for_loop 0 count
    (fun j dXj =>
       let dX1 := mju_addToScl dXj (shift (X j) (nq m)) (coef j) (nv m) in
       at_off (nv m) (fun p => mju_addToScl p (F j) (coef j) (nv m + na m)) dX1)
    (mju_zero dX (2 * nv m + na m)).

(** Line 629, [mju_copy(d->qpos, X[0], nq+nv+na)]: qpos, qvel and act lie one
    after the other in the buffer of mjData, so that the copy of nq+nv+na
    numbers to [d->qpos] fills the three arrays. *)
Definition copy_state (m : mjModel) (x : buf) (d : mjData) : mjData :=
  let d1 := d.[qpos := mju_copy d.[qpos] x (nq m)] in
  let d2 := d1.[qvel := mju_copy d1.[qvel] (shift x (nq m)) (nv m)] in
  d2.[act := mju_copy d2.[act] (shift x (nq m + nv m)) (na m)].

(** One pass of the loop that computes X[i] and F[i], lines 591-618; the
    locals it updates are [dX], [X] and [F]. *)
Definition rk_stage (m : mjModel) (A T : buf) (N : Z) (i : Z)
                    (loc : buf * (Z -> buf) * (Z -> buf))
  : M (buf * (Z -> buf) * (Z -> buf)) :=
  let '(dX0, X, F) := loc in
  let h := timestep (opt m) in
  (* compute dX *)
  let dX := rk_dX m X F (fun j => A ((i - 1) * (N - 1) + j)) i dX0 in
  (* compute X[i] = X[0] '+' dX *)
  let Xi0 := mju_copy (X i) (X 0) (nq m + nv m + na m) in
  let Xi1 := mj_integratePos C m Xi0 dX h in
  let Xi := at_off (nq m) (fun p => mju_addToScl p (shift dX (nv m)) h (nv m + na m)) Xi1 in
  (* set X[i], T[i-1] in mjData *)
  modify (fun d => d.[qpos := mju_copy d.[qpos] Xi (nq m)]) ;;
  modify (fun d => d.[qvel := mju_copy d.[qvel] (shift Xi (nq m)) (nv m)]) ;;
  when (truthy (na m))
    (modify (fun d => d.[act := mju_copy d.[act] (shift Xi (nq m + nv m)) (na m)])) ;;
  modify (set_time (T (i - 1))) ;;
  (* evaluate F[i] *)
  mj_forwardSkip m mjSTAGE_NONE 1 ;;
  d <- get ;;
  let Fi0 := mju_copy (F i) d.[qacc] (nv m) in
  let Fi :=
    if truthy (na m) then at_off (nv m) (fun p => mju_copy p d.[act_dot] (na m)) Fi0
    else Fi0 in
  ret (dX, upd X i Xi, upd F i Fi).

Definition mj_RungeKutta (m : mjModel) (N : Z) : M unit :=
  enter RungeKutta ;;
  d0 <- get ;;
  let h := timestep (opt m) in
  let time0 := time d0 in
  (* check order *)
  if negb (N =? 4) then mju_error "Supported RK orders: N=4"
  else
    let A := RK4_A in
    let B := RK4_B in
    (* precompute C and T *)
    let T := snd (rk_precompute A N h time0) in
    (* init X[0], F[0]; mj_forward() was already called *)
    let X00 := mju_copy scratch d0.[qpos] (nq m) in
    let X01 := at_off (nq m) (fun p => mju_copy p d0.[qvel] (nv m)) X00 in
    let F00 := mju_copy scratch d0.[qacc] (nv m) in
    let X0 :=
      if truthy (na m) then at_off (nq m + nv m) (fun p => mju_copy p d0.[act] (na m)) X01
      else X01 in
    let F0 :=
      if truthy (na m) then at_off (nv m) (fun p => mju_copy p d0.[act_dot] (na m)) F00
      else F00 in
    (* compute the remaining X[i], F[i] *)
    loc <- forM 1 N (rk_stage m A T N)
             (scratch, upd (fun _ => scratch) 0 X0, upd (fun _ => scratch) 0 F0) ;;
    let '(dX0, X, F) := loc in
    (* compute dX for final update (using B instead of A) *)
    let dX := rk_dX m X F B N dX0 in
    (* compute Xfinal *)
    modify (set_time (Num.add time0 h)) ;;
    modify (copy_state m (X 0)) ;;
    modify (fun d => d.[qpos := mj_integratePos C m d.[qpos] dX h]) ;;
    modify (fun d => d.[qvel := mju_addToScl d.[qvel] (shift dX (nv m)) h (nv m)]) ;;
    when (truthy (na m))
      (modify (fun d => d.[act := mju_addToScl d.[act] (shift dX (2 * nv m)) h (na m)]) ;;
       (* clamp activations *)
       modify (for_loop 0 (na m) (clamp_act_body m))).

(** *** Top-level API *)

Definition mj_step (m : mjModel) : M unit :=
  enter Step ;;
  (* common to all integrators *)
  mj_checkPos m ;;
  mj_checkVel m ;;
  mj_forward m ;;
  mj_checkAcc m ;;
  (* compare forward and inverse solutions if enabled *)
  when (mjENABLED m mjENBL_FWDINV) (call mj_compareFwdInv m) ;;
  (* use selected integrator *)
  if integrator (opt m) =? mjINT_EULER then mj_Euler m
  else if integrator (opt m) =? mjINT_RK4 then mj_RungeKutta m 4
  else if integrator (opt m) =? mjINT_IMPLICIT then mj_implicit m
  else mju_error "Invalid integrator".

Definition mj_step1 (m : mjModel) : M unit :=
  enter Step1 ;;
  mj_checkPos m ;;
  mj_checkVel m ;;
  mj_fwdPosition m ;;
  call mj_sensorPos m ;;
  call mj_energyPos m ;;
  mj_fwdVelocity m ;;
  call mj_sensorVel m ;;
  call mj_energyVel m ;;
  call_control m.

Definition mj_step2 (m : mjModel) : M unit :=
  enter Step2 ;;
  mj_fwdActuation m ;;
  mj_fwdAcceleration m ;;
  mj_fwdConstraint m ;;
  call mj_sensorAcc m ;;
  mj_checkAcc m ;;
  (* compare forward and inverse solutions if enabled *)
  when (mjENABLED m mjENBL_FWDINV) (call mj_compareFwdInv m) ;;
  (* integrate with Euler or implicit; RK4 defaults to Euler *)
  if integrator (opt m) =? mjINT_IMPLICIT then mj_implicit m
  else mj_Euler m.

End Driver.

(** ** A concrete instance

    One sliding joint of unit mass driven by one integrator actuator whose
    activation is limited to the range from -1 to 1, with a 0.01 timestep:
    the model of the activation-limit test of engine_forward_test.cc.  The
    collaborators are the simplest that fit it: the mass matrix is the
    identity, positions integrate linearly, nothing is sensed. *)

Module Demo.

(** Modelled from the spec: a value is bad when it is not finite. *)
Definition isBad (x : mjtNum) : bool := negb (Num.is_finite x).

Definition dot (a b : buf) (n : Z) : mjtNum :=
  for_loop 0 n (fun i acc => Num.add acc (Num.mul (a i) (b i))) Num.zero.

Definition reset (m : mjModel) (d : mjData) : mjData :=
  {| arr := fun a => scratch;
     iarr := iarr d;
     time := Num.zero;
     nefc := 0;
     solver_iter := 0;
     warning := fun _ => {| lastinfo := 0; number := 0 |} |}.

Definition collab : Collab := {|
  run := fun p m d => match p with mj_resetData => reset m d | _ => d end;
  solve := fun _ _ d _ => d;
  constraintUpdate := fun m d jar _ =>
    (d.[efc_force := mju_copy d.[efc_force] jar (nefc d)],
     Num.mul Num.half (dot jar jar (nefc d)));
  cb_control := None;
  mjcb_act_dyn := None;
  mjcb_act_gain := None;
  mjcb_act_bias := None;
  mju_isBad := isBad;
  mj_isSparse := fun _ => false;
  mju_max := fun a b => if Num.gt a b then a else b;
  mju_dot := dot;
  mju_mulMatVec := fun res _ vec nr _ => mju_copy res vec nr;
  mju_mulMatTVec := fun res _ vec _ nc => mju_copy res vec nc;
  mju_mulMatVecSparse := fun res _ vec nr _ _ _ => mju_copy res vec nr;
  mj_rne := fun m _ _ res => mju_zero res (nv m);
  mj_xfrcAccumulate := fun _ _ qfrc => qfrc;
  mj_solveM := fun m _ x y _ => mju_copy x y (nv m);
  mj_mulM := fun m _ res vec => mju_copy res vec (nv m);
  mj_mulJacVec := fun _ d res vec => mju_copy res vec (nefc d);
  mj_integratePos := fun m q v dt => mju_addToScl q v dt (nq m);
  mj_makeMSparse := fun _ _ rownnz rowadr colind => (rownnz, rowadr, colind);
  mj_setMSparse := fun m d dst _ _ _ => mju_copy dst d.[qM] (nM m);
  mju_factorLUSparse := fun LU _ _ _ _ => LU;
  mju_solveLUSparse := fun res _ vec n _ _ _ => mju_copy res vec n;
  mju_muscleGain := fun _ _ _ _ _ => Num.one;
  mju_muscleBias := fun _ _ _ _ => Num.zero;
  mju_muscleDynamics := fun _ _ _ => Num.zero
|}.

(** 0.01 *)
Definition centi : mjtNum :=
  Eval vm_compute in Num.div (Num.of_Z 1) (Num.of_Z 100).

Definition options (integ sol : Z) : mjOption := {|
  timestep := centi;
  integrator := integ;
  solver := sol;
  iterations := 100;
  noslip_iterations := 0;
  disableflags := 0;
  enableflags := 0
|}.

(** The slider, with the integrator, the solver, the joint damping and the
    activation range as parameters. *)
Definition slider (integ sol : Z) (damping lo hi : mjtNum) : mjModel := {|
  nq := 1; nv := 1; nu := 1; na := 1; nM := 1; nD := 1; ntendon := 0;
  opt := options integ sol;
  dof_damping := of_list [damping];
  dof_Madr := fun _ => 0;
  actuator_dyntype := fun _ => mjDYN_INTEGRATOR;
  actuator_gaintype := fun _ => mjGAIN_FIXED;
  actuator_biastype := fun _ => mjBIAS_AFFINE;
  actuator_ctrllimited := fun _ => 0;
  actuator_forcelimited := fun _ => 0;
  actuator_actlimited := fun _ => 1;
  actuator_dynprm := of_list [Num.of_Z 10];
  actuator_gainprm := of_list [Num.of_Z 100];
  actuator_biasprm := of_list [Num.zero; Num.of_Z (-100); Num.zero];
  actuator_ctrlrange := scratch;
  actuator_forcerange := scratch;
  actuator_actrange := of_list [lo; hi];
  actuator_lengthrange := scratch;
  actuator_acc0 := scratch
|}.

Definition model : mjModel :=
  slider mjINT_EULER mjSOL_NEWTON Num.zero (Num.of_Z (-1)) (Num.of_Z 1).

(** The slider with its control limited to the range from -1 to 1 and its
    force to the range from -50 to 50, and with the flags [dis] disabled. *)
Definition limited (dis : Z) : mjModel := {|
  nq := 1; nv := 1; nu := 1; na := 1; nM := 1; nD := 1; ntendon := 0;
  opt := {| timestep := centi; integrator := mjINT_EULER; solver := mjSOL_NEWTON;
            iterations := 100; noslip_iterations := 0;
            disableflags := dis; enableflags := 0 |};
  dof_damping := scratch;
  dof_Madr := fun _ => 0;
  actuator_dyntype := fun _ => mjDYN_INTEGRATOR;
  actuator_gaintype := fun _ => mjGAIN_FIXED;
  actuator_biastype := fun _ => mjBIAS_AFFINE;
  actuator_ctrllimited := fun _ => 1;
  actuator_forcelimited := fun _ => 1;
  actuator_actlimited := fun _ => 1;
  actuator_dynprm := of_list [Num.of_Z 10];
  actuator_gainprm := of_list [Num.of_Z 100];
  actuator_biasprm := of_list [Num.zero; Num.of_Z (-100); Num.zero];
  actuator_ctrlrange := of_list [Num.of_Z (-1); Num.of_Z 1];
  actuator_forcerange := of_list [Num.of_Z (-50); Num.of_Z 50];
  actuator_actrange := of_list [Num.of_Z (-1); Num.of_Z 1];
  actuator_lengthrange := scratch;
  actuator_acc0 := scratch
|}.

(** The state at rest, with the control [u], the activation [a] and [k]
    active constraints. *)
Definition state (u a : mjtNum) (k : Z) : mjData := {|
  arr := fun x =>
    match x with
    | ctrl => of_list [u]
    | act => of_list [a]
    | qM => of_list [Num.one]
    | qLD => of_list [Num.one]
    | qLDiagInv => of_list [Num.one]
    | qLDiagSqrtInv => of_list [Num.one]
    | _ => scratch
    end;
  iarr := fun _ _ => 0;
  time := Num.zero;
  nefc := k;
  solver_iter := 0;
  warning := fun _ => {| lastinfo := 0; number := 0 |}
|}.

Definition rest : mjData := state Num.one Num.zero 0.

(** The slider of [limited] with its control limited to the range from 2
    to 3, in which zero does not lie. *)
Definition offset : mjModel := {|
  nq := 1; nv := 1; nu := 1; na := 1; nM := 1; nD := 1; ntendon := 0;
  opt := options mjINT_EULER mjSOL_NEWTON;
  dof_damping := scratch;
  dof_Madr := fun _ => 0;
  actuator_dyntype := fun _ => mjDYN_INTEGRATOR;
  actuator_gaintype := fun _ => mjGAIN_FIXED;
  actuator_biastype := fun _ => mjBIAS_AFFINE;
  actuator_ctrllimited := fun _ => 1;
  actuator_forcelimited := fun _ => 1;
  actuator_actlimited := fun _ => 1;
  actuator_dynprm := of_list [Num.of_Z 10];
  actuator_gainprm := of_list [Num.of_Z 100];
  actuator_biasprm := of_list [Num.zero; Num.of_Z (-100); Num.zero];
  actuator_ctrlrange := of_list [Num.of_Z 2; Num.of_Z 3];
  actuator_forcerange := of_list [Num.of_Z (-50); Num.of_Z 50];
  actuator_actrange := of_list [Num.of_Z (-1); Num.of_Z 1];
  actuator_lengthrange := scratch;
  actuator_acc0 := scratch
|}.

(** One active constraint, with the acceleration [aw] kept from the
    previous step, the unconstrained acceleration [asm] and the constraint
    bias [b]. *)
Definition warm (aw asm b : mjtNum) : mjData :=
  let d := state Num.one Num.zero 1 in
  let d1 := d.[qacc_warmstart := of_list [aw]] in
  let d2 := d1.[qacc_smooth := of_list [asm]] in
  d2.[efc_b := of_list [b]].

(** 3.5 *)
Definition three_and_a_half : mjtNum :=
  Eval vm_compute in Num.div (Num.of_Z 7) (Num.of_Z 2).

End Demo.

(** ** Predicates of the statements *)

(** The computation returns, whatever the state it starts in. *)
Definition total {A : Type} (c : M A) : Prop :=
  forall w, exists a w', c w = Done a w'.

Class Preorder (R : world -> world -> Prop) : Prop := {
  pre_refl : forall w, R w w;
  pre_trans : forall a b c, R a b -> R b c -> R a c
}.

(** [R] relates the state a computation starts in to the state it stops in,
    returned or not. *)
Definition steady (R : world -> world -> Prop) {A : Type} (c : M A) : Prop :=
  forall w, R w (final (c w)).

(** The clock is where it was. *)
Definition same_time (w w' : world) : Prop := time (dat w') = time (dat w).

(** The event [e] is in the trace after if and only if it was before. *)
Definition same_occ (e : event) (w w' : world) : Prop :=
  occurs e (trace w') = occurs e (trace w).

(** The computation puts [e] in the trace exactly when [b] holds. *)
Definition emits (e : event) (b : bool) {A : Type} (c : M A) : Prop :=
  forall w, occurs e (trace (final (c w))) = occurs e (trace w) || b.

(** The solver of the model is one of the three the driver knows. *)
Definition valid_solver (m : mjModel) : Prop :=
  solver (opt m) = mjSOL_PGS \/ solver (opt m) = mjSOL_CG \/
  solver (opt m) = mjSOL_NEWTON.

(** No collaborator writes the clock, [mj_resetData] apart. *)
Definition time_frame (C : Collab) : Prop :=
  (forall p m d, p <> mj_resetData -> time (run C p m d) = time d) /\
  (forall p m d k, time (solve C p m d k) = time d) /\
  (forall m d jar flg, time (fst (constraintUpdate C m d jar flg)) = time d) /\
  (forall f m d, cb_control C = Some f -> time (f m d) = time d).

(** [mj_constraintUpdate] leaves the array [a] as it is. *)
Definition update_keeps (C : Collab) (a : darray) : Prop :=
  forall m d jar flg, (fst (constraintUpdate C m d jar flg)).[a] = d.[a].

(** Started in a state where [P] holds, the computation returns, with a
    result and in a state that [Q] relates. *)
Definition hoare {A : Type} (P : world -> Prop) (c : M A)
                 (Q : A -> world -> Prop) : Prop :=
  forall w, P w -> exists a w', c w = Done a w' /\ Q a w'.



(** [d'] is [d] but for the array [a]. *)
Definition same_but (a : darray) (d d' : mjData) : Prop :=
  (forall b, b <> a -> d'.[b] = d.[b]) /\
  iarr d' = iarr d /\ time d' = time d /\ nefc d' = nefc d /\
  solver_iter d' = solver_iter d /\ warning d' = warning d.


(** Entry [i] of the array [a] is what it was. *)
Definition keeps (a : darray) (i : Z) (w w' : world) : Prop :=
  (dat w').[a] i = (dat w).[a] i.


(** Lines 463-468 of [mj_Euler] meet a positive dof_damping entry. *)
Definition has_damping (m : mjModel) : bool :=
  match first_index (nv m) (fun i => Num.gt (dof_damping m i) (Num.of_Z 0)) with
  | Some _ => true
  | None => false
  end.


(** What the clamp of lines 183-189 makes of control [i]. *)
Definition clamped_ctrl (m : mjModel) (i : Z) (c : mjtNum) : mjtNum :=
  if truthy (actuator_ctrllimited m i) && negb (mjDISABLED m mjDSBL_CLAMPCTRL) then
    clamp c (actuator_ctrlrange m (2 * i)) (actuator_ctrlrange m (2 * i + 1))
  else c.

(** What the clamp of lines 257-263 makes of force [i]. *)
Definition clamped_force (m : mjModel) (i : Z) (f : mjtNum) : mjtNum :=
  if truthy (actuator_forcelimited m i) then
    clamp f (actuator_forcerange m (2 * i)) (actuator_forcerange m (2 * i + 1))
  else f.

(** The data after lines 160-173 of [mj_fwdActuation]: results cleared,
    controls checked. *)
Definition actuation_cleared (C : Collab) (m : mjModel) (d : mjData) : mjData :=
  let d1 := d.[qfrc_actuator := mju_zero d.[qfrc_actuator] (nv m)] in
  let d2 := if truthy (nu m)
            then d1.[actuator_force := mju_zero d1.[actuator_force] (nu m)] else d1 in
  check_ctrl C m d2.

(** The data after lines 180-297 of [mj_fwdActuation]: forces, their clamp,
    qfrc_actuator and act_dot. *)
Definition actuation_forces (C : Collab) (m : mjModel) (d : mjData) : mjData :=
  let d3 := for_loop 0 (nu m) (force_body C m) d in
  let d4 := for_loop 0 (nu m) (clamp_force_body m) d3 in
  let d5 := d4.[qfrc_actuator :=
                  mju_mulMatTVec C d4.[qfrc_actuator] d4.[actuator_moment]
                    d4.[actuator_force] (nu m) (nv m)] in
  for_loop (nu m - na m) (nu m) (act_dot_body C m) d5.


(** The event [e], once in the trace, is still in it. *)
Definition still (e : event) (w w' : world) : Prop :=
  occurs e (trace w) = true -> occurs e (trace w') = true.

(** A control callback is installed. *)
Definition has_control (C : Collab) : bool :=
  match cb_control C with
  | Some _ => true
  | None => false
  end.

(** *** The costs of the warmstart, in the words of the specification *)

(** The residual [Jv - aref] on the [n] constraints. *)
Definition spec_residual (Jv aref : buf) (n : Z) : buf :=
  fun k => if (0 <=? k) && (k <? n) then Num.sub (Jv k) (aref k) else Jv k.

(** The indices 0, 1, ..., n-1. *)
Definition indices (n : Z) : list Z := map Z.of_nat (seq 0 (Z.to_nat n)).

(** [cost] plus the Gauss term (1/2) (Ma - qfrc)^T (qw - qs) over the [n]
    degrees of freedom: the binary64 sum that starts from [cost] and takes
    the products (1/2 (Ma[k] - qfrc[k])) (qw[k] - qs[k]) by increasing k. *)
Definition spec_Gauss (Ma qfrc qw qs : buf) (n : Z) (cost : mjtNum) : mjtNum :=
  fold_left
    (fun c k =>
       Num.add c (Num.mul (Num.mul Num.half (Num.sub (Ma k) (qfrc k)))
                          (Num.sub (qw k) (qs k))))
    (indices n) cost.

(** The cost of the forces [f] against the bias [b] and the matrix-vector
    product [ARf] = A_R f on the [n] constraints: f.b + (1/2) f.(A_R f). *)
Definition spec_force_cost (C : Collab) (f b ARf : buf) (n : Z) : mjtNum :=
  Num.add (mju_dot C f b n) (Num.mul Num.half (mju_dot C f ARf n)).

Create HintDb drv.

(** ** Reasoning about the driver *)

(** *** Loops *)

Lemma for_up_ind {S : Type} (P : Z -> S -> Prop) (body : Z -> S -> S) :
  forall (k : nat) (i : Z) (s : S),
    P i s ->
    (forall j t, i <= j < i + Z.of_nat k -> P j t -> P (j + 1) (body j t)) ->
    P (i + Z.of_nat k) (for_up k i body s).
Proof.
  induction k as [|k IH]; intros i s Hs Hstep.
  - simpl. now replace (i + 0) with i by lia.
  - cbn [for_up].
    replace (i + Z.of_nat (Datatypes.S k)) with ((i + 1) + Z.of_nat k) by lia.
    apply IH.
    + apply Hstep; [lia | exact Hs].
    + intros j t Hj. apply Hstep. lia.
Qed.

Lemma for_loop_ind {S : Type} (P : Z -> S -> Prop) (body : Z -> S -> S)
      (lo hi : Z) (s : S) :
  lo <= hi ->
  P lo s ->
  (forall j t, lo <= j < hi -> P j t -> P (j + 1) (body j t)) ->
  P hi (for_loop lo hi body s).
Proof.
  intros Hle Hs Hstep. unfold for_loop.
  replace hi with (lo + Z.of_nat (Z.to_nat (hi - lo))) at 1 by lia.
  apply for_up_ind; [exact Hs|].
  intros j t Hj. apply Hstep. lia.
Qed.

(** A property of the state that every pass keeps is kept by the loop. *)
Lemma for_loop_keeps {S : Type} (P : S -> Prop) (body : Z -> S -> S)
      (lo hi : Z) (s : S) :
  P s -> (forall j t, P t -> P (body j t)) -> P (for_loop lo hi body s).
Proof.
  intros Hs Hstep. unfold for_loop.
  generalize (Z.to_nat (hi - lo)) as k. intro k. revert lo s Hs.
  induction k as [|k IH]; intros lo s Hs; simpl; auto.
Qed.

Lemma scan_up_some (p : Z -> bool) :
  forall (k : nat) (i r : Z),
    scan_up k i p = Some r ->
    i <= r < i + Z.of_nat k /\ p r = true /\ (forall j, i <= j < r -> p j = false).
Proof.
  induction k as [|k IH]; intros i r H; [discriminate|].
  cbn [scan_up] in H. destruct (p i) eqn:Ei.
  - injection H as <-. repeat split; try lia; auto; intros j Hj; lia.
  - apply IH in H. destruct H as (Hr & Hp & Hbefore).
    repeat split; try lia; auto.
    intros j Hj. destruct (Z.eq_dec j i) as [->|Hne]; [exact Ei|].
    apply Hbefore. lia.
Qed.

Lemma scan_up_none (p : Z -> bool) :
  forall (k : nat) (i : Z),
    scan_up k i p = None -> forall j, i <= j < i + Z.of_nat k -> p j = false.
Proof.
  induction k as [|k IH]; intros i H j Hj; [lia|].
  cbn [scan_up] in H. destruct (p i) eqn:Ei; [discriminate|].
  destruct (Z.eq_dec j i) as [->|Hne]; [exact Ei|].
  apply (IH (i + 1) H). lia.
Qed.

Lemma scan_up_first (p : Z -> bool) :
  forall (k : nat) (i r : Z),
    i <= r < i + Z.of_nat k -> p r = true ->
    (forall j, i <= j < r -> p j = false) ->
    scan_up k i p = Some r.
Proof.
  induction k as [|k IH]; intros i r Hr Hp Hbefore; [lia|].
  cbn [scan_up]. destruct (Z.eq_dec r i) as [->|Hne].
  - now rewrite Hp.
  - rewrite Hbefore by lia. apply IH; [lia | exact Hp |].
    intros j Hj. apply Hbefore. lia.
Qed.

Lemma scan_up_all_false (p : Z -> bool) :
  forall (k : nat) (i : Z),
    (forall j, i <= j < i + Z.of_nat k -> p j = false) -> scan_up k i p = None.
Proof.
  induction k as [|k IH]; intros i H; [reflexivity|].
  cbn [scan_up]. rewrite H by lia. apply IH. intros j Hj. apply H. lia.
Qed.

Lemma first_index_first (n : Z) (p : Z -> bool) (r : Z) :
  0 <= r < n -> p r = true -> (forall j, 0 <= j < r -> p j = false) ->
  first_index n p = Some r.
Proof.
  intros Hr Hp Hb. unfold first_index. apply scan_up_first; auto. lia.
Qed.

Lemma first_index_all_false (n : Z) (p : Z -> bool) :
  (forall j, 0 <= j < n -> p j = false) -> first_index n p = None.
Proof.
  intros H. unfold first_index. apply scan_up_all_false.
  intros j Hj. apply H. lia.
Qed.

Lemma first_index_none (n : Z) (p : Z -> bool) :
  first_index n p = None -> forall j, 0 <= j < n -> p j = false.
Proof.
  intros H j Hj. unfold first_index in H.
  apply (scan_up_none p _ 0 H). lia.
Qed.

Lemma inb_true (n i : Z) : 0 <= i < n -> inb n i = true.
Proof. intros H. unfold inb. apply andb_true_iff. split; [apply Z.leb_le | apply Z.ltb_lt]; lia. Qed.

(** *** Computations that return *)

Lemma total_ret {A : Type} (a : A) : total (ret a).
Proof. intros w. now exists a, w. Qed.

Lemma total_bind {A B : Type} (c : M A) (k : A -> M B) :
  total c -> (forall a, total (k a)) -> total (bind c k).
Proof.
  intros Hc Hk w. destruct (Hc w) as (a & w1 & E).
  unfold bind. rewrite E. apply Hk.
Qed.

Lemma total_get : total get.
Proof. intros w. now exists (dat w), w. Qed.

Lemma total_modify (f : mjData -> mjData) : total (modify f).
Proof. intros w. eexists _, _. reflexivity. Qed.

Lemma total_log (e : event) : total (log e).
Proof. intros w. eexists _, _. reflexivity. Qed.

Lemma total_when (b : bool) (c : M unit) : total c -> total (when b c).
Proof. intros Hc. destruct b; [exact Hc | apply total_ret]. Qed.

Lemma total_forM_up {S : Type} (body : Z -> S -> M S) :
  (forall i s, total (body i s)) ->
  forall k i s, total (forM_up k i body s).
Proof.
  intros Hb. induction k as [|k IH]; intros i s.
  - apply total_ret.
  - cbn [forM_up]. apply total_bind; [apply Hb | intro; apply IH].
Qed.

Lemma total_forM {S : Type} (lo hi : Z) (body : Z -> S -> M S) (s : S) :
  (forall i t, total (body i t)) -> total (forM lo hi body s).
Proof. intros Hb. apply total_forM_up, Hb. Qed.

(** *** Relations between the state before and the state a computation
        stops in *)

Section Steady.

Context (R : world -> world -> Prop) `{Preorder R}.

Lemma steady_ret {A : Type} (a : A) : steady R (ret a).
Proof. intros w. apply pre_refl. Qed.

Lemma steady_get : steady R get.
Proof. intros w. apply pre_refl. Qed.

Lemma steady_error {A : Type} (msg : string) : steady R (@mju_error A msg).
Proof. intros w. apply pre_refl. Qed.

Lemma steady_bind {A B : Type} (c : M A) (k : A -> M B) :
  steady R c -> (forall a, steady R (k a)) -> steady R (bind c k).
Proof.
  intros Hc Hk w. specialize (Hc w). unfold bind.
  destruct (c w) as [a w1|msg w1]; simpl in *.
  - eapply pre_trans; [exact Hc | apply Hk].
  - exact Hc.
Qed.

Lemma steady_when (b : bool) (c : M unit) : steady R c -> steady R (when b c).
Proof. intros Hc. destruct b; [exact Hc | apply steady_ret]. Qed.

Lemma steady_forM_up {S : Type} (body : Z -> S -> M S) :
  (forall i s, steady R (body i s)) ->
  forall k i s, steady R (forM_up k i body s).
Proof.
  intros Hb. induction k as [|k IH]; intros i s.
  - apply steady_ret.
  - cbn [forM_up]. apply steady_bind; [apply Hb | intro; apply IH].
Qed.

Lemma steady_forM {S : Type} (lo hi : Z) (body : Z -> S -> M S) (s : S) :
  (forall i t, steady R (body i t)) -> steady R (forM lo hi body s).
Proof. intros Hb. apply steady_forM_up, Hb. Qed.

End Steady.

#[global] Instance same_time_pre : Preorder same_time.
Proof. split; unfold same_time; [reflexivity | intros; congruence]. Qed.

#[global] Instance same_occ_pre (e : event) : Preorder (same_occ e).
Proof. split; unfold same_occ; [reflexivity | intros; congruence]. Qed.

Lemma occurs_app (e : event) (t u : list event) :
  occurs e (t ++ u) = occurs e t || occurs e u.
Proof. unfold occurs. apply existsb_app. Qed.

Lemma occurs_one_same (e : event) : occurs e [e] = true.
Proof. unfold occurs. simpl. destruct (event_eq_dec e e); [reflexivity | contradiction]. Qed.

Lemma occurs_one_other (e e' : event) : e' <> e -> occurs e [e'] = false.
Proof. intros Hne. unfold occurs. simpl. destruct (event_eq_dec e' e); [contradiction | reflexivity]. Qed.

Lemma same_time_modify (f : mjData -> mjData) :
  (forall d, time (f d) = time d) -> steady same_time (modify f).
Proof. intros Hf w. unfold same_time. simpl. apply Hf. Qed.

Lemma same_time_log (e : event) : steady same_time (log e).
Proof. intros w. reflexivity. Qed.

Lemma same_occ_modify (e : event) (f : mjData -> mjData) : steady (same_occ e) (modify f).
Proof. intros w. reflexivity. Qed.

Lemma same_occ_log (e e' : event) : e' <> e -> steady (same_occ e) (log e').
Proof.
  intros Hne w. unfold same_occ. simpl.
  rewrite occurs_app, occurs_one_other by exact Hne. apply orb_false_r.
Qed.

(** *** Pre- and postconditions *)

Lemma hoare_bind {A B : Type} (P : world -> Prop) (Q : A -> world -> Prop)
      (S : B -> world -> Prop) (c : M A) (k : A -> M B) :
  hoare P c Q -> (forall a, hoare (Q a) (k a) S) -> hoare P (bind c k) S.
Proof.
  intros Hc Hk w HP. destruct (Hc w HP) as (a & w1 & E & HQ).
  unfold bind. rewrite E. now apply Hk.
Qed.

Lemma hoare_conseq {A : Type} (P P' : world -> Prop) (Q Q' : A -> world -> Prop)
      (c : M A) :
  hoare P c Q -> (forall w, P' w -> P w) -> (forall a w, Q a w -> Q' a w) ->
  hoare P' c Q'.
Proof.
  intros Hc HP HQ w Hw. destruct (Hc w (HP w Hw)) as (a & w1 & E & H1).
  exists a, w1. split; [exact E | now apply HQ].
Qed.

Lemma hoare_modify (P : world -> Prop) (Q : unit -> world -> Prop)
      (f : mjData -> mjData) :
  (forall w, P w -> Q tt {| dat := f (dat w); trace := trace w |}) ->
  hoare P (modify f) Q.
Proof. intros H w Hw. eexists tt, _. split; [reflexivity | now apply H]. Qed.

Lemma hoare_get (P : world -> Prop) (Q : mjData -> world -> Prop) :
  (forall w, P w -> Q (dat w) w) -> hoare P get Q.
Proof. intros H w Hw. exists (dat w), w. split; [reflexivity | now apply H]. Qed.

(** What a computation that returns keeps steady, it keeps as a
    postcondition. *)
Lemma hoare_steady (R : world -> world -> Prop) `{Preorder R} {A : Type}
      (c : M A) (w0 : world) :
  total c -> steady R c -> hoare (R w0) c (fun _ => R w0).
Proof.
  intros Ht Hs w Hw. destruct (Ht w) as (a & w1 & E).
  exists a, w1. split; [exact E|].
  specialize (Hs w). rewrite E in Hs. simpl in Hs.
  eapply pre_trans; eassumption.
Qed.

Lemma hoare_clock {A : Type} (c : M A) (t : mjtNum) :
  total c -> steady same_time c ->
  hoare (fun w => time (dat w) = t) c (fun _ w => time (dat w) = t).
Proof.
  intros Ht Hs w Hw. destruct (Ht w) as (a & w1 & E).
  exists a, w1. split; [exact E|].
  specialize (Hs w). rewrite E in Hs. unfold same_time in Hs. simpl in Hs. congruence.
Qed.

Lemma hoare_fact {A : Type} (X : Prop) (c : M A) :
  total c -> hoare (fun _ => X) c (fun _ _ => X).
Proof. intros Ht w Hw. destruct (Ht w) as (a & w1 & E). now exists a, w1. Qed.


#[global] Instance keeps_pre (a : darray) (i : Z) : Preorder (keeps a i).
Proof. split; unfold keeps; [reflexivity | intros; congruence]. Qed.

Lemma keeps_modify (a : darray) (i : Z) (f : mjData -> mjData) :
  (forall d, (f d).[a] i = d.[a] i) -> steady (keeps a i) (modify f).
Proof. intros Hf w. unfold keeps. simpl. apply Hf. Qed.

Lemma keeps_log (a : darray) (i : Z) (e : event) : steady (keeps a i) (log e).
Proof. intros w. reflexivity. Qed.

(** A computation that returns keeps what it preserves. *)
Lemma hoare_pres {A : Type} (P : world -> Prop) (c : M A) :
  total c -> (forall w, P w -> P (final (c w))) -> hoare P c (fun _ => P).
Proof.
  intros Ht Hp w Hw. destruct (Ht w) as (a & w1 & E).
  exists a, w1. split; [exact E|]. specialize (Hp w Hw). now rewrite E in Hp.
Qed.

#[global] Instance still_pre (e : event) : Preorder (still e).
Proof. split; unfold still; auto. Qed.

Lemma still_modify (e : event) (f : mjData -> mjData) : steady (still e) (modify f).
Proof. intros w H. exact H. Qed.

Lemma still_log (e e' : event) : steady (still e) (log e').
Proof. intros w H. simpl. rewrite occurs_app, H. reflexivity. Qed.

(** *** Tactics that follow the structure of a computation *)

Ltac steady_with leaf :=
  lazymatch goal with
  | |- steady _ (bind _ _) =>
      apply steady_bind; [exact _ | steady_with leaf | intro; steady_with leaf]
  | |- steady _ (ret _) => apply steady_ret; exact _
  | |- steady _ get => apply steady_get; exact _
  | |- steady _ (mju_error _) => apply steady_error; exact _
  | |- steady _ (when _ _) => apply steady_when; [exact _ | steady_with leaf]
  | |- steady _ (if ?b then _ else _) => destruct b; steady_with leaf
  | |- steady _ (match ?x with _ => _ end) => destruct x; steady_with leaf
  | |- _ => leaf
  end.

Ltac total_with leaf :=
  lazymatch goal with
  | |- total (bind _ _) =>
      apply total_bind; [total_with leaf | intro; total_with leaf]
  | |- total (ret _) => apply total_ret
  | |- total get => apply total_get
  | |- total (modify _) => apply total_modify
  | |- total (log _) => apply total_log
  | |- total (when _ _) => apply total_when; total_with leaf
  | |- total (if ?b then _ else _) => destruct b; total_with leaf
  | |- total (match ?x with _ => _ end) => destruct x; total_with leaf
  | |- _ => leaf
  end.

(** *** The clock *)

Section Clock.

Variable C : Collab.
Hypothesis Hframe : time_frame C.

Lemma call_time (p : proc) (m : mjModel) :
  p <> mj_resetData -> steady same_time (call C p m).
Proof.
  intros Hp w. unfold same_time. simpl.
  destruct Hframe as (Hrun & _). now apply Hrun.
Qed.

Lemma call_solver_time (p : proc) (m : mjModel) (k : Z) :
  steady same_time (call_solver C p m k).
Proof.
  intros w. unfold same_time. simpl.
  destruct Hframe as (_ & Hsolve & _). apply Hsolve.
Qed.

Lemma call_constraintUpdate_time (m : mjModel) (jar : buf) (flg : Z) :
  steady same_time (call_constraintUpdate C m jar flg).
Proof.
  intros w. unfold same_time. simpl.
  destruct Hframe as (_ & _ & Hcu & _). apply Hcu.
Qed.

Lemma call_control_time (m : mjModel) : steady same_time (call_control C m).
Proof.
  intros w. unfold same_time, call_control.
  destruct (cb_control C) as [f|] eqn:E; simpl; [|reflexivity].
  destruct Hframe as (_ & _ & _ & Hcb). now apply Hcb.
Qed.

Lemma for_loop_time (lo hi : Z) (body : Z -> mjData -> mjData) (d : mjData) :
  (forall i t, time (body i t) = time t) ->
  time (for_loop lo hi body d) = time d.
Proof.
  intros Hb. apply (for_loop_keeps (fun t => time t = time d)); [reflexivity|].
  intros j t Ht. now rewrite Hb.
Qed.

Lemma check_ctrl_time (m : mjModel) (d : mjData) : time (check_ctrl C m d) = time d.
Proof. unfold check_ctrl. now destruct (first_bad C d.[ctrl] (nu m)). Qed.

Lemma force_body_time (m : mjModel) (i : Z) (d : mjData) :
  time (force_body C m i d) = time d.
Proof.
  unfold force_body.
  destruct (truthy (actuator_ctrllimited m i) && negb (mjDISABLED m mjDSBL_CLAMPCTRL));
    destruct (actuator_dyntype m i =? mjDYN_NONE); reflexivity.
Qed.

Lemma clamp_force_body_time (m : mjModel) (i : Z) (d : mjData) :
  time (clamp_force_body m i d) = time d.
Proof. unfold clamp_force_body. now destruct (truthy (actuator_forcelimited m i)). Qed.

Lemma act_dot_body_time (m : mjModel) (i : Z) (d : mjData) :
  time (act_dot_body C m i d) = time d.
Proof. reflexivity. Qed.

Lemma clamp_act_body_time (m : mjModel) (i : Z) (d : mjData) :
  time (clamp_act_body m i d) = time d.
Proof.
  unfold clamp_act_body.
  now destruct (truthy (actuator_actlimited m (i + nu m - na m))).
Qed.

Ltac clock_leaf :=
  idtac;
  lazymatch goal with
  | |- steady _ (log _) => apply same_time_log
  | |- steady _ (enter _) => apply same_time_log
  | |- steady _ (call _ _ _) => apply call_time; discriminate
  | |- steady _ (call_solver _ _ _ _) => apply call_solver_time
  | |- steady _ (call_constraintUpdate _ _ _ _) => apply call_constraintUpdate_time
  | |- steady _ (call_control _ _) => apply call_control_time
  | |- steady _ (modify _) =>
      apply same_time_modify; intro;
      first [ reflexivity
            | solve [ repeat match goal with
                             | |- context [if ?b then _ else _] => destruct b
                             | |- context [let '(_, _) := ?x in _] => destruct x
                             end; reflexivity ]
            | apply check_ctrl_time
            | apply for_loop_time; intros;
              first [ apply force_body_time | apply clamp_force_body_time
                    | apply act_dot_body_time | apply clamp_act_body_time ] ]
  | |- _ => solve [auto with drv]
  end.

Lemma fwdPosition_time (m : mjModel) : steady same_time (mj_fwdPosition C m).
Proof. unfold mj_fwdPosition. steady_with clock_leaf. Qed.

Lemma fwdVelocity_time (m : mjModel) : steady same_time (mj_fwdVelocity C m).
Proof. unfold mj_fwdVelocity. steady_with clock_leaf. Qed.

Lemma fwdActuation_time (m : mjModel) : steady same_time (mj_fwdActuation C m).
Proof. unfold mj_fwdActuation. steady_with clock_leaf. Qed.

Lemma fwdAcceleration_time (m : mjModel) : steady same_time (mj_fwdAcceleration C m).
Proof. unfold mj_fwdAcceleration. steady_with clock_leaf. Qed.

Lemma warmstart_time (m : mjModel) : steady same_time (warmstart C m).
Proof. unfold warmstart. steady_with clock_leaf. Qed.

#[local] Hint Resolve fwdPosition_time fwdVelocity_time fwdActuation_time
  fwdAcceleration_time warmstart_time : drv.

Lemma fwdConstraint_time (m : mjModel) : steady same_time (mj_fwdConstraint C m).
Proof. unfold mj_fwdConstraint. steady_with clock_leaf. Qed.

#[local] Hint Resolve fwdConstraint_time : drv.

Lemma forwardSkip_time (m : mjModel) (skipstage skipsensor : Z) :
  steady same_time (mj_forwardSkip C m skipstage skipsensor).
Proof.
  unfold mj_forwardSkip, position_block, velocity_block. steady_with clock_leaf.
Qed.

#[local] Hint Resolve forwardSkip_time : drv.

Lemma forward_time (m : mjModel) : steady same_time (mj_forward C m).
Proof. unfold mj_forward. steady_with clock_leaf. Qed.

End Clock.

(** *** Which procedures return *)

Section Returns.

Variable C : Collab.

Lemma call_total (p : proc) (m : mjModel) : total (call C p m).
Proof. unfold call. total_with idtac. Qed.

Lemma call_solver_total (p : proc) (m : mjModel) (k : Z) : total (call_solver C p m k).
Proof. unfold call_solver. total_with idtac. Qed.

Lemma call_constraintUpdate_total (m : mjModel) (jar : buf) (flg : Z) :
  total (call_constraintUpdate C m jar flg).
Proof. unfold call_constraintUpdate. total_with idtac. Qed.

Lemma call_control_total (m : mjModel) : total (call_control C m).
Proof. unfold call_control. total_with idtac. Qed.

Ltac returns_leaf :=
  idtac;
  lazymatch goal with
  | |- total (enter _) => apply total_log
  | |- total (call _ _ _) => apply call_total
  | |- total (call_solver _ _ _ _) => apply call_solver_total
  | |- total (call_constraintUpdate _ _ _ _) => apply call_constraintUpdate_total
  | |- total (call_control _ _) => apply call_control_total
  | |- _ => solve [auto with drv]
  end.

Lemma fwdPosition_total (m : mjModel) : total (mj_fwdPosition C m).
Proof. unfold mj_fwdPosition. total_with returns_leaf. Qed.

Lemma fwdVelocity_total (m : mjModel) : total (mj_fwdVelocity C m).
Proof. unfold mj_fwdVelocity. total_with returns_leaf. Qed.

Lemma fwdActuation_total (m : mjModel) : total (mj_fwdActuation C m).
Proof. unfold mj_fwdActuation. total_with returns_leaf. Qed.

Lemma fwdAcceleration_total (m : mjModel) : total (mj_fwdAcceleration C m).
Proof. unfold mj_fwdAcceleration. total_with returns_leaf. Qed.

Lemma warmstart_total (m : mjModel) : total (warmstart C m).
Proof. unfold warmstart. total_with returns_leaf. Qed.

Lemma Euler_total (m : mjModel) : total (mj_Euler C m).
Proof. unfold mj_Euler. total_with returns_leaf. Qed.

Lemma implicit_total (m : mjModel) : total (mj_implicit C m).
Proof. unfold mj_implicit. total_with returns_leaf. Qed.

#[local] Hint Resolve fwdPosition_total fwdVelocity_total fwdActuation_total
  fwdAcceleration_total warmstart_total Euler_total implicit_total : drv.

(** The solver switch of [mj_fwdConstraint] is the one place of the forward
    pipeline that can stop the program. *)
Lemma fwdConstraint_total (m : mjModel) :
  valid_solver m -> total (mj_fwdConstraint C m).
Proof.
  intros Hvalid. unfold mj_fwdConstraint.
  apply total_bind; [returns_leaf | intros _].
  apply total_bind; [apply total_get | intros d0].
  destruct (negb (truthy (nefc d0))); [total_with returns_leaf|].
  do 4 (apply total_bind; [total_with returns_leaf | intros _]).
  apply total_bind; [|intros _; total_with returns_leaf].
  destruct Hvalid as [E|[E|E]]; rewrite E; cbn; apply call_solver_total.
Qed.

Lemma forwardSkip_total (m : mjModel) (skipstage skipsensor : Z) :
  valid_solver m -> total (mj_forwardSkip C m skipstage skipsensor).
Proof.
  intros Hvalid. pose proof (fwdConstraint_total m Hvalid).
  unfold mj_forwardSkip, position_block, velocity_block. total_with returns_leaf.
Qed.

Lemma forward_total (m : mjModel) : valid_solver m -> total (mj_forward C m).
Proof.
  intros Hvalid. pose proof (forwardSkip_total m mjSTAGE_NONE 0 Hvalid).
  unfold mj_forward. total_with returns_leaf.
Qed.

Lemma rk_stage_total (m : mjModel) (A T : buf) (N i : Z)
      (loc : buf * (Z -> buf) * (Z -> buf)) :
  valid_solver m -> total (rk_stage C m A T N i loc).
Proof.
  intros Hvalid. pose proof (forwardSkip_total m mjSTAGE_NONE 1 Hvalid).
  unfold rk_stage. destruct loc as [[dX0 X] F]. total_with returns_leaf.
Qed.

Lemma RungeKutta_total (m : mjModel) :
  valid_solver m -> total (mj_RungeKutta C m 4).
Proof.
  intros Hvalid. unfold mj_RungeKutta.
  apply total_bind; [returns_leaf | intros _].
  apply total_bind; [apply total_get | intros d0].
  change (negb (4 =? 4)) with false. cbv iota.
  apply total_bind.
  - apply total_forM. intros i t. now apply rk_stage_total.
  - intros [[dX0 X] F]. total_with returns_leaf.
Qed.

Lemma checkPos_total (m : mjModel) : total (mj_checkPos C m).
Proof. unfold mj_checkPos. total_with returns_leaf. Qed.

Lemma checkVel_total (m : mjModel) : total (mj_checkVel C m).
Proof. unfold mj_checkVel. total_with returns_leaf. Qed.

Lemma checkAcc_total (m : mjModel) : valid_solver m -> total (mj_checkAcc C m).
Proof.
  intros Hvalid. pose proof (forward_total m Hvalid).
  unfold mj_checkAcc. total_with returns_leaf.
Qed.

Lemma step1_total (m : mjModel) : total (mj_step1 C m).
Proof.
  pose proof (checkPos_total m). pose proof (checkVel_total m).
  unfold mj_step1. total_with returns_leaf.
Qed.

End Returns.

(** *** What a computation puts in the trace *)

Lemma emits_silent (e : event) {A : Type} (c : M A) :
  steady (same_occ e) c -> emits e false c.
Proof. intros H w. rewrite orb_false_r. apply H. Qed.

Lemma emits_log (e : event) : emits e true (log e).
Proof. intros w. simpl. rewrite occurs_app, occurs_one_same. reflexivity. Qed.

(** A computation that returns, then another one. *)
Lemma emits_bind (e : event) (b1 b2 : bool) {A B : Type} (c : M A) (k : A -> M B) :
  total c -> emits e b1 c -> (forall a, emits e b2 (k a)) ->
  emits e (b1 || b2) (bind c k).
Proof.
  intros Ht Hc Hk w. destruct (Ht w) as (a & w1 & E).
  specialize (Hc w). unfold bind. rewrite E in *. simpl in Hc.
  rewrite Hk, Hc. symmetry. apply orb_assoc.
Qed.

(** A computation that may stop, then one that is silent. *)
Lemma emits_bind_tail (e : event) (b : bool) {A B : Type} (c : M A) (k : A -> M B) :
  emits e b c -> (forall a, emits e false (k a)) -> emits e b (bind c k).
Proof.
  intros Hc Hk w. specialize (Hc w). unfold bind.
  destruct (c w) as [a w1|msg w1]; simpl in *; [|exact Hc].
  rewrite Hk, Hc. apply orb_false_r.
Qed.

Lemma emits_when (e : event) (b bc : bool) (c : M unit) :
  emits e bc c -> emits e (b && bc) (when b c).
Proof.
  intros Hc. destruct b; simpl; [exact Hc|].
  intros w. simpl. now rewrite orb_false_r.
Qed.

Lemma emits_eq (e : event) (b b' : bool) {A : Type} (c : M A) :
  b = b' -> emits e b c -> emits e b' c.
Proof. now intros ->. Qed.

(** Nothing of the computation puts the event in the trace: every [log]
    in it is of another event. *)
Ltac silent :=
  lazymatch goal with
  | |- steady _ (bind _ _) => apply steady_bind; [exact _ | silent | intro; silent]
  | |- steady _ (ret _) => apply steady_ret; exact _
  | |- steady _ get => apply steady_get; exact _
  | |- steady _ (mju_error _) => apply steady_error; exact _
  | |- steady _ (when _ _) => apply steady_when; [exact _ | silent]
  | |- steady _ (log _) => apply same_occ_log; discriminate
  | |- steady _ (enter _) => apply same_occ_log; discriminate
  | |- steady _ (modify _) => apply same_occ_modify
  | |- steady _ (call _ _ _) => unfold call; silent
  | |- steady _ (call_solver _ _ _ _) => unfold call_solver; silent
  | |- steady _ (call_constraintUpdate _ _ _ _) => unfold call_constraintUpdate; silent
  | |- steady _ (call_control _ _) => unfold call_control; silent
  | |- steady _ (mj_fwdPosition _ _) => unfold mj_fwdPosition; silent
  | |- steady _ (mj_fwdVelocity _ _) => unfold mj_fwdVelocity; silent
  | |- steady _ (mj_fwdActuation _ _) => unfold mj_fwdActuation; silent
  | |- steady _ (mj_fwdAcceleration _ _) => unfold mj_fwdAcceleration; silent
  | |- steady _ (warmstart _ _) => unfold warmstart; silent
  | |- steady _ (mj_fwdConstraint _ _) => unfold mj_fwdConstraint; silent
  | |- steady _ (position_block _ _ _ _) => unfold position_block; silent
  | |- steady _ (velocity_block _ _ _ _) => unfold velocity_block; silent
  | |- steady _ (mj_checkPos _ _) => unfold mj_checkPos; silent
  | |- steady _ (mj_checkAcc _ _) => unfold mj_checkAcc; silent
  | |- steady _ (mj_forward _ _) => unfold mj_forward; silent
  | |- steady _ (mj_forwardSkip _ _ _ _) => unfold mj_forwardSkip; silent
  | |- steady _ (mj_Euler _ _) => unfold mj_Euler; silent
  | |- steady _ (mj_implicit _ _) => unfold mj_implicit; silent
  | |- steady _ (mj_checkVel _ _) => unfold mj_checkVel; silent
  | |- steady _ (if ?b then _ else _) => destruct b; silent
  | |- steady _ (match ?x with _ => _ end) => destruct x; silent
  end.

(** The trace only grows: an event that is in it stays in it. *)
Ltac grows :=
  lazymatch goal with
  | |- steady _ (bind _ _) => apply steady_bind; [exact _ | grows | intro; grows]
  | |- steady _ (ret _) => apply steady_ret; exact _
  | |- steady _ get => apply steady_get; exact _
  | |- steady _ (mju_error _) => apply steady_error; exact _
  | |- steady _ (when _ _) => apply steady_when; [exact _ | grows]
  | |- steady _ (log _) => apply still_log
  | |- steady _ (enter _) => apply still_log
  | |- steady _ (modify _) => apply still_modify
  | |- steady _ (call _ _ _) => unfold call; grows
  | |- steady _ (call_solver _ _ _ _) => unfold call_solver; grows
  | |- steady _ (call_constraintUpdate _ _ _ _) => unfold call_constraintUpdate; grows
  | |- steady _ (call_control _ _) => unfold call_control; grows
  | |- steady _ (mj_fwdPosition _ _) => unfold mj_fwdPosition; grows
  | |- steady _ (mj_fwdVelocity _ _) => unfold mj_fwdVelocity; grows
  | |- steady _ (mj_fwdActuation _ _) => unfold mj_fwdActuation; grows
  | |- steady _ (mj_fwdAcceleration _ _) => unfold mj_fwdAcceleration; grows
  | |- steady _ (warmstart _ _) => unfold warmstart; grows
  | |- steady _ (mj_fwdConstraint _ _) => unfold mj_fwdConstraint; grows
  | |- steady _ (position_block _ _ _ _) => unfold position_block; grows
  | |- steady _ (velocity_block _ _ _ _) => unfold velocity_block; grows
  | |- steady _ (mj_forwardSkip _ _ _ _) => unfold mj_forwardSkip; grows
  | |- steady _ (mj_forward _ _) => unfold mj_forward; grows
  | |- steady _ (mj_checkPos _ _) => unfold mj_checkPos; grows
  | |- steady _ (mj_checkVel _ _) => unfold mj_checkVel; grows
  | |- steady _ (mj_checkAcc _ _) => unfold mj_checkAcc; grows
  | |- steady _ (if ?b then _ else _) => destruct b; grows
  | |- steady _ (match ?x with _ => _ end) => destruct x; grows
  end.

Ltac returns :=
  total_with ltac:(idtac;
    lazymatch goal with
    | |- total (enter _) => apply total_log
    | |- total (call _ _ _) => apply call_total
    | |- total (call_control _ _) => apply call_control_total
    | |- total (mj_fwdPosition _ _) => apply fwdPosition_total
    | |- total (mj_fwdVelocity _ _) => apply fwdVelocity_total
    | |- total (mj_fwdActuation _ _) => apply fwdActuation_total
    | |- total (mj_fwdAcceleration _ _) => apply fwdAcceleration_total
    | |- total (mj_checkPos _ _) => apply checkPos_total
    | |- total (mj_checkVel _ _) => apply checkVel_total
    end).

Section Stages.

Variable C : Collab.
Variable m : mjModel.

(** A stage puts its own entry in the trace. *)
Lemma enters (r : routine) {A : Type} (k : unit -> M A) :
  (forall a, steady (same_occ (Enter r)) (k a)) ->
  emits (Enter r) true (bind (enter r) k).
Proof.
  intros Hk. apply (emits_bind (Enter r) true false).
  - apply total_log.
  - apply emits_log.
  - intros a. apply emits_silent, Hk.
Qed.

Lemma fwdPosition_enters : emits (Enter FwdPosition) true (mj_fwdPosition C m).
Proof. unfold mj_fwdPosition. apply enters. intro. silent. Qed.

Lemma fwdVelocity_enters : emits (Enter FwdVelocity) true (mj_fwdVelocity C m).
Proof. unfold mj_fwdVelocity. apply enters. intro. silent. Qed.

Lemma fwdActuation_enters : emits (Enter FwdActuation) true (mj_fwdActuation C m).
Proof. unfold mj_fwdActuation. apply enters. intro. silent. Qed.

Lemma fwdAcceleration_enters : emits (Enter FwdAcceleration) true (mj_fwdAcceleration C m).
Proof. unfold mj_fwdAcceleration. apply enters. intro. silent. Qed.

Lemma fwdConstraint_enters : emits (Enter FwdConstraint) true (mj_fwdConstraint C m).
Proof. unfold mj_fwdConstraint. apply enters. intro. silent. Qed.

Lemma call_emits (p : proc) : emits (Call p) true (call C p m).
Proof.
  unfold call. apply (emits_bind (Call p) true false).
  - apply total_log.
  - apply emits_log.
  - intro. apply emits_silent. silent.
Qed.

Lemma position_block_total (s k : Z) : total (position_block C m s k).
Proof. unfold position_block. returns. Qed.

Lemma velocity_block_total (s k : Z) : total (velocity_block C m s k).
Proof. unfold velocity_block. returns. Qed.

(** What [mj_forwardSkip] puts in the trace, from what its parts put: all
    the parts before the constraint stage return, and what follows the
    constraint stage is the call of the acceleration sensors. *)
Lemma forwardSkip_emits (e : event) (bP bV bA bB bC : bool) (skipstage skipsensor : Z) :
  e <> Enter ForwardSkip -> e <> Call mjcb_control -> e <> Call mj_sensorAcc ->
  emits e bP (position_block C m skipstage skipsensor) ->
  emits e bV (velocity_block C m skipstage skipsensor) ->
  emits e bA (mj_fwdActuation C m) ->
  emits e bB (mj_fwdAcceleration C m) ->
  emits e bC (mj_fwdConstraint C m) ->
  emits e (bP || (bV || (bA || (bB || bC)))) (mj_forwardSkip C m skipstage skipsensor).
Proof.
  intros N1 N2 N3 HP HV HA HB HC.
  unfold mj_forwardSkip.
  apply (emits_bind e false); [apply total_log | apply emits_silent, same_occ_log, not_eq_sym, N1 | intro].
  apply (emits_bind e bP); [apply position_block_total | exact HP | intro].
  apply (emits_bind e bV); [apply velocity_block_total | exact HV | intro].
  apply (emits_bind e false (bA || (bB || bC))).
  { apply call_control_total. }
  { apply emits_silent. unfold call_control. destruct (cb_control C); [|apply steady_ret; exact _].
    apply steady_bind; [exact _ | apply same_occ_log, not_eq_sym, N2 | intro; apply same_occ_modify]. }
  intro.
  apply (emits_bind e bA); [apply fwdActuation_total | exact HA | intro].
  apply (emits_bind e bB); [apply fwdAcceleration_total | exact HB | intro].
  apply emits_bind_tail; [exact HC | intro].
  apply emits_silent, steady_when; [exact _|].
  unfold call. apply steady_bind; [exact _ | apply same_occ_log, not_eq_sym, N3 | intro; apply same_occ_modify].
Qed.


Lemma position_block_enters (s k : Z) :
  emits (Enter FwdPosition) (s <? mjSTAGE_POS) (position_block C m s k).
Proof.
  unfold position_block.
  apply (emits_eq _ ((s <? mjSTAGE_POS) && (true || false))); [apply andb_true_r|].
  apply emits_when, emits_bind;
    [apply fwdPosition_total | apply fwdPosition_enters | intro; apply emits_silent; silent].
Qed.

Lemma velocity_block_enters (s k : Z) :
  emits (Enter FwdVelocity) (s <? mjSTAGE_VEL) (velocity_block C m s k).
Proof.
  unfold velocity_block.
  apply (emits_eq _ ((s <? mjSTAGE_VEL) && (true || false))); [apply andb_true_r|].
  apply emits_when, emits_bind;
    [apply fwdVelocity_total | apply fwdVelocity_enters | intro; apply emits_silent; silent].
Qed.

Lemma position_block_energy (s k : Z) :
  emits (Call mj_energyPos) ((s <? mjSTAGE_POS) && mjENABLED m mjENBL_ENERGY)
        (position_block C m s k).
Proof.
  unfold position_block.
  apply emits_when.
  apply (emits_bind _ false); [apply fwdPosition_total | apply emits_silent; silent | intro].
  apply (emits_bind _ false); [returns | apply emits_silent; silent | intro].
  apply (emits_eq _ (mjENABLED m mjENBL_ENERGY && true)); [apply andb_true_r|].
  apply emits_when, call_emits.
Qed.

Lemma velocity_block_energy (s k : Z) :
  emits (Call mj_energyVel) ((s <? mjSTAGE_VEL) && mjENABLED m mjENBL_ENERGY)
        (velocity_block C m s k).
Proof.
  unfold velocity_block.
  apply emits_when.
  apply (emits_bind _ false); [apply fwdVelocity_total | apply emits_silent; silent | intro].
  apply (emits_bind _ false); [returns | apply emits_silent; silent | intro].
  apply (emits_eq _ (mjENABLED m mjENBL_ENERGY && true)); [apply andb_true_r|].
  apply emits_when, call_emits.
Qed.

End Stages.

Ltac quiet := apply emits_silent; silent.

(** The control callback is called exactly when one is installed, whatever
    skipstage is and whether the constraint stage returns or stops. *)
Lemma forwardSkip_control (C : Collab) (m : mjModel) (skipstage skipsensor : Z) :
  emits (Call mjcb_control) (has_control C) (mj_forwardSkip C m skipstage skipsensor).
Proof.
  unfold mj_forwardSkip.
  apply (emits_bind _ false); [apply total_log | quiet | intro].
  apply (emits_bind _ false); [apply position_block_total | quiet | intro].
  apply (emits_bind _ false); [apply velocity_block_total | quiet | intro].
  apply (emits_eq _ (has_control C || false)); [apply orb_false_r|].
  apply emits_bind; [apply call_control_total | | intro; quiet].
  unfold call_control, has_control. destruct (cb_control C) as [f|].
  - apply (emits_eq _ (true || false)); [reflexivity|].
    apply emits_bind; [apply total_log | apply emits_log | intro; quiet].
  - quiet.
Qed.

(** C4 (as amended): [mj_forwardSkip] enters the position stage exactly
    when skipstage is below mjSTAGE_POS and the velocity stage exactly when
    skipstage is below mjSTAGE_VEL; it calls the control callback exactly
    when one is installed, and it enters the actuation, the acceleration and
    the constraint stage, whatever skipstage is, mjSTAGE_ACC included. *)
Theorem forwardSkip_stages (C : Collab) (m : mjModel) (d : mjData)
        (skipstage skipsensor : Z) :
  let t := trace (final (mj_forwardSkip C m skipstage skipsensor (start d))) in
  occurs (Enter FwdPosition) t = (skipstage <? mjSTAGE_POS) /\
  occurs (Enter FwdVelocity) t = (skipstage <? mjSTAGE_VEL) /\
  occurs (Call mjcb_control) t = has_control C /\
  occurs (Enter FwdActuation) t = true /\
  occurs (Enter FwdAcceleration) t = true /\
  occurs (Enter FwdConstraint) t = true.
Proof.
  cbv zeta. repeat split.
  - rewrite (forwardSkip_emits C m (Enter FwdPosition)
               (skipstage <? mjSTAGE_POS) false false false false);
      try discriminate; try quiet; [|apply position_block_enters].
    cbn. now rewrite !orb_false_r.
  - rewrite (forwardSkip_emits C m (Enter FwdVelocity)
               false (skipstage <? mjSTAGE_VEL) false false false);
      try discriminate; try quiet; [|apply velocity_block_enters].
    cbn. now rewrite !orb_false_r.
  - now rewrite forwardSkip_control.
  - rewrite (forwardSkip_emits C m (Enter FwdActuation) false false true false false);
      try discriminate; try quiet; [reflexivity | apply fwdActuation_enters].
  - rewrite (forwardSkip_emits C m (Enter FwdAcceleration) false false false true false);
      try discriminate; try quiet; [reflexivity | apply fwdAcceleration_enters].
  - rewrite (forwardSkip_emits C m (Enter FwdConstraint) false false false false true);
      try discriminate; try quiet; [reflexivity | apply fwdConstraint_enters].
Qed.

(** C4 as stated fails: with skipstage equal to mjSTAGE_ACC, which is not
    below mjSTAGE_ACC, the actuation, acceleration and constraint stages are
    entered all the same. *)
Lemma forwardSkip_ACC_runs_acceleration :
  let t := trace (final (mj_forwardSkip Demo.collab Demo.model mjSTAGE_ACC 0
                                        (start Demo.rest))) in
  (mjSTAGE_ACC <? mjSTAGE_ACC) = false /\
  occurs (Enter FwdActuation) t = true /\
  occurs (Enter FwdAcceleration) t = true /\
  occurs (Enter FwdConstraint) t = true.
Proof. vm_compute. repeat split. Qed.

(** C10: [mj_step1] calls [mj_energyPos] and [mj_energyVel] whatever the
    enable flags are; [mj_forwardSkip] calls [mj_energyPos] exactly when
    the position stage is not skipped and mjENBL_ENERGY is set, and
    [mj_energyVel] exactly when the velocity stage is not skipped and
    mjENBL_ENERGY is set. *)
Theorem energy_calls (C : Collab) (m : mjModel) (d : mjData)
        (skipstage skipsensor : Z) :
  let t1 := trace (final (mj_step1 C m (start d))) in
  let t := trace (final (mj_forwardSkip C m skipstage skipsensor (start d))) in
  occurs (Call mj_energyPos) t1 = true /\
  occurs (Call mj_energyVel) t1 = true /\
  occurs (Call mj_energyPos) t = (skipstage <? mjSTAGE_POS) && mjENABLED m mjENBL_ENERGY /\
  occurs (Call mj_energyVel) t = (skipstage <? mjSTAGE_VEL) && mjENABLED m mjENBL_ENERGY.
Proof.
  cbv zeta. repeat split.
  - assert (H : emits (Call mj_energyPos) true (mj_step1 C m)).
    { unfold mj_step1.
      do 5 (apply (emits_bind _ false); [returns | quiet | intro]).
      apply (emits_bind _ true false); [apply call_total | apply call_emits | intro; quiet]. }
    now rewrite H.
  - assert (H : emits (Call mj_energyVel) true (mj_step1 C m)).
    { unfold mj_step1.
      do 8 (apply (emits_bind _ false); [returns | quiet | intro]).
      apply (emits_bind _ true false); [apply call_total | apply call_emits | intro; quiet]. }
    now rewrite H.
  - rewrite (forwardSkip_emits C m (Call mj_energyPos)
               ((skipstage <? mjSTAGE_POS) && mjENABLED m mjENBL_ENERGY)
               false false false false);
      try discriminate; try quiet; [|apply position_block_energy].
    cbn. now rewrite !orb_false_r.
  - rewrite (forwardSkip_emits C m (Call mj_energyVel) false
               ((skipstage <? mjSTAGE_VEL) && mjENABLED m mjENBL_ENERGY)
               false false false);
      try discriminate; try quiet; [|apply velocity_block_energy].
    cbn. now rewrite !orb_false_r.
Qed.

(** *** The clock over one step *)

Section Step.

Variable C : Collab.
Hypothesis Hframe : time_frame C.

Ltac keep_time :=
  apply (hoare_steady same_time);
  [ total_with ltac:(idtac; solve [auto using call_total, call_control_total with drv])
  | steady_with ltac:(idtac; solve [auto using call_time, call_control_time with drv]) ].

Lemma checkPos_clean (m : mjModel) (w : world) :
  first_bad C (dat w).[qpos] (nq m) = None ->
  mj_checkPos C m w = Done tt {| dat := dat w; trace := trace w ++ [Enter CheckPos] |}.
Proof. intros E. unfold mj_checkPos, bind. simpl. now rewrite E. Qed.

Lemma checkVel_clean (m : mjModel) (w : world) :
  first_bad C (dat w).[qvel] (nv m) = None ->
  mj_checkVel C m w = Done tt {| dat := dat w; trace := trace w ++ [Enter CheckVel] |}.
Proof. intros E. unfold mj_checkVel, bind. simpl. now rewrite E. Qed.

Lemma checkAcc_clean (m : mjModel) (w : world) :
  first_bad C (dat w).[qacc] (nv m) = None ->
  mj_checkAcc C m w = Done tt {| dat := dat w; trace := trace w ++ [Enter CheckAcc] |}.
Proof. intros E. unfold mj_checkAcc, bind. simpl. now rewrite E. Qed.

Ltac keeps_clock :=
  apply hoare_clock;
  [ total_with ltac:(idtac; first [apply total_log | apply call_total])
  | steady_with ltac:(idtac; first
      [ apply same_time_log
      | apply call_time; [exact Hframe | discriminate]
      | apply same_time_modify; intro;
        first [ reflexivity
              | apply for_loop_time; intros; apply clamp_act_body_time
              | destruct (mj_makeMSparse C _ _ _ _ _) as [[? ?] ?]; reflexivity ] ]) ].

Ltac march :=
  repeat lazymatch goal with
         | |- hoare _ (bind _ _) _ => eapply hoare_bind; [keeps_clock | intro]
         end.

Lemma Euler_advances (m : mjModel) (t : mjtNum) :
  hoare (fun w => time (dat w) = t) (mj_Euler C m)
        (fun _ w' => time (dat w') = Num.add t (timestep (opt m))).
Proof.
  unfold mj_Euler. march.
  apply hoare_modify. intros w Hw. simpl. now rewrite Hw.
Qed.

Lemma implicit_advances (m : mjModel) (t : mjtNum) :
  hoare (fun w => time (dat w) = t) (mj_implicit C m)
        (fun _ w' => time (dat w') = Num.add t (timestep (opt m))).
Proof.
  unfold mj_implicit. march.
  apply hoare_modify. intros w Hw. simpl. now rewrite Hw.
Qed.

Lemma RungeKutta_advances (m : mjModel) (t : mjtNum) :
  valid_solver m ->
  hoare (fun w => time (dat w) = t) (mj_RungeKutta C m 4)
        (fun _ w' => time (dat w') = Num.add t (timestep (opt m))).
Proof.
  intros Hvalid. unfold mj_RungeKutta.
  eapply hoare_bind; [keeps_clock | intro].
  eapply (hoare_bind _ (fun d _ => time d = t));
    [apply hoare_get; intros w Hw; exact Hw | intros d0].
  change (negb (4 =? 4)) with false. cbv iota.
  eapply (hoare_bind _ (fun _ _ => time d0 = t)).
  { apply (hoare_fact (time d0 = t)). apply total_forM.
    intros i s. apply rk_stage_total. exact Hvalid. }
  intros [[dX0 X] F].
  eapply (hoare_bind _ (fun _ w => time (dat w) = Num.add t (timestep (opt m)))).
  { apply hoare_modify. intros w Hw. simpl. now rewrite Hw. }
  intro. march. keeps_clock.
Qed.

(** C1: when no value check fires during the step (nothing bad in qpos and
    in qvel at entry, nothing bad in the qacc that [mj_forward] computes),
    [mj_step] returns with the clock at the binary64 sum of the clock at
    entry and the timestep, under each of the integrators Euler, RK4 and
    implicit.  The collaborators are taken not to write the clock and the
    solver to be one that the driver knows, so that the step returns. *)
Theorem step_advances_time (m : mjModel) (w : world) :
  valid_solver m ->
  integrator (opt m) = mjINT_EULER \/ integrator (opt m) = mjINT_RK4 \/
  integrator (opt m) = mjINT_IMPLICIT ->
  first_bad C (dat w).[qpos] (nq m) = None ->
  first_bad C (dat w).[qvel] (nv m) = None ->
  (forall t w1, mj_forward C m {| dat := dat w; trace := t |} = Done tt w1 ->
                first_bad C (dat w1).[qacc] (nv m) = None) ->
  exists w', mj_step C m w = Done tt w' /\
             time (dat w') = Num.add (time (dat w)) (timestep (opt m)).
Proof.
  intros Hvalid Hint Hpos Hvel Hacc.
  unfold mj_step.
  unfold bind at 1. cbn [enter log].
  unfold bind at 1. rewrite checkPos_clean by exact Hpos.
  unfold bind at 1. rewrite checkVel_clean by exact Hvel.
  unfold bind at 1. cbn [dat trace].
  destruct (forward_total C m Hvalid
              {| dat := dat w;
                 trace := ((trace w ++ [Enter Step]) ++ [Enter CheckPos]) ++ [Enter CheckVel] |})
    as ([] & w1 & E1).
  rewrite E1.
  pose proof (forward_time C Hframe m
              {| dat := dat w;
                 trace := ((trace w ++ [Enter Step]) ++ [Enter CheckPos]) ++ [Enter CheckVel] |})
    as Ht1.
  rewrite E1 in Ht1. unfold same_time in Ht1. simpl in Ht1.
  unfold bind at 1. rewrite checkAcc_clean by (eapply Hacc; exact E1).
  assert (Hrest :
    hoare (fun w2 => time (dat w2) = time (dat w))
      (when (mjENABLED m mjENBL_FWDINV) (call C mj_compareFwdInv m);;
       (if integrator (opt m) =? mjINT_EULER then mj_Euler C m
        else if integrator (opt m) =? mjINT_RK4 then mj_RungeKutta C m 4
        else if integrator (opt m) =? mjINT_IMPLICIT then mj_implicit C m
        else mju_error "Invalid integrator"))
      (fun _ w' => time (dat w') = Num.add (time (dat w)) (timestep (opt m)))).
  { eapply hoare_bind; [keeps_clock | intro].
    destruct Hint as [E|[E|E]]; rewrite E; cbn.
    - apply Euler_advances.
    - now apply RungeKutta_advances.
    - apply implicit_advances. }
  destruct (Hrest {| dat := dat w1; trace := trace w1 ++ [Enter CheckAcc] |} Ht1)
    as ([] & w' & E' & Ht').
  exists w'. split; [exact E' | exact Ht'].
Qed.

End Step.

Lemma step_advances_time_witness :
  (exists w',
      mj_step Demo.collab (Demo.slider mjINT_EULER mjSOL_NEWTON Num.zero (Num.of_Z (-1)) (Num.of_Z 1))
              (start Demo.rest) = Done tt w' /\
      time (dat w') = Num.add (time Demo.rest) Demo.centi) /\
  (exists w',
      mj_step Demo.collab (Demo.slider mjINT_RK4 mjSOL_NEWTON Num.zero (Num.of_Z (-1)) (Num.of_Z 1))
              (start Demo.rest) = Done tt w' /\
      time (dat w') = Num.add (time Demo.rest) Demo.centi) /\
  (exists w',
      mj_step Demo.collab (Demo.slider mjINT_IMPLICIT mjSOL_NEWTON Num.zero (Num.of_Z (-1)) (Num.of_Z 1))
              (start Demo.rest) = Done tt w' /\
      time (dat w') = Num.add (time Demo.rest) Demo.centi).
Proof.
  assert (Hframe : time_frame Demo.collab).
  { repeat split; intros; try reflexivity; try discriminate.
    destruct p; try reflexivity. contradiction. }
  repeat split.
  - apply (step_advances_time Demo.collab Hframe
             (Demo.slider mjINT_EULER mjSOL_NEWTON Num.zero (Num.of_Z (-1)) (Num.of_Z 1))
             (start Demo.rest)).
    + right. right. reflexivity.
    + left. reflexivity.
    + vm_compute. reflexivity.
    + vm_compute. reflexivity.
    + intros t w1 H.
      replace w1 with (final (@Done unit tt w1)) by reflexivity.
      rewrite <- H. vm_compute. reflexivity.
  - apply (step_advances_time Demo.collab Hframe
             (Demo.slider mjINT_RK4 mjSOL_NEWTON Num.zero (Num.of_Z (-1)) (Num.of_Z 1))
             (start Demo.rest)).
    + right. right. reflexivity.
    + right. left. reflexivity.
    + vm_compute. reflexivity.
    + vm_compute. reflexivity.
    + intros t w1 H.
      replace w1 with (final (@Done unit tt w1)) by reflexivity.
      rewrite <- H. vm_compute. reflexivity.
  - apply (step_advances_time Demo.collab Hframe
             (Demo.slider mjINT_IMPLICIT mjSOL_NEWTON Num.zero (Num.of_Z (-1)) (Num.of_Z 1))
             (start Demo.rest)).
    + right. right. reflexivity.
    + right. right. reflexivity.
    + vm_compute. reflexivity.
    + vm_compute. reflexivity.
    + intros t w1 H.
      replace w1 with (final (@Done unit tt w1)) by reflexivity.
      rewrite <- H. vm_compute. reflexivity.
Defined.

Lemma set_arr_same (a : darray) (v : buf) (d : mjData) : (d.[a := v]).[a] = v.
Proof. simpl. destruct (darray_eq_dec a a); [reflexivity | contradiction]. Qed.

Lemma set_arr_other (a b : darray) (v : buf) (d : mjData) :
  b <> a -> (d.[a := v]).[b] = d.[b].
Proof. intros H. simpl. destruct (darray_eq_dec b a); [contradiction | reflexivity]. Qed.

Lemma set_time_arr (t : mjtNum) (d : mjData) (a : darray) : (set_time t d).[a] = d.[a].
Proof. reflexivity. Qed.

Lemma set_solver_iter_arr (k : Z) (d : mjData) (a : darray) :
  (set_solver_iter k d).[a] = d.[a].
Proof. reflexivity. Qed.

Lemma set_warning_arr (k : mjtWarning) (s : mjWarningStat) (d : mjData) (a : darray) :
  (set_warning k s d).[a] = d.[a].
Proof. reflexivity. Qed.

(** Reads of an array after writes: each read meets either the write of the
    same array or passes a write of another one. *)
Ltac arr_norm :=
  repeat first
    [ rewrite set_time_arr
    | rewrite set_solver_iter_arr
    | rewrite set_warning_arr
    | match goal with
      | |- context [(?d.[?a := ?v]).[?a]] => rewrite (set_arr_same a v d)
      | |- context [(?d.[?a := ?v]).[?b]] =>
          rewrite (set_arr_other a b v d) by discriminate
      end ].

(** The same for a goal [big.[a] i = _], looking at the outermost write only. *)
Ltac read_head :=
  repeat match goal with
         | |- ?lhs = _ =>
             lazymatch lhs with
             | (set_time ?t ?d).[?a] ?i => change lhs with (d.[a] i)
             | (set_solver_iter ?k ?d).[?a] ?i => change lhs with (d.[a] i)
             | (?d.[?a := ?v]).[?b] ?i =>
                 tryif constr_eq a b then change lhs with (v i)
                 else change lhs with (d.[b] i)
             end
         end.

Lemma same_but_set (a : darray) (v : buf) (d : mjData) : same_but a d d.[a := v].
Proof. split; [intros b Hb; now apply set_arr_other | now repeat split]. Qed.

Lemma same_but_trans (a : darray) (d1 d2 d3 : mjData) :
  same_but a d1 d2 -> same_but a d2 d3 -> same_but a d1 d3.
Proof.
  intros (Ha & ? & ? & ? & ? & ?) (Hb & ? & ? & ? & ? & ?).
  split; [intros b Hne; rewrite Hb, Ha by exact Hne; reflexivity|].
  repeat split; congruence.
Qed.

(** C2: when [mj_fwdConstraint] is entered with [nefc == 0], it returns
    with qacc and qacc_warmstart equal to qacc_smooth and qfrc_constraint
    zero on each of the nv degrees of freedom, with solver_iter zero, and the
    trace grows by the entry of [mj_fwdConstraint] alone: neither [warmstart]
    nor a solver is called. *)
Theorem fwdConstraint_no_constraint (C : Collab) (m : mjModel) (w : world) (i : Z) :
  nefc (dat w) = 0 ->
  0 <= i < nv m ->
  exists w',
    mj_fwdConstraint C m w = Done tt w' /\
    trace w' = trace w ++ [Enter FwdConstraint] /\
    (dat w').[qacc] i = (dat w).[qacc_smooth] i /\
    (dat w').[qacc_warmstart] i = (dat w).[qacc_smooth] i /\
    (dat w').[qfrc_constraint] i = Num.zero /\
    solver_iter (dat w') = 0.
Proof.
  intros Hnefc Hi.
  unfold mj_fwdConstraint, bind, enter, log, get. cbn [dat trace].
  rewrite Hnefc. change (negb (truthy 0)) with true. cbv iota.
  eexists. split; [reflexivity|]. cbn.
  unfold mju_copy, mju_zero. rewrite (inb_true (nv m) i Hi).
  repeat split; reflexivity.
Qed.

Lemma fwdConstraint_no_constraint_witness :
  exists w',
    mj_fwdConstraint Demo.collab Demo.model (start Demo.rest) = Done tt w' /\
    trace w' = [Enter FwdConstraint] /\
    (dat w').[qacc] 0 = Demo.rest.[qacc_smooth] 0 /\
    (dat w').[qacc_warmstart] 0 = Demo.rest.[qacc_smooth] 0 /\
    (dat w').[qfrc_constraint] 0 = Num.zero /\
    solver_iter (dat w') = 0.
Proof.
  apply (fwdConstraint_no_constraint Demo.collab Demo.model (start Demo.rest) 0).
  - reflexivity.
  - simpl. lia.
Defined.

(** C3: [mj_fwdAcceleration] returns with qfrc_smooth equal to what
    [mj_xfrcAccumulate] makes of the sum s, where on each degree of freedom
    s is qfrc_passive - qfrc_bias + qfrc_applied + qfrc_actuator, added in
    that order, and with qacc_smooth equal to what [mj_solveM] gives for that
    qfrc_smooth.  The data the two collaborators receive is the data at
    entry with qfrc_smooth updated so far. *)
Theorem fwdAcceleration_sum (C : Collab) (m : mjModel) (w : world) (i : Z) :
  0 <= i < nv m ->
  exists (s : buf) (d1 d2 : mjData) (w' : world),
    mj_fwdAcceleration C m w = Done tt w' /\
    s i = Num.add (Num.add (Num.sub ((dat w).[qfrc_passive] i) ((dat w).[qfrc_bias] i))
                           ((dat w).[qfrc_applied] i))
                  ((dat w).[qfrc_actuator] i) /\
    same_but qfrc_smooth (dat w) d1 /\ d1.[qfrc_smooth] = s /\
    (dat w').[qfrc_smooth] = mj_xfrcAccumulate C m d1 s /\
    same_but qfrc_smooth (dat w) d2 /\ d2.[qfrc_smooth] = (dat w').[qfrc_smooth] /\
    (dat w').[qacc_smooth] = mj_solveM C m d2 (dat w).[qacc_smooth] (dat w').[qfrc_smooth] 1.
Proof.
  intros Hi.
  unfold mj_fwdAcceleration, bind, enter, log, modify. cbn [dat trace].
  set (d := dat w).
  set (dA := d.[qfrc_smooth := mju_sub d.[qfrc_smooth] d.[qfrc_passive] d.[qfrc_bias] (nv m)]).
  set (dB := dA.[qfrc_smooth := mju_addTo dA.[qfrc_smooth] dA.[qfrc_applied] (nv m)]).
  set (dC := dB.[qfrc_smooth := mju_addTo dB.[qfrc_smooth] dB.[qfrc_actuator] (nv m)]).
  set (dD := dC.[qfrc_smooth := mj_xfrcAccumulate C m dC dC.[qfrc_smooth]]).
  exists dC.[qfrc_smooth], dC, dD. eexists. split; [reflexivity|].
  assert (HC : same_but qfrc_smooth d dC).
  { eapply same_but_trans; [|apply same_but_set].
    eapply same_but_trans; [|apply same_but_set]. apply same_but_set. }
  assert (HD : same_but qfrc_smooth d dD).
  { eapply same_but_trans; [exact HC | apply same_but_set]. }
  repeat split; try (apply HC || apply HD); try reflexivity.
  cbn. unfold mju_addTo, mju_sub. rewrite (inb_true (nv m) i Hi). reflexivity.
Qed.

Lemma fwdAcceleration_sum_witness :
  exists (s : buf) (d1 d2 : mjData) (w' : world),
    mj_fwdAcceleration Demo.collab Demo.model (start Demo.rest) = Done tt w' /\
    s 0 = Num.add (Num.add (Num.sub (Demo.rest.[qfrc_passive] 0) (Demo.rest.[qfrc_bias] 0))
                           (Demo.rest.[qfrc_applied] 0))
                  (Demo.rest.[qfrc_actuator] 0) /\
    same_but qfrc_smooth Demo.rest d1 /\ d1.[qfrc_smooth] = s /\
    (dat w').[qfrc_smooth] = mj_xfrcAccumulate Demo.collab Demo.model d1 s /\
    same_but qfrc_smooth Demo.rest d2 /\ d2.[qfrc_smooth] = (dat w').[qfrc_smooth] /\
    (dat w').[qacc_smooth] =
      mj_solveM Demo.collab Demo.model d2 Demo.rest.[qacc_smooth] (dat w').[qfrc_smooth] 1.
Proof.
  apply (fwdAcceleration_sum Demo.collab Demo.model (start Demo.rest) 0).
  simpl. lia.
Defined.

(** *** The costs that [warmstart] compares *)

(** The loop [for (i = lo; i < lo + k; i++)] is the fold over its indices. *)
Lemma for_up_fold {S : Type} (body : Z -> S -> S) :
  forall (k : nat) (i : Z) (s : S),
    for_up k i body s =
      fold_left (fun c j => body j c) (map (fun j => i + Z.of_nat j) (seq 0 k)) s.
Proof.
  induction k as [|k IH]; intros i s; [reflexivity|].
  cbn [for_up]. rewrite IH. cbn [seq map fold_left].
  replace (i + Z.of_nat 0) with i by lia.
  rewrite <- seq_shift, map_map. f_equal.
  apply map_ext. intros j. lia.
Qed.

(** The Gauss loop of the driver (lines 371-373) computes the cost plus the
    Gauss term of the specification. *)
Lemma add_Gauss_spec (C : Collab) (m : mjModel) (d : mjData) (cost : mjtNum) :
  add_Gauss C m d cost =
    spec_Gauss (mj_mulM C m d scratch d.[qacc_warmstart]) d.[qfrc_smooth]
               d.[qacc_warmstart] d.[qacc_smooth] (nv m) cost.
Proof.
  unfold add_Gauss, spec_Gauss, indices, for_loop.
  rewrite for_up_fold. rewrite Z.sub_0_r. reflexivity.
Qed.

(** The residual that the driver passes to the constraint update (lines
    338-339) is J*qacc_warmstart - efc_aref on the constraints. *)
Lemma jar_warmstart_spec (C : Collab) (m : mjModel) (d : mjData) (n : Z) :
  jar_warmstart C m d n =
    spec_residual (mj_mulJacVec C m d scratch d.[qacc_warmstart]) d.[efc_aref] n.
Proof. reflexivity. Qed.

(** The cost that the driver computes for PGS (lines 348-357) is
    f.b + (1/2) f.(A_R f) for the forces f that the constraint update left. *)
Lemma PGS_cost_spec (C : Collab) (m : mjModel) (d : mjData) (n : Z) :
  PGS_cost C m d n =
    spec_force_cost C d.[efc_force] d.[efc_b]
      (if mj_isSparse C m then
         mju_mulMatVecSparse C scratch d.[efc_AR] d.[efc_force] n
           (iarr d efc_AR_rownnz) (iarr d efc_AR_rowadr) (iarr d efc_AR_colind)
       else mju_mulMatVec C scratch d.[efc_AR] d.[efc_force] n n)
      n.
Proof. reflexivity. Qed.

(** C5: with warmstarting enabled and the CG or the Newton solver,
    [warmstart] returns with qacc equal to qacc_smooth on each degree of
    freedom when the cost of the warmstart is strictly greater than the cost
    of the smooth acceleration, and with qacc equal to qacc_warmstart
    otherwise.  The cost of the warmstart is the cost that
    [mj_constraintUpdate] gives for the residual J*qacc_warmstart - efc_aref,
    plus the Gauss term (1/2) (M*qacc_warmstart - qfrc_smooth)^T
    (qacc_warmstart - qacc_smooth); the cost of the smooth acceleration is
    the cost that [mj_constraintUpdate] gives for efc_b.
    [mj_constraintUpdate] is taken to leave the three acceleration arrays as
    they are. *)
Theorem warmstart_best_of_two (C : Collab) (m : mjModel) (w : world) (i : Z) :
  mjDISABLED m mjDSBL_WARMSTART = false ->
  solver (opt m) = mjSOL_CG \/ solver (opt m) = mjSOL_NEWTON ->
  update_keeps C qacc -> update_keeps C qacc_warmstart -> update_keeps C qacc_smooth ->
  0 <= i < nv m ->
  let d := dat w in
  (* the data that the collaborators receive: qacc is qacc_warmstart *)
  let d0 := d.[qacc := mju_copy d.[qacc] d.[qacc_warmstart] (nv m)] in
  let jar :=
    spec_residual (mj_mulJacVec C m d0 scratch d.[qacc_warmstart]) d.[efc_aref] (nefc d) in
  let u1 := constraintUpdate C m d0 jar 0 in
  let d1 := fst u1 in
  let cost_warmstart :=
    spec_Gauss (mj_mulM C m d1 scratch d.[qacc_warmstart]) d1.[qfrc_smooth]
               d.[qacc_warmstart] d.[qacc_smooth] (nv m) (snd u1) in
  let cost_smooth := snd (constraintUpdate C m d1 d1.[efc_b] 0) in
  exists w',
    warmstart C m w = Done tt w' /\
    (dat w').[qacc] i =
      (if Num.gt cost_warmstart cost_smooth then d.[qacc_smooth] i
       else d.[qacc_warmstart] i).
Proof.
  intros Hws Hsol Kacc Kws Ksm Hi d d0 jar u1 d1 cost_warmstart cost_smooth.
  assert (Hpgs : (solver (opt m) =? mjSOL_PGS) = false)
    by (destruct Hsol as [E|E]; rewrite E; reflexivity).
  assert (Hjar : jar_warmstart C m d0 (nefc d) = jar) by apply jar_warmstart_spec.
  assert (Hcost : add_Gauss C m d1 (snd u1) = cost_warmstart).
  { rewrite add_Gauss_spec. unfold cost_warmstart, d1, u1.
    rewrite Kws, Ksm. reflexivity. }
  unfold warmstart. rewrite Hws, Hpgs. cbn [negb].
  cbv [bind enter log get modify call_constraintUpdate when ret].
  cbn [dat trace].
  fold d. fold d0. rewrite Hjar. fold u1. fold d1. rewrite Hcost. fold cost_smooth.
  destruct (Num.gt cost_warmstart cost_smooth).
  - eexists. split; [reflexivity|]. cbn [dat].
    rewrite set_arr_same. unfold mju_copy. rewrite (inb_true _ _ Hi).
    rewrite Ksm. unfold d1, u1. rewrite Ksm. reflexivity.
  - eexists. split; [reflexivity|]. cbn [dat].
    rewrite Kacc. unfold d1, u1. rewrite Kacc.
    unfold d0. rewrite set_arr_same. unfold mju_copy. now rewrite (inb_true _ _ Hi).
Qed.

(** C9: with warmstarting enabled and the PGS solver, [warmstart] returns
    with qacc equal to qacc_warmstart on each degree of freedom, whatever the
    cost is, and never with qacc_smooth in its place.  When the cost of the
    forces f that the constraint update left, f.efc_b + (1/2) f.(A_R f), is
    strictly positive, the data at return is the data after the constraint
    update with efc_force zeroed on the constraints and qfrc_constraint
    zeroed on the degrees of freedom, and nothing else changed; otherwise it
    is the data after the constraint update.  [mj_constraintUpdate] is taken
    to leave qacc as it is. *)
Theorem warmstart_PGS_keeps_qacc (C : Collab) (m : mjModel) (w : world) (i : Z) :
  mjDISABLED m mjDSBL_WARMSTART = false ->
  solver (opt m) = mjSOL_PGS ->
  update_keeps C qacc ->
  0 <= i < nv m ->
  let d := dat w in
  let n := nefc d in
  (* the data that the collaborators receive: qacc is qacc_warmstart *)
  let d0 := d.[qacc := mju_copy d.[qacc] d.[qacc_warmstart] (nv m)] in
  let jar :=
    spec_residual (mj_mulJacVec C m d0 scratch d.[qacc_warmstart]) d.[efc_aref] n in
  let d1 := fst (constraintUpdate C m d0 jar 0) in
  let f := d1.[efc_force] in
  let ARf :=
    if mj_isSparse C m then
      mju_mulMatVecSparse C scratch d1.[efc_AR] f n
        (iarr d1 efc_AR_rownnz) (iarr d1 efc_AR_rowadr) (iarr d1 efc_AR_colind)
    else mju_mulMatVec C scratch d1.[efc_AR] f n n in
  let cost := spec_force_cost C f d1.[efc_b] ARf n in
  exists w',
    warmstart C m w = Done tt w' /\
    (dat w').[qacc] i = d.[qacc_warmstart] i /\
    (Num.gt cost (Num.of_Z 0) = true ->
     (forall k, 0 <= k < n -> (dat w').[efc_force] k = Num.zero) /\
     (forall j, 0 <= j < nv m -> (dat w').[qfrc_constraint] j = Num.zero) /\
     (forall a, a <> efc_force -> a <> qfrc_constraint -> (dat w').[a] = d1.[a])) /\
    dat w' =
      (if Num.gt cost (Num.of_Z 0) then
         (d1.[efc_force := mju_zero f n])
           .[qfrc_constraint := mju_zero d1.[qfrc_constraint] (nv m)]
       else d1).
Proof.
  intros Hws Hsol Kacc Hi d n d0 jar d1 f ARf cost.
  assert (Hjar : jar_warmstart C m d0 n = jar) by apply jar_warmstart_spec.
  assert (Hcost : PGS_cost C m d1 n = cost) by apply PGS_cost_spec.
  unfold warmstart. rewrite Hws, Hsol. cbn [negb].
  change (mjSOL_PGS =? mjSOL_PGS) with true. cbv iota.
  cbv [bind enter log get modify call_constraintUpdate when ret].
  cbn [dat trace].
  fold d. fold n. fold d0. rewrite Hjar. fold d1. rewrite Hcost.
  assert (Hq : d1.[qacc] i = d.[qacc_warmstart] i).
  { unfold d1. rewrite Kacc. unfold d0. rewrite set_arr_same.
    unfold mju_copy. now rewrite (inb_true _ _ Hi). }
  destruct (Num.gt cost (Num.of_Z 0)).
  - eexists. split; [reflexivity|]. cbn [dat].
    split; [rewrite !set_arr_other by discriminate; exact Hq|].
    split; [|now rewrite (set_arr_other efc_force qfrc_constraint) by discriminate].
    intros _. split; [|split].
    + intros k Hk. rewrite set_arr_other by discriminate. rewrite set_arr_same.
      unfold mju_zero. now rewrite (inb_true _ _ Hk).
    + intros j Hj. rewrite set_arr_same. unfold mju_zero. now rewrite (inb_true _ _ Hj).
    + intros a Ha1 Ha2. now rewrite !set_arr_other by auto.
  - eexists. split; [reflexivity|]. cbn [dat].
    split; [exact Hq|]. split; [discriminate | reflexivity].
Qed.

(** The scan of the controls (lines 166-173).
    When k is the smallest index whose control is bad, the scan records the
    warning mjWARN_BADCTRL with lastinfo k and its counter incremented, and
    sets each of the nu controls to zero.  When no control is bad, the scan
    leaves the data, warnings and controls included, as it was. *)
Lemma check_ctrl_scan (C : Collab) (m : mjModel) (d : mjData) :
  (forall k,
      0 <= k < nu m ->
      mju_isBad C (d.[ctrl] k) = true ->
      (forall i, 0 <= i < k -> mju_isBad C (d.[ctrl] i) = false) ->
      lastinfo (warning (check_ctrl C m d) mjWARN_BADCTRL) = k /\
      number (warning (check_ctrl C m d) mjWARN_BADCTRL) =
        number (warning d mjWARN_BADCTRL) + 1 /\
      (forall j, j <> mjWARN_BADCTRL -> warning (check_ctrl C m d) j = warning d j) /\
      (forall i, 0 <= i < nu m -> (check_ctrl C m d).[ctrl] i = Num.zero)) /\
  ((forall i, 0 <= i < nu m -> mju_isBad C (d.[ctrl] i) = false) ->
   check_ctrl C m d = d).
Proof.
  split.
  - intros k Hk Hbad Hbefore. unfold check_ctrl, first_bad.
    rewrite (first_index_first (nu m) _ k Hk Hbad Hbefore).
    cbn. repeat split.
    + intros j Hj. destruct j; try reflexivity. contradiction.
    + intros i Hi. destruct (darray_eq_dec ctrl ctrl); [|contradiction].
      unfold mju_zero. now rewrite (inb_true _ _ Hi).
  - intros Hok. unfold check_ctrl, first_bad.
    now rewrite (first_index_all_false (nu m) _ Hok).
Qed.

(** *** Comparisons of binary64 numbers *)

Lemma SFcompare_antisym (x y : spec_float) (c : comparison) :
  SFcompare x y = Some c -> SFcompare y x = Some (CompOpp c).
Proof.
  destruct x as [sx|sx| |sx mx ex], y as [sy|sy| |sy my ey]; cbn;
    try discriminate;
    try (destruct sx); try (destruct sy);
    intros H; injection H as <-; try reflexivity;
    assert (HP : Pos.compare_cont Eq my mx = CompOpp (Pos.compare_cont Eq mx my))
      by (rewrite Pos.compare_cont_antisym; reflexivity);
    rewrite (Z.compare_antisym ex ey), HP;
    destruct (ex ?= ey); cbn; try reflexivity;
    destruct (Pos.compare_cont Eq mx my); reflexivity.
Qed.

Lemma SFcompare_some (x y : spec_float) :
  Num.is_nan x = false -> Num.is_nan y = false -> exists c, SFcompare x y = Some c.
Proof.
  destruct x, y; cbn; try discriminate; intros _ _; eexists; reflexivity.
Qed.

Lemma le_not_nan (x y : mjtNum) :
  Num.le x y = true -> Num.is_nan x = false /\ Num.is_nan y = false.
Proof. destruct x, y; cbn; try discriminate; auto. Qed.

Lemma lt_not_nan (x y : mjtNum) :
  Num.lt x y = true -> Num.is_nan x = false /\ Num.is_nan y = false.
Proof. destruct x, y; cbn; try discriminate; auto. Qed.

Lemma le_refl (x : mjtNum) : Num.is_nan x = false -> Num.le x x = true.
Proof.
  intros Hx. destruct (SFcompare_some x x Hx Hx) as (c & E).
  pose proof (SFcompare_antisym x x c E) as E'. rewrite E in E'.
  unfold Num.le, SFleb. rewrite E.
  destruct c; try reflexivity; discriminate.
Qed.

Lemma not_lt_le (x y : mjtNum) :
  Num.is_nan x = false -> Num.is_nan y = false ->
  Num.lt x y = false -> Num.le y x = true.
Proof.
  intros Hx Hy. destruct (SFcompare_some x y Hx Hy) as (c & E).
  unfold Num.lt, Num.le, SFltb, SFleb.
  rewrite E, (SFcompare_antisym x y c E).
  destruct c; cbn; congruence.
Qed.

(** The clamp of the source gives a number of the range as soon as the
    range is one (its lower end is not above its upper end) and the result
    is a number. *)
Lemma clamp_within (x lo hi : mjtNum) :
  Num.le lo hi = true ->
  Num.is_nan (clamp x lo hi) = false ->
  Num.within lo hi (clamp x lo hi).
Proof.
  intros Hr. destruct (le_not_nan lo hi Hr) as (Hlo & Hhi).
  unfold clamp, Num.within.
  destruct (Num.lt x lo) eqn:E1.
  - intros _. split; [now apply le_refl | exact Hr].
  - unfold Num.gt. destruct (SFltb hi x) eqn:E2.
    + intros _. split; [exact Hr | now apply le_refl].
    + intros Hx. split; now apply not_lt_le.
Qed.

Lemma clamp_nan (lo hi : mjtNum) : clamp Num.nan lo hi = Num.nan.
Proof. unfold clamp, Num.lt, Num.gt. cbn. now destruct hi. Qed.

(** *** The activation clamp *)


Lemma truthy_pos (z : Z) : 0 < z -> truthy z = true.
Proof. intros H. unfold truthy. destruct (z =? 0) eqn:E; [|reflexivity]. apply Z.eqb_eq in E. lia. Qed.

Lemma truthy_nonzero (z : Z) : z <> 0 -> truthy z = true.
Proof. intros H. unfold truthy. destruct (z =? 0) eqn:E; [|reflexivity]. apply Z.eqb_eq in E. contradiction. Qed.





Lemma clamp_act_loop_other (m : mjModel) (lo hi : Z) (d : mjData) (a : darray) :
  a <> act -> (for_loop lo hi (clamp_act_body m) d).[a] = d.[a].
Proof.
  intros Ha. apply (for_loop_keeps (fun t => t.[a] = d.[a])); [reflexivity|].
  intros j t Ht. unfold clamp_act_body.
  destruct (truthy (actuator_actlimited m (j + nu m - na m))); [|exact Ht].
  now rewrite set_arr_other.
Qed.

(** The end of [mj_Euler]: the activations, the positions and the clock. *)
Lemma Euler_tail_keeps (C : Collab) (m : mjModel) (a : darray) (i : Z) :
  a <> act -> a <> qpos ->
  steady (keeps a i)
    (when (truthy (na m))
       (modify (fun d => d.[act := mju_addToScl d.[act] d.[act_dot] (timestep (opt m)) (na m)]);;
        modify (for_loop 0 (na m) (clamp_act_body m)));;
     modify (fun d => d.[qpos := mj_integratePos C m d.[qpos] d.[qvel] (timestep (opt m))]);;
     modify (fun d => set_time (Num.add (time d) (timestep (opt m))) d)).
Proof.
  intros Ha Hq.
  steady_with ltac:(idtac; apply keeps_modify; intro d;
    first [ reflexivity
          | now rewrite set_arr_other
          | now rewrite clamp_act_loop_other ]).
Qed.

(** The damping path of [mj_Euler] gives back the mass matrix and its
    factorization. *)
Lemma Euler_damping_keeps (C : Collab) (m : mjModel) (a : darray) (i : Z) :
  (a = qM \/ a = qLD) /\ 0 <= i < nM m \/
  (a = qLDiagInv \/ a = qLDiagSqrtInv) /\ 0 <= i < nv m ->
  steady (keeps a i)
    (d0 <- get ;;
     modify (fun d => d.[qM := add_damping m d.[qM]]) ;;
     call C mj_factorM m ;;
     d <- get ;;
     modify (fun d1 =>
       d1.[qvel := mju_addToScl d1.[qvel]
                     (mj_solveM C m d scratch
                        (mju_add scratch d.[qfrc_smooth] d.[qfrc_constraint] (nv m)) 1)
                     (timestep (opt m)) (nv m)]) ;;
     modify (fun d => d.[qM := mju_copy d.[qM] (mju_copy scratch d0.[qM] (nM m)) (nM m)]) ;;
     modify (fun d => d.[qLD := mju_copy d.[qLD] (mju_copy scratch d0.[qLD] (nM m)) (nM m)]) ;;
     modify (fun d =>
       d.[qLDiagInv := mju_copy d.[qLDiagInv] (mju_copy scratch d0.[qLDiagInv] (nv m)) (nv m)]) ;;
     modify (fun d =>
       d.[qLDiagSqrtInv :=
            mju_copy d.[qLDiagSqrtInv] (mju_copy scratch d0.[qLDiagSqrtInv] (nv m)) (nv m)])).
Proof.
  intros H w. unfold keeps.
  cbv [bind enter log get modify call ret]. cbn [dat trace final].
  destruct H as [[[-> | ->] Hi] | [[-> | ->] Hi]];
    read_head; unfold mju_copy; rewrite (inb_true _ _ Hi); reflexivity.
Qed.

Lemma Euler_keeps (C : Collab) (m : mjModel) (a : darray) (i : Z) :
  (a = qM \/ a = qLD) /\ 0 <= i < nM m \/
  (a = qLDiagInv \/ a = qLDiagSqrtInv) /\ 0 <= i < nv m ->
  steady (keeps a i) (mj_Euler C m).
Proof.
  intros H.
  assert (Ha : a <> act /\ a <> qpos /\ a <> qvel)
    by (destruct H as [[[-> | ->] _] | [[-> | ->] _]]; repeat split; discriminate).
  destruct Ha as (Ha & Hq & Hv).
  unfold mj_Euler.
  apply steady_bind; [exact _ | apply keeps_log | intro].
  apply steady_bind; [exact _ | | intro; now apply Euler_tail_keeps].
  destruct (first_index (nv m) (fun i0 => Num.gt (dof_damping m i0) (Num.of_Z 0))).
  - now apply Euler_damping_keeps.
  - apply keeps_modify. intro d. now rewrite set_arr_other.
Qed.

Lemma Euler_factors (C : Collab) (m : mjModel) :
  emits (Call mj_factorM)
        (has_damping m) (mj_Euler C m).
Proof.
  unfold mj_Euler, has_damping.
  apply (emits_bind _ false); [apply total_log | quiet | intro].
  destruct (first_index (nv m) (fun k => Num.gt (dof_damping m k) (Num.of_Z 0))).
  - apply (emits_bind _ true false); [| | intro; quiet].
    + total_with ltac:(idtac; apply call_total).
    + apply (emits_bind _ false true); [apply total_get | quiet | intro].
      apply (emits_bind _ false true); [apply total_modify | quiet | intro].
      apply (emits_bind _ true false); [apply call_total | apply call_emits | intro; quiet].
  - apply (emits_bind _ false false); [apply total_modify | quiet | intro; quiet].
Qed.

(** C7: [mj_Euler] returns with qM and qLD, on each of their nM entries,
    and qLDiagInv and qLDiagSqrtInv, on each of their nv entries, equal to
    what they were at entry, on both paths.  [mj_factorM] is called, to
    refactor the mass matrix with h*dof_damping added on its diagonal,
    exactly when some dof_damping entry is positive; the four arrays are
    then restored from the saved copies. *)
Theorem Euler_restores_M (C : Collab) (m : mjModel) (w : world) (i j : Z) :
  0 <= i < nM m ->
  0 <= j < nv m ->
  exists w',
    mj_Euler C m w = Done tt w' /\
    (dat w').[qM] i = (dat w).[qM] i /\
    (dat w').[qLD] i = (dat w).[qLD] i /\
    (dat w').[qLDiagInv] j = (dat w).[qLDiagInv] j /\
    (dat w').[qLDiagSqrtInv] j = (dat w).[qLDiagSqrtInv] j /\
    occurs (Call mj_factorM) (trace w') =
      occurs (Call mj_factorM) (trace w) || has_damping m.
Proof.
  intros Hi Hj.
  destruct (Euler_total C m w) as ([] & w' & E). exists w'.
  assert (K : forall a k,
             (a = qM \/ a = qLD) /\ 0 <= k < nM m \/
             (a = qLDiagInv \/ a = qLDiagSqrtInv) /\ 0 <= k < nv m ->
             (dat w').[a] k = (dat w).[a] k).
  { intros a k H. pose proof (Euler_keeps C m a k H w) as R.
    rewrite E in R. exact R. }
  pose proof (Euler_factors C m w) as T. rewrite E in T.
  split; [exact E|]. repeat split; try exact T; apply K; auto.
Qed.

Lemma warmstart_best_of_two_witness :
  let m := Demo.slider mjINT_EULER mjSOL_CG Num.zero (Num.of_Z (-1)) (Num.of_Z 1) in
  (* residual cost 4.5, Gauss term 3, smooth cost 6.125 *)
  (exists w',
      warmstart Demo.collab m
        (start (Demo.warm (Num.of_Z 3) Num.one Demo.three_and_a_half)) = Done tt w' /\
      (dat w').[qacc] 0 = Num.one) /\
  (* residual cost 4.5, Gauss term 3, smooth cost 50 *)
  (exists w',
      warmstart Demo.collab m
        (start (Demo.warm (Num.of_Z 3) Num.one (Num.of_Z 10))) = Done tt w' /\
      (dat w').[qacc] 0 = Num.of_Z 3).
Proof.
  intros m. split.
  - destruct (warmstart_best_of_two Demo.collab m
                (start (Demo.warm (Num.of_Z 3) Num.one Demo.three_and_a_half)) 0)
      as (w' & E & H).
    + reflexivity.
    + left. reflexivity.
    + intros ? ? ? ?. reflexivity.
    + intros ? ? ? ?. reflexivity.
    + intros ? ? ? ?. reflexivity.
    + simpl. lia.
    + exists w'. split; [exact E|]. rewrite H. vm_compute. reflexivity.
  - destruct (warmstart_best_of_two Demo.collab m
                (start (Demo.warm (Num.of_Z 3) Num.one (Num.of_Z 10))) 0)
      as (w' & E & H).
    + reflexivity.
    + left. reflexivity.
    + intros ? ? ? ?. reflexivity.
    + intros ? ? ? ?. reflexivity.
    + intros ? ? ? ?. reflexivity.
    + simpl. lia.
    + exists w'. split; [exact E|]. rewrite H. vm_compute. reflexivity.
Defined.

Lemma warmstart_PGS_keeps_qacc_witness :
  let m := Demo.slider mjINT_EULER mjSOL_PGS Num.zero (Num.of_Z (-1)) (Num.of_Z 1) in
  (* forces 3, bias 0: cost 4.5 *)
  (exists w',
      warmstart Demo.collab m
        (start (Demo.warm (Num.of_Z 3) Num.one Num.zero)) = Done tt w' /\
      (dat w').[qacc] 0 = Num.of_Z 3 /\
      (dat w').[efc_force] 0 = Num.zero /\
      (dat w').[qfrc_constraint] 0 = Num.zero) /\
  (* forces 3, bias -10: cost -25.5 *)
  (exists w',
      warmstart Demo.collab m
        (start (Demo.warm (Num.of_Z 3) Num.one (Num.of_Z (-10)))) = Done tt w' /\
      (dat w').[qacc] 0 = Num.of_Z 3 /\
      (dat w').[efc_force] 0 = Num.of_Z 3).
Proof.
  intros m. split.
  - destruct (warmstart_PGS_keeps_qacc Demo.collab m
                (start (Demo.warm (Num.of_Z 3) Num.one Num.zero)) 0)
      as (w' & E & Hq & Hz & _).
    + reflexivity.
    + reflexivity.
    + intros ? ? ? ?. reflexivity.
    + simpl. lia.
    + destruct Hz as (Hf & Hc & _); [vm_compute; reflexivity|].
      exists w'. split; [exact E|]. split; [exact Hq|].
      split; [apply Hf | apply Hc]; simpl; lia.
  - destruct (warmstart_PGS_keeps_qacc Demo.collab m
                (start (Demo.warm (Num.of_Z 3) Num.one (Num.of_Z (-10)))) 0)
      as (w' & E & Hq & _ & Hd).
    + reflexivity.
    + reflexivity.
    + intros ? ? ? ?. reflexivity.
    + simpl. lia.
    + exists w'. split; [exact E|]. split; [exact Hq|].
      rewrite Hd. vm_compute. reflexivity.
Defined.

Lemma Euler_restores_M_witness :
  let m := Demo.slider mjINT_EULER mjSOL_NEWTON Num.one (Num.of_Z (-1)) (Num.of_Z 1) in
  exists w',
    mj_Euler Demo.collab m (start Demo.rest) = Done tt w' /\
    (dat w').[qM] 0 = Demo.rest.[qM] 0 /\
    (dat w').[qLD] 0 = Demo.rest.[qLD] 0 /\
    (dat w').[qLDiagInv] 0 = Demo.rest.[qLDiagInv] 0 /\
    (dat w').[qLDiagSqrtInv] 0 = Demo.rest.[qLDiagSqrtInv] 0 /\
    occurs (Call mj_factorM) (trace w') = true.
Proof.
  intros m.
  apply (Euler_restores_M Demo.collab m (start Demo.rest) 0 0); simpl; lia.
Defined.

(** ** Further properties of the driver *)

(** *** Actuation *)

(** A loop whose pass [k] rewrites entry [k] of the array [a] from its own
    value, and nothing else of [a]. *)
Lemma for_loop_pointwise (body : Z -> mjData -> mjData) (a : darray)
      (g : Z -> mjtNum -> mjtNum) (n : Z) (d : mjData) (i : Z) :
  (forall k t j, (body k t).[a] j = if j =? k then g k (t.[a] k) else t.[a] j) ->
  0 <= i < n ->
  (for_loop 0 n body d).[a] i = g i (d.[a] i).
Proof.
  intros Hb Hi.
  assert (H : forall j, (0 <= j < n -> (for_loop 0 n body d).[a] j = g j (d.[a] j)) /\
                        (n <= j -> (for_loop 0 n body d).[a] j = d.[a] j)).
  { apply (for_loop_ind
             (fun k t => forall j, (0 <= j < k -> t.[a] j = g j (d.[a] j)) /\
                                   (k <= j -> t.[a] j = d.[a] j))); [lia | |].
    - intros j. split; [lia | reflexivity].
    - intros k t Hk IH j. rewrite Hb. destruct (j =? k) eqn:E.
      + apply Z.eqb_eq in E. subst j. split; [intros _ | lia].
        now rewrite (proj2 (IH k)) by lia.
      + apply Z.eqb_neq in E. split; intros Hj; apply IH; lia. }
  now apply H.
Qed.

Lemma for_loop_frame (body : Z -> mjData -> mjData) (a : darray) (lo hi : Z) (d : mjData) :
  (forall k t, (body k t).[a] = t.[a]) -> (for_loop lo hi body d).[a] = d.[a].
Proof.
  intros Hb. apply (for_loop_keeps (fun t => t.[a] = d.[a])); [reflexivity|].
  intros j t Ht. now rewrite Hb.
Qed.

Lemma for_loop_warning (body : Z -> mjData -> mjData) (lo hi : Z) (d : mjData) :
  (forall k t, warning (body k t) = warning t) ->
  warning (for_loop lo hi body d) = warning d.
Proof.
  intros Hb. apply (for_loop_keeps (fun t => warning t = warning d)); [reflexivity|].
  intros j t Ht. now rewrite Hb.
Qed.

Section Actuation.

Variable C : Collab.
Variable m : mjModel.

Lemma upd_read {A : Type} (p : Z -> A) (k : Z) (v : A) (j : Z) :
  upd p k v j = if j =? k then v else p j.
Proof. reflexivity. Qed.

Lemma force_body_ctrl (k : Z) (t : mjData) (j : Z) :
  (force_body C m k t).[ctrl] j =
    if j =? k then clamped_ctrl m k (t.[ctrl] k) else t.[ctrl] j.
Proof.
  unfold force_body, clamped_ctrl.
  destruct (truthy (actuator_ctrllimited m k) && negb (mjDISABLED m mjDSBL_CLAMPCTRL));
    destruct (actuator_dyntype m k =? mjDYN_NONE);
    arr_norm; rewrite ?upd_read; destruct (j =? k) eqn:E; try reflexivity;
    apply Z.eqb_eq in E; now subst j.
Qed.

Lemma clamp_force_body_force (k : Z) (t : mjData) (j : Z) :
  (clamp_force_body m k t).[actuator_force] j =
    if j =? k then clamped_force m k (t.[actuator_force] k) else t.[actuator_force] j.
Proof.
  unfold clamp_force_body, clamped_force.
  destruct (truthy (actuator_forcelimited m k));
    arr_norm; rewrite ?upd_read; destruct (j =? k) eqn:E; try reflexivity;
    apply Z.eqb_eq in E; now subst j.
Qed.

Lemma clamp_force_body_other (a : darray) (k : Z) (t : mjData) :
  a <> actuator_force -> (clamp_force_body m k t).[a] = t.[a].
Proof.
  intros Ha. unfold clamp_force_body.
  destruct (truthy (actuator_forcelimited m k)); [now rewrite set_arr_other | reflexivity].
Qed.

Lemma act_dot_body_other (a : darray) (k : Z) (t : mjData) :
  a <> act_dot -> (act_dot_body C m k t).[a] = t.[a].
Proof. intros Ha. unfold act_dot_body. now rewrite set_arr_other. Qed.

Lemma force_body_other (a : darray) (k : Z) (t : mjData) :
  a <> ctrl -> a <> actuator_force -> (force_body C m k t).[a] = t.[a].
Proof.
  intros H1 H2. unfold force_body.
  destruct (truthy (actuator_ctrllimited m k) && negb (mjDISABLED m mjDSBL_CLAMPCTRL));
    destruct (actuator_dyntype m k =? mjDYN_NONE);
    now rewrite !set_arr_other.
Qed.

Lemma check_ctrl_other (a : darray) (d : mjData) :
  a <> ctrl -> (check_ctrl C m d).[a] = d.[a].
Proof.
  intros Ha. unfold check_ctrl. destruct (first_bad C d.[ctrl] (nu m)); [|reflexivity].
  now rewrite set_arr_other.
Qed.

Lemma fwdActuation_run (w : world) :
  mj_fwdActuation C m w =
    Done tt {| dat := if (nu m =? 0) || mjDISABLED m mjDSBL_ACTUATION
                      then actuation_cleared C m (dat w)
                      else actuation_forces C m (actuation_cleared C m (dat w));
               trace := trace w ++ [Enter FwdActuation] |}.
Proof.
  unfold mj_fwdActuation, actuation_forces, actuation_cleared.
  destruct (truthy (nu m)); destruct ((nu m =? 0) || mjDISABLED m mjDSBL_ACTUATION);
    reflexivity.
Qed.


Lemma actuation_forces_ctrl (d : mjData) (i : Z) :
  0 <= i < nu m ->
  (actuation_forces C m d).[ctrl] i = clamped_ctrl m i (d.[ctrl] i).
Proof.
  intros Hi. unfold actuation_forces.
  rewrite for_loop_frame by (intros; apply act_dot_body_other; discriminate).
  rewrite set_arr_other by discriminate.
  rewrite for_loop_frame by (intros; apply clamp_force_body_other; discriminate).
  apply for_loop_pointwise; [apply force_body_ctrl | exact Hi].
Qed.

Lemma actuation_forces_force (d : mjData) (i : Z) :
  0 <= i < nu m ->
  exists f, (actuation_forces C m d).[actuator_force] i = clamped_force m i f.
Proof.
  intros Hi. unfold actuation_forces.
  rewrite for_loop_frame by (intros; apply act_dot_body_other; discriminate).
  rewrite set_arr_other by discriminate.
  eexists. apply for_loop_pointwise; [apply clamp_force_body_force | exact Hi].
Qed.

Lemma actuation_forces_other (d : mjData) (a : darray) :
  a <> qfrc_actuator -> a <> actuator_force -> a <> ctrl -> a <> act_dot ->
  (actuation_forces C m d).[a] = d.[a].
Proof.
  intros H1 H2 H3 H4. unfold actuation_forces.
  rewrite for_loop_frame by (intros; now apply act_dot_body_other).
  rewrite set_arr_other by exact H1.
  rewrite for_loop_frame by (intros; now apply clamp_force_body_other).
  apply for_loop_frame. intros. now apply force_body_other.
Qed.

Lemma actuation_forces_warning (d : mjData) :
  warning (actuation_forces C m d) = warning d.
Proof.
  unfold actuation_forces.
  rewrite for_loop_warning by reflexivity. cbn [warning set_arr].
  rewrite for_loop_warning.
  - apply for_loop_warning. intros k t. unfold force_body.
    destruct (truthy (actuator_ctrllimited m k) && negb (mjDISABLED m mjDSBL_CLAMPCTRL));
      destruct (actuator_dyntype m k =? mjDYN_NONE); reflexivity.
  - intros k t. unfold clamp_force_body.
    now destruct (truthy (actuator_forcelimited m k)).
Qed.

Lemma actuation_cleared_ctrl (d : mjData) :
  (actuation_cleared C m d).[ctrl] =
    (check_ctrl C m d).[ctrl] /\
  warning (actuation_cleared C m d) = warning (check_ctrl C m d).
Proof.
  unfold actuation_cleared, check_ctrl, first_bad.
  destruct (truthy (nu m)); arr_norm;
    destruct (first_index (nu m) (fun i => mju_isBad C (d.[ctrl] i)));
    split; reflexivity.
Qed.

End Actuation.

(** C6: the scan of the controls in [mj_fwdActuation] (lines 166-173).
    [mj_fwdActuation] returns, and there is a state d1 of the data, the one
    that the scan leaves, from which the rest of the function computes the
    data at return.  When k is the smallest index whose control is bad, d1
    has the warning mjWARN_BADCTRL with lastinfo k and its counter
    incremented, and each of the nu controls zero.  When no control is bad,
    d1 has the warnings and the controls of the data at entry.  The warnings
    at return are those of d1, and control i at return is control i of d1
    when actuation is disabled, and what the clamp of lines 183-189 makes of
    it otherwise. *)
Theorem fwdActuation_scan (C : Collab) (m : mjModel) (w : world) :
  exists (d1 : mjData) (w' : world),
    mj_fwdActuation C m w = Done tt w' /\
    ((forall k,
         0 <= k < nu m ->
         mju_isBad C ((dat w).[ctrl] k) = true ->
         (forall i, 0 <= i < k -> mju_isBad C ((dat w).[ctrl] i) = false) ->
         lastinfo (warning d1 mjWARN_BADCTRL) = k /\
         number (warning d1 mjWARN_BADCTRL) =
           number (warning (dat w) mjWARN_BADCTRL) + 1 /\
         (forall i, 0 <= i < nu m -> d1.[ctrl] i = Num.zero)) /\
     ((forall i, 0 <= i < nu m -> mju_isBad C ((dat w).[ctrl] i) = false) ->
      warning d1 = warning (dat w) /\ d1.[ctrl] = (dat w).[ctrl])) /\
    dat w' = (if (nu m =? 0) || mjDISABLED m mjDSBL_ACTUATION then d1
              else actuation_forces C m d1) /\
    warning (dat w') = warning d1 /\
    (forall i, 0 <= i < nu m ->
       (dat w').[ctrl] i =
         (if mjDISABLED m mjDSBL_ACTUATION then d1.[ctrl] i
          else clamped_ctrl m i (d1.[ctrl] i))).
Proof.
  exists (actuation_cleared C m (dat w)).
  rewrite fwdActuation_run. eexists. split; [reflexivity|]. cbn [dat].
  destruct (actuation_cleared_ctrl C m (dat w)) as (Hc & Hw).
  split; [split|].
  - intros k Hk Hbad Hbefore.
    destruct (proj1 (check_ctrl_scan C m (dat w)) k Hk Hbad Hbefore) as (H1 & H2 & _ & H4).
    rewrite Hw, Hc. repeat split; assumption.
  - intros Hok. rewrite Hw, Hc.
    rewrite (proj2 (check_ctrl_scan C m (dat w)) Hok). split; reflexivity.
  - split; [reflexivity|]. split.
    + destruct ((nu m =? 0) || mjDISABLED m mjDSBL_ACTUATION);
        [reflexivity | apply actuation_forces_warning].
    + intros i Hi.
      assert (Hnu : (nu m =? 0) = false) by (apply Z.eqb_neq; lia).
      rewrite Hnu. cbn [orb].
      destruct (mjDISABLED m mjDSBL_ACTUATION);
        [reflexivity | now apply actuation_forces_ctrl].
Qed.

Lemma fwdActuation_scan_witness :
  (* a control that is not a number, limited to the range from 2 to 3 *)
  (exists d1 w',
      mj_fwdActuation Demo.collab Demo.offset
        (start (Demo.state Num.nan Num.zero 0)) = Done tt w' /\
      lastinfo (warning d1 mjWARN_BADCTRL) = 0 /\
      number (warning d1 mjWARN_BADCTRL) = 0 + 1 /\
      d1.[ctrl] 0 = Num.zero /\
      warning (dat w') = warning d1 /\
      (dat w').[ctrl] 0 = Num.of_Z 2) /\
  (* the control 1, limited to the range from 2 to 3 *)
  (exists d1 w',
      mj_fwdActuation Demo.collab Demo.offset (start Demo.rest) = Done tt w' /\
      warning d1 = warning Demo.rest /\
      d1.[ctrl] = Demo.rest.[ctrl] /\
      (dat w').[ctrl] 0 = Num.of_Z 2).
Proof.
  split.
  - destruct (fwdActuation_scan Demo.collab Demo.offset
                (start (Demo.state Num.nan Num.zero 0)))
      as (d1 & w' & E & (Hbad & _) & _ & Hw & Hc).
    destruct (Hbad 0) as (H1 & H2 & H3);
      [simpl; lia | reflexivity | intros; lia |].
    exists d1, w'. split; [exact E|]. split; [exact H1|]. split; [exact H2|].
    split; [apply H3; simpl; lia|]. split; [exact Hw|].
    rewrite Hc by (simpl; lia). rewrite H3 by (simpl; lia).
    vm_compute. reflexivity.
  - destruct (fwdActuation_scan Demo.collab Demo.offset (start Demo.rest))
      as (d1 & w' & E & (_ & Hok) & _ & _ & Hc).
    destruct Hok as (H1 & H2).
    { intros i Hi. simpl in Hi. assert (i = 0) as -> by lia. reflexivity. }
    exists d1, w'. split; [exact E|]. split; [exact H1|]. split; [exact H2|].
    rewrite Hc by (simpl; lia). rewrite H2.
    vm_compute. reflexivity.
Defined.

(** X1: when the smallest index with a bad control is k, [mj_fwdActuation]
    returns with the warning mjWARN_BADCTRL recorded (lastinfo k, counter
    incremented).  The controls it leaves are zero when actuation is
    disabled; otherwise control i is what the clamp of a limited control
    makes of zero, which is zero again only when zero is in its range. *)
Theorem fwdActuation_bad_ctrl (C : Collab) (m : mjModel) (w : world) (k i : Z) :
  0 <= k < nu m ->
  mju_isBad C ((dat w).[ctrl] k) = true ->
  (forall j, 0 <= j < k -> mju_isBad C ((dat w).[ctrl] j) = false) ->
  0 <= i < nu m ->
  exists w',
    mj_fwdActuation C m w = Done tt w' /\
    lastinfo (warning (dat w') mjWARN_BADCTRL) = k /\
    number (warning (dat w') mjWARN_BADCTRL) =
      number (warning (dat w) mjWARN_BADCTRL) + 1 /\
    (dat w').[ctrl] i =
      (if mjDISABLED m mjDSBL_ACTUATION then Num.zero
       else clamped_ctrl m i Num.zero).
Proof.
  intros Hk Hbad Hbefore Hi.
  rewrite fwdActuation_run. eexists. split; [reflexivity|]. cbn [dat].
  assert (Hnu : (nu m =? 0) = false) by (apply Z.eqb_neq; lia).
  rewrite Hnu. cbn [orb].
  destruct (actuation_cleared_ctrl C m (dat w)) as (Hc & Hw).
  assert (Hscan : check_ctrl C m (dat w) =
                  (mj_warning (dat w) mjWARN_BADCTRL k)
                    .[ctrl := mju_zero (mj_warning (dat w) mjWARN_BADCTRL k).[ctrl] (nu m)]).
  { unfold check_ctrl, first_bad.
    now rewrite (first_index_first (nu m) _ k Hk Hbad Hbefore). }
  assert (Hz : (actuation_cleared C m (dat w)).[ctrl] i = Num.zero).
  { rewrite Hc, Hscan, set_arr_same. unfold mju_zero. now rewrite (inb_true _ _ Hi). }
  destruct (mjDISABLED m mjDSBL_ACTUATION).
  - rewrite Hw, Hscan. repeat split; [exact Hz].
  - rewrite actuation_forces_warning, Hw, Hscan, actuation_forces_ctrl, Hz by exact Hi.
    repeat split.
Qed.

Lemma fwdActuation_bad_ctrl_witness :
  exists w',
    mj_fwdActuation Demo.collab Demo.model (start (Demo.state Num.nan Num.zero 0)) = Done tt w' /\
    lastinfo (warning (dat w') mjWARN_BADCTRL) = 0 /\
    number (warning (dat w') mjWARN_BADCTRL) = 0 + 1 /\
    (dat w').[ctrl] 0 = Num.zero.
Proof.
  apply (fwdActuation_bad_ctrl Demo.collab Demo.model
           (start (Demo.state Num.nan Num.zero 0)) 0 0).
  - simpl. lia.
  - reflexivity.
  - intros j Hj. lia.
  - simpl. lia.
Defined.

(** X2: with actuation enabled, a limited control whose range is a range
    and whose clamp is not disabled is, when [mj_fwdActuation] returns,
    inside its range, unless it is not a number. *)
Theorem fwdActuation_ctrl_in_range (C : Collab) (m : mjModel) (w : world) (i : Z) :
  0 <= i < nu m ->
  mjDISABLED m mjDSBL_ACTUATION = false ->
  mjDISABLED m mjDSBL_CLAMPCTRL = false ->
  actuator_ctrllimited m i <> 0 ->
  Num.le (actuator_ctrlrange m (2 * i)) (actuator_ctrlrange m (2 * i + 1)) = true ->
  exists w',
    mj_fwdActuation C m w = Done tt w' /\
    (Num.is_nan ((dat w').[ctrl] i) = false ->
     Num.within (actuator_ctrlrange m (2 * i)) (actuator_ctrlrange m (2 * i + 1))
                ((dat w').[ctrl] i)).
Proof.
  intros Hi Hact Hclamp Hlim Hr.
  rewrite fwdActuation_run. eexists. split; [reflexivity|]. cbn [dat].
  assert (Hnu : (nu m =? 0) = false) by (apply Z.eqb_neq; lia).
  rewrite Hnu, Hact. cbn [orb].
  rewrite actuation_forces_ctrl by exact Hi.
  unfold clamped_ctrl. rewrite (truthy_nonzero _ Hlim), Hclamp. cbn [negb andb].
  now apply clamp_within.
Qed.

Lemma fwdActuation_ctrl_in_range_witness :
  exists w',
    mj_fwdActuation Demo.collab (Demo.limited 0)
                    (start (Demo.state (Num.of_Z 3) Num.zero 0)) = Done tt w' /\
    (Num.is_nan ((dat w').[ctrl] 0) = false ->
     Num.within (Num.of_Z (-1)) (Num.of_Z 1) ((dat w').[ctrl] 0)).
Proof.
  apply (fwdActuation_ctrl_in_range Demo.collab (Demo.limited 0)
           (start (Demo.state (Num.of_Z 3) Num.zero 0)) 0).
  - simpl. lia.
  - reflexivity.
  - reflexivity.
  - simpl. lia.
  - reflexivity.
Defined.

(** X3: with actuation enabled, the force of a force-limited actuator
    whose range is a range is, when [mj_fwdActuation] returns, inside its
    range, unless it is not a number. *)
Theorem fwdActuation_force_in_range (C : Collab) (m : mjModel) (w : world) (i : Z) :
  0 <= i < nu m ->
  mjDISABLED m mjDSBL_ACTUATION = false ->
  actuator_forcelimited m i <> 0 ->
  Num.le (actuator_forcerange m (2 * i)) (actuator_forcerange m (2 * i + 1)) = true ->
  exists w',
    mj_fwdActuation C m w = Done tt w' /\
    (Num.is_nan ((dat w').[actuator_force] i) = false ->
     Num.within (actuator_forcerange m (2 * i)) (actuator_forcerange m (2 * i + 1))
                ((dat w').[actuator_force] i)).
Proof.
  intros Hi Hact Hlim Hr.
  rewrite fwdActuation_run. eexists. split; [reflexivity|]. cbn [dat].
  assert (Hnu : (nu m =? 0) = false) by (apply Z.eqb_neq; lia).
  rewrite Hnu, Hact. cbn [orb].
  destruct (actuation_forces_force C m (actuation_cleared C m (dat w)) i Hi) as (f & ->).
  unfold clamped_force. rewrite (truthy_nonzero _ Hlim).
  now apply clamp_within.
Qed.

Lemma fwdActuation_force_in_range_witness :
  exists w',
    mj_fwdActuation Demo.collab (Demo.limited 0)
                    (start (Demo.state (Num.of_Z 3) Num.one 0)) = Done tt w' /\
    (Num.is_nan ((dat w').[actuator_force] 0) = false ->
     Num.within (Num.of_Z (-50)) (Num.of_Z 50) ((dat w').[actuator_force] 0)).
Proof.
  apply (fwdActuation_force_in_range Demo.collab (Demo.limited 0)
           (start (Demo.state (Num.of_Z 3) Num.one 0)) 0).
  - simpl. lia.
  - reflexivity.
  - simpl. lia.
  - reflexivity.
Defined.

(** X4: without actuators, or with actuation disabled, [mj_fwdActuation]
    returns with qfrc_actuator zero on the nv degrees of freedom and
    actuator_force zero on the nu actuators; it does not compute act_dot,
    which stays what it was, as does every array but qfrc_actuator,
    actuator_force and ctrl. *)
Theorem fwdActuation_disabled (C : Collab) (m : mjModel) (w : world) (i j : Z) (a : darray) :
  nu m = 0 \/ mjDISABLED m mjDSBL_ACTUATION = true ->
  0 <= i < nv m ->
  a <> qfrc_actuator -> a <> actuator_force -> a <> ctrl ->
  exists w',
    mj_fwdActuation C m w = Done tt w' /\
    (dat w').[qfrc_actuator] i = Num.zero /\
    (0 <= j < nu m -> (dat w').[actuator_force] j = Num.zero) /\
    (dat w').[act_dot] = (dat w).[act_dot] /\
    (dat w').[a] = (dat w).[a].
Proof.
  intros Hoff Hi Ha1 Ha2 Ha3.
  rewrite fwdActuation_run. eexists. split; [reflexivity|]. cbn [dat].
  assert (E : (nu m =? 0) || mjDISABLED m mjDSBL_ACTUATION = true).
  { destruct Hoff as [H|H]; [rewrite H; reflexivity | rewrite H; apply orb_true_r]. }
  rewrite E. unfold actuation_cleared.
  rewrite !check_ctrl_other by (exact Ha1 || exact Ha2 || exact Ha3 || discriminate).
  destruct (truthy (nu m)) eqn:Enu.
  - arr_norm. repeat split.
    + unfold mju_zero. now rewrite (inb_true _ _ Hi).
    + intros Hj. unfold mju_zero. now rewrite (inb_true _ _ Hj).
    + rewrite set_arr_other by exact Ha2. now rewrite set_arr_other.
  - arr_norm. repeat split.
    + unfold mju_zero. now rewrite (inb_true _ _ Hi).
    + intros Hj. unfold truthy in Enu. destruct (nu m =? 0) eqn:E0; [|discriminate].
      apply Z.eqb_eq in E0. lia.
    + now rewrite set_arr_other.
Qed.

Lemma fwdActuation_disabled_witness :
  exists w',
    mj_fwdActuation Demo.collab (Demo.limited mjDSBL_ACTUATION)
                    (start (Demo.state (Num.of_Z 3) Num.one 0)) = Done tt w' /\
    (dat w').[qfrc_actuator] 0 = Num.zero /\
    (0 <= 0 < nu (Demo.limited mjDSBL_ACTUATION) -> (dat w').[actuator_force] 0 = Num.zero) /\
    (dat w').[act_dot] = (Demo.state (Num.of_Z 3) Num.one 0).[act_dot] /\
    (dat w').[qvel] = (Demo.state (Num.of_Z 3) Num.one 0).[qvel].
Proof.
  apply (fwdActuation_disabled Demo.collab (Demo.limited mjDSBL_ACTUATION)
           (start (Demo.state (Num.of_Z 3) Num.one 0)) 0 0 qvel).
  - right. reflexivity.
  - simpl. lia.
  - discriminate.
  - discriminate.
  - discriminate.
Defined.

(** X5: [mj_fwdActuation] writes qfrc_actuator, actuator_force, ctrl and
    act_dot and no other array: positions, velocities, activations and the
    rest are what they were, and so are the clock, the number of
    constraints and the warnings other than mjWARN_BADCTRL. *)
Theorem fwdActuation_frame (C : Collab) (m : mjModel) (w : world) (a : darray)
        (k : mjtWarning) :
  a <> qfrc_actuator -> a <> actuator_force -> a <> ctrl -> a <> act_dot ->
  k <> mjWARN_BADCTRL ->
  exists w',
    mj_fwdActuation C m w = Done tt w' /\
    (dat w').[a] = (dat w).[a] /\
    time (dat w') = time (dat w) /\
    nefc (dat w') = nefc (dat w) /\
    warning (dat w') k = warning (dat w) k.
Proof.
  intros H1 H2 H3 H4 Hk.
  rewrite fwdActuation_run. eexists. split; [reflexivity|]. cbn [dat].
  assert (Hc : (actuation_cleared C m (dat w)).[a] = (dat w).[a]).
  { unfold actuation_cleared. rewrite check_ctrl_other by exact H3.
    destruct (truthy (nu m)); now rewrite !set_arr_other. }
  assert (Hw : warning (actuation_cleared C m (dat w)) k = warning (dat w) k).
  { unfold actuation_cleared, check_ctrl.
    destruct (first_bad C _ (nu m)); destruct (truthy (nu m)); cbn;
      destruct k; try reflexivity; contradiction. }
  assert (Ht : time (actuation_cleared C m (dat w)) = time (dat w)).
  { unfold actuation_cleared. rewrite check_ctrl_time. now destruct (truthy (nu m)). }
  assert (Hn : nefc (actuation_cleared C m (dat w)) = nefc (dat w)).
  { unfold actuation_cleared, check_ctrl.
    destruct (first_bad C _ (nu m)); now destruct (truthy (nu m)). }
  destruct ((nu m =? 0) || mjDISABLED m mjDSBL_ACTUATION); [now repeat split|].
  rewrite actuation_forces_other, actuation_forces_warning by assumption.
  repeat split; try assumption.
  - unfold actuation_forces.
    rewrite for_loop_time by (intros; apply act_dot_body_time). cbn [time set_arr].
    rewrite for_loop_time by (intros; apply clamp_force_body_time).
    rewrite for_loop_time by (intros; apply force_body_time). exact Ht.
  - unfold actuation_forces.
    rewrite <- Hn.
    apply (for_loop_keeps (fun t => nefc t = nefc (actuation_cleared C m (dat w)))).
    + cbn [nefc set_arr].
      apply (for_loop_keeps (fun t => nefc t = nefc (actuation_cleared C m (dat w)))).
      * apply (for_loop_keeps (fun t => nefc t = nefc (actuation_cleared C m (dat w))));
          [reflexivity|].
        intros j t Ht'. unfold force_body.
        destruct (truthy (actuator_ctrllimited m j) && negb (mjDISABLED m mjDSBL_CLAMPCTRL));
          destruct (actuator_dyntype m j =? mjDYN_NONE); exact Ht'.
      * intros j t Ht'. unfold clamp_force_body.
        destruct (truthy (actuator_forcelimited m j)); exact Ht'.
    + intros j t Ht'. exact Ht'.
Qed.

Lemma fwdActuation_frame_witness :
  exists w',
    mj_fwdActuation Demo.collab Demo.model (start Demo.rest) = Done tt w' /\
    (dat w').[act] = Demo.rest.[act] /\
    time (dat w') = time Demo.rest /\
    nefc (dat w') = nefc Demo.rest /\
    warning (dat w') mjWARN_BADQACC = warning Demo.rest mjWARN_BADQACC.
Proof.
  apply (fwdActuation_frame Demo.collab Demo.model (start Demo.rest) act mjWARN_BADQACC);
    discriminate.
Defined.

(** *** Integrators *)

Lemma bind_done {A B : Type} (c : M A) (k : A -> M B) (w w1 : world) (a : A) :
  c w = Done a w1 -> bind c k w = k a w1.
Proof. intros E. unfold bind. now rewrite E. Qed.

(** X6: without damping (no dof_damping entry is positive) [mj_Euler] is
    the semi-implicit Euler step: on each degree of freedom the new velocity
    is qvel + qacc*h in binary64, the new position is what
    [mj_integratePos] makes of the old position and the new velocity, and
    [mj_factorM] is not called. *)
Theorem Euler_without_damping (C : Collab) (m : mjModel) (w : world) (i : Z) :
  has_damping m = false ->
  0 <= i < nv m ->
  exists w',
    mj_Euler C m w = Done tt w' /\
    (dat w').[qvel] i =
      Num.add ((dat w).[qvel] i) (Num.mul ((dat w).[qacc] i) (timestep (opt m))) /\
    (dat w').[qpos] =
      mj_integratePos C m (dat w).[qpos] (dat w').[qvel] (timestep (opt m)) /\
    trace w' = trace w ++ [Enter Euler].
Proof.
  intros Hd Hi. unfold has_damping in Hd. unfold mj_Euler.
  destruct (first_index (nv m) (fun k => Num.gt (dof_damping m k) (Num.of_Z 0)));
    [discriminate|].
  destruct (truthy (na m));
    cbv [bind enter log get modify when ret]; cbn [dat trace];
    (eexists; split; [reflexivity|]); cbn [dat trace]; arr_norm;
    rewrite ?clamp_act_loop_other by discriminate; arr_norm;
    unfold mju_addToScl at 1; rewrite (inb_true _ _ Hi); repeat split.
Qed.

Lemma Euler_without_damping_witness :
  exists w',
    mj_Euler Demo.collab Demo.model (start Demo.rest) = Done tt w' /\
    (dat w').[qvel] 0 =
      Num.add (Demo.rest.[qvel] 0) (Num.mul (Demo.rest.[qacc] 0) Demo.centi) /\
    (dat w').[qpos] =
      mj_integratePos Demo.collab Demo.model Demo.rest.[qpos] (dat w').[qvel] Demo.centi /\
    trace w' = [Enter Euler].
Proof.
  apply (Euler_without_damping Demo.collab Demo.model (start Demo.rest) 0).
  - reflexivity.
  - simpl. lia.
Defined.

(** X7: [mj_implicit] advances the activations and does not clamp them:
    when [mjd_smooth_vel] leaves act and act_dot as they are, each
    activation is act + act_dot*h in binary64 at return, whether its
    actuator is limited or not. *)
Theorem implicit_does_not_clamp (C : Collab) (m : mjModel) (w : world) (j : Z) :
  (forall d, (run C mjd_smooth_vel m d).[act] = d.[act]) ->
  (forall d, (run C mjd_smooth_vel m d).[act_dot] = d.[act_dot]) ->
  0 <= j < na m ->
  exists w',
    mj_implicit C m w = Done tt w' /\
    (dat w').[act] j =
      Num.add ((dat w).[act] j) (Num.mul ((dat w).[act_dot] j) (timestep (opt m))).
Proof.
  intros Ka Kd Hj.
  set (P := fun w1 : world =>
              (dat w1).[act] j = (dat w).[act] j /\
              (dat w1).[act_dot] j = (dat w).[act_dot] j).
  set (Q := fun (_ : unit) (w1 : world) =>
              (dat w1).[act] j =
                Num.add ((dat w).[act] j) (Num.mul ((dat w).[act_dot] j) (timestep (opt m)))).
  assert (H : hoare P (mj_implicit C m) Q).
  { unfold mj_implicit. rewrite truthy_pos by lia.
    assert (Hmod : forall f : mjData -> mjData,
               (forall d, (f d).[act] = d.[act]) ->
               (forall d, (f d).[act_dot] = d.[act_dot]) ->
               hoare P (modify f) (fun _ => P)).
    { intros f F1 F2. apply hoare_pres; [apply total_modify|].
      intros w1 [H1 H2]. unfold P. cbn [final modify dat]. now rewrite F1, F2. }
    eapply hoare_bind;
      [apply hoare_pres; [apply total_log | intros w1 Hw1; exact Hw1] | intro].
    eapply hoare_bind.
    { apply Hmod; intro d;
        destruct (mj_makeMSparse C m d (iarr d D_rownnz) (iarr d D_rowadr) (iarr d D_colind))
          as [[r1 r2] r3]; reflexivity. }
    intro. eapply hoare_bind.
    { apply hoare_pres; [apply call_total|].
      intros w1 [H1 H2]. unfold P. cbn [final call bind log modify dat trace].
      now rewrite Ka, Kd. }
    intro.
    do 3 (eapply hoare_bind; [apply Hmod; intro d; reflexivity | intro]).
    eapply hoare_bind;
      [apply hoare_get; intros w1 Hw1; exact (Hw1 : (fun _ => P) (dat w1) w1) | intros d].
    eapply hoare_bind; [apply Hmod; intro d1; reflexivity | intro].
    eapply (hoare_bind _ Q).
    { apply hoare_modify. intros w1 [H1 H2]. unfold Q. cbn [dat].
      rewrite set_arr_same. unfold mju_addToScl. now rewrite (inb_true _ _ Hj), H1, H2. }
    intro. eapply (hoare_bind _ Q); apply hoare_modify || intro.
    - intros w1 H1. exact H1.
    - apply hoare_modify. intros w1 H1. exact H1. }
  destruct (H w (conj eq_refl eq_refl)) as ([] & w' & E & HQ).
  now exists w'.
Qed.

Lemma implicit_does_not_clamp_witness :
  let d := Demo.state Num.one (Num.of_Z 1) 0 in
  exists w',
    mj_implicit Demo.collab Demo.model
      (start (d.[act_dot := of_list [Num.of_Z 100]])) = Done tt w' /\
    (dat w').[act] 0 = Num.add Num.one (Num.mul (Num.of_Z 100) Demo.centi).
Proof.
  intros d.
  apply (implicit_does_not_clamp Demo.collab Demo.model
           (start (d.[act_dot := of_list [Num.of_Z 100]])) 0).
  - reflexivity.
  - reflexivity.
  - simpl. lia.
Defined.

(** X8: [mj_RungeKutta] with an order other than 4 stops on the error
    "Supported RK orders: N=4" before it touches the data. *)
Theorem RungeKutta_order (C : Collab) (m : mjModel) (N : Z) (w : world) :
  N <> 4 ->
  mj_RungeKutta C m N w =
    Fatal "Supported RK orders: N=4"
          {| dat := dat w; trace := trace w ++ [Enter RungeKutta] |}.
Proof.
  intros HN. unfold mj_RungeKutta.
  cbv [bind enter log get]. cbn [dat trace].
  destruct (N =? 4) eqn:E; [apply Z.eqb_eq in E; contradiction | reflexivity].
Qed.

Lemma RungeKutta_order_witness :
  mj_RungeKutta Demo.collab Demo.model 2 (start Demo.rest) =
    Fatal "Supported RK orders: N=4"
          {| dat := Demo.rest; trace := [Enter RungeKutta] |}.
Proof. apply (RungeKutta_order Demo.collab Demo.model 2 (start Demo.rest)). lia. Defined.

(** *** Constraint stage *)

(** X9: with warmstarting disabled, [warmstart] is a cold start: qacc is
    qacc_smooth on each degree of freedom, efc_force is zero on each
    constraint, and no collaborator is called (the trace grows by the entry
    of [warmstart] alone). *)
Theorem warmstart_disabled (C : Collab) (m : mjModel) (w : world) (i k : Z) :
  mjDISABLED m mjDSBL_WARMSTART = true ->
  0 <= i < nv m ->
  0 <= k < nefc (dat w) ->
  exists w',
    warmstart C m w = Done tt w' /\
    (dat w').[qacc] i = (dat w).[qacc_smooth] i /\
    (dat w').[efc_force] k = Num.zero /\
    trace w' = trace w ++ [Enter Warmstart].
Proof.
  intros Hoff Hi Hk. unfold warmstart. rewrite Hoff. cbn [negb].
  cbv [bind enter log get modify]. cbn [dat trace].
  eexists. split; [reflexivity|]. cbn [dat trace]. arr_norm.
  unfold mju_copy, mju_zero. rewrite (inb_true _ _ Hi), (inb_true _ _ Hk).
  repeat split.
Qed.

Lemma warmstart_disabled_witness :
  exists w',
    warmstart Demo.collab (Demo.limited mjDSBL_WARMSTART)
              (start (Demo.state Num.one Num.zero 1)) = Done tt w' /\
    (dat w').[qacc] 0 = (Demo.state Num.one Num.zero 1).[qacc_smooth] 0 /\
    (dat w').[efc_force] 0 = Num.zero /\
    trace w' = [Enter Warmstart].
Proof.
  apply (warmstart_disabled Demo.collab (Demo.limited mjDSBL_WARMSTART)
           (start (Demo.state Num.one Num.zero 1)) 0 0).
  - reflexivity.
  - simpl. lia.
  - simpl. lia.
Defined.

Lemma warmstart_enters (C : Collab) (m : mjModel) :
  emits (Enter Warmstart) true (warmstart C m).
Proof. unfold warmstart. apply enters. intro. silent. Qed.

(** X10: with constraints and a solver that is none of PGS, CG and
    Newton, [mj_fwdConstraint] stops on the error "Unknown solver type %d";
    it finds the error only after [warmstart] has run and solver_iter has
    been reset. *)
Theorem fwdConstraint_unknown_solver (C : Collab) (m : mjModel) (w : world) :
  nefc (dat w) <> 0 ->
  ~ valid_solver m ->
  exists w1,
    mj_fwdConstraint C m w = Fatal "Unknown solver type %d" w1 /\
    occurs (Enter Warmstart) (trace w1) = true /\
    solver_iter (dat w1) = 0.
Proof.
  intros Hn Hs. unfold mj_fwdConstraint.
  erewrite bind_done by reflexivity.
  erewrite bind_done by reflexivity. cbn [dat].
  rewrite (truthy_nonzero _ Hn). cbn [negb].
  erewrite bind_done by reflexivity.
  erewrite bind_done by reflexivity.
  match goal with
  | |- context [bind (warmstart C m) _ ?w0] => remember w0 as wm eqn:Ewm
  end.
  destruct (warmstart_total C m wm) as ([] & w2 & E).
  pose proof (warmstart_enters C m wm) as T. rewrite E in T.
  rewrite (bind_done _ _ wm w2 tt E).
  erewrite bind_done by reflexivity.
  assert (E1 : (solver (opt m) =? mjSOL_PGS) = false)
    by (apply Z.eqb_neq; intro; apply Hs; left; assumption).
  assert (E2 : (solver (opt m) =? mjSOL_CG) = false)
    by (apply Z.eqb_neq; intro; apply Hs; right; left; assumption).
  assert (E3 : (solver (opt m) =? mjSOL_NEWTON) = false)
    by (apply Z.eqb_neq; intro; apply Hs; right; right; assumption).
  rewrite E1, E2, E3.
  eexists. split; [reflexivity|]. cbn [dat trace].
  split; [|reflexivity]. simpl in T. rewrite T. apply orb_true_r.
Qed.

Lemma fwdConstraint_unknown_solver_witness :
  exists w1,
    mj_fwdConstraint Demo.collab
      (Demo.slider mjINT_EULER 7 Num.zero (Num.of_Z (-1)) (Num.of_Z 1))
      (start (Demo.state Num.one Num.zero 1)) = Fatal "Unknown solver type %d" w1 /\
    occurs (Enter Warmstart) (trace w1) = true /\
    solver_iter (dat w1) = 0.
Proof.
  apply (fwdConstraint_unknown_solver Demo.collab
           (Demo.slider mjINT_EULER 7 Num.zero (Num.of_Z (-1)) (Num.of_Z 1))
           (start (Demo.state Num.one Num.zero 1))).
  - simpl. lia.
  - intros [H|[H|H]]; discriminate H.
Defined.

(** X11: with constraints, a solver that the driver knows and the noslip
    solver off, [mj_fwdConstraint] returns with qacc_warmstart equal to the
    qacc that it returns, on each degree of freedom: the solution is saved
    for the warmstart of the next step. *)
Theorem fwdConstraint_saves_warmstart (C : Collab) (m : mjModel) (w : world) (i : Z) :
  nefc (dat w) <> 0 ->
  valid_solver m ->
  noslip_iterations (opt m) <= 0 ->
  0 <= i < nv m ->
  exists w',
    mj_fwdConstraint C m w = Done tt w' /\
    (dat w').[qacc_warmstart] i = (dat w').[qacc] i.
Proof.
  intros Hn Hs Hno Hi.
  assert (H : hoare (fun w0 => nefc (dat w0) <> 0) (mj_fwdConstraint C m)
                    (fun _ w' => (dat w').[qacc_warmstart] i = (dat w').[qacc] i)).
  { unfold mj_fwdConstraint.
    eapply hoare_bind;
      [apply hoare_pres; [apply total_log | intros w1 H1; exact H1] | intro].
    eapply (hoare_bind _ (fun d _ => nefc d <> 0));
      [apply hoare_get; intros w1 H1; exact H1 | intros d0].
    destruct (negb (truthy (nefc d0))) eqn:E.
    { intros w1 H1. exfalso. rewrite (truthy_nonzero _ H1) in E. discriminate. }
    do 4 (eapply hoare_bind;
          [apply hoare_fact; total_with ltac:(idtac; apply warmstart_total) | intro]).
    eapply hoare_bind.
    { apply hoare_fact.
      destruct Hs as [Es|[Es|Es]]; rewrite Es; cbn; apply call_solver_total. }
    intro.
    eapply (hoare_bind _ (fun _ w' => (dat w').[qacc_warmstart] i = (dat w').[qacc] i)).
    { apply hoare_modify. intros w1 _. cbn [dat]. arr_norm.
      unfold mju_copy. now rewrite (inb_true _ _ Hi). }
    intro. assert (E0 : (0 <? noslip_iterations (opt m)) = false) by (apply Z.ltb_ge; lia).
    rewrite E0. intros w1 H1. exists tt, w1. split; [reflexivity | exact H1]. }
  destruct (H w Hn) as ([] & w' & E & HQ). now exists w'.
Qed.

Lemma fwdConstraint_saves_warmstart_witness :
  exists w',
    mj_fwdConstraint Demo.collab Demo.model (start (Demo.state Num.one Num.zero 1))
      = Done tt w' /\
    (dat w').[qacc_warmstart] 0 = (dat w').[qacc] 0.
Proof.
  apply (fwdConstraint_saves_warmstart Demo.collab Demo.model
           (start (Demo.state Num.one Num.zero 1)) 0).
  - simpl. lia.
  - right. right. reflexivity.
  - simpl. lia.
  - simpl. lia.
Defined.


(** *** Top-level procedures *)

Lemma bind_total {A B : Type} (c : M A) (k : A -> M B) (w : world) :
  total c -> exists a w1, c w = Done a w1 /\ bind c k w = k a w1.
Proof.
  intros Ht. destruct (Ht w) as (a & w1 & E). exists a, w1.
  split; [exact E | now apply bind_done].
Qed.

(** A computation that returns, then one that stops. *)
Lemma stops_after {A B : Type} (c : M A) (k : A -> M B) (w : world) (msg : string)
      (P : world -> Prop) :
  total c ->
  (forall a w1, c w = Done a w1 -> exists wf, k a w1 = Fatal msg wf /\ P wf) ->
  exists wf, bind c k w = Fatal msg wf /\ P wf.
Proof.
  intros Ht Hk. destruct (Ht w) as (a & w1 & E).
  rewrite (bind_done c k w w1 a E). now apply Hk.
Qed.

Lemma forward_enters (C : Collab) (m : mjModel) :
  emits (Enter Forward) true (mj_forward C m).
Proof. unfold mj_forward. apply enters. intro. silent. Qed.

(** X13: with a solver that the driver knows and an integrator that is
    none of Euler, RK4 and implicit, [mj_step] stops on the error "Invalid
    integrator"; it finds the error only after the forward dynamics have
    been computed. *)
Theorem step_invalid_integrator (C : Collab) (m : mjModel) (w : world) :
  valid_solver m ->
  integrator (opt m) <> mjINT_EULER ->
  integrator (opt m) <> mjINT_RK4 ->
  integrator (opt m) <> mjINT_IMPLICIT ->
  exists w1,
    mj_step C m w = Fatal "Invalid integrator" w1 /\
    occurs (Enter Forward) (trace w1) = true.
Proof.
  intros Hs H1 H2 H3. unfold mj_step.
  apply stops_after; [apply total_log | intros [] w0 _].
  apply stops_after; [apply checkPos_total | intros [] wa _].
  apply stops_after; [apply checkVel_total | intros [] wb _].
  apply stops_after; [now apply forward_total | intros [] wc Ec].
  pose proof (forward_enters C m wb) as T. rewrite Ec in T. simpl in T.
  rewrite orb_true_r in T.
  apply stops_after; [now apply checkAcc_total | intros [] wd Ed].
  assert (Td : occurs (Enter Forward) (trace wd) = true).
  { assert (G : steady (still (Enter Forward)) (mj_checkAcc C m)) by grows.
    specialize (G wc). rewrite Ed in G. exact (G T). }
  apply stops_after; [apply total_when, call_total | intros [] we Ee].
  assert (Te : occurs (Enter Forward) (trace we) = true).
  { assert (G : steady (still (Enter Forward))
                  (when (mjENABLED m mjENBL_FWDINV) (call C mj_compareFwdInv m))) by grows.
    specialize (G wd). rewrite Ee in G. exact (G Td). }
  apply Z.eqb_neq in H1, H2, H3. rewrite H1, H2, H3.
  exists we. split; [reflexivity | exact Te].
Qed.

Lemma step_invalid_integrator_witness :
  exists w1,
    mj_step Demo.collab (Demo.slider 9 mjSOL_NEWTON Num.zero (Num.of_Z (-1)) (Num.of_Z 1))
            (start Demo.rest) = Fatal "Invalid integrator" w1 /\
    occurs (Enter Forward) (trace w1) = true.
Proof.
  apply (step_invalid_integrator Demo.collab
           (Demo.slider 9 mjSOL_NEWTON Num.zero (Num.of_Z (-1)) (Num.of_Z 1))
           (start Demo.rest)).
  - right. right. reflexivity.
  - discriminate.
  - discriminate.
  - discriminate.
Defined.

Lemma Euler_enters (C : Collab) (m : mjModel) : emits (Enter Euler) true (mj_Euler C m).
Proof. unfold mj_Euler. apply enters. intro. silent. Qed.

Lemma implicit_enters (C : Collab) (m : mjModel) :
  emits (Enter Implicit) true (mj_implicit C m).
Proof. unfold mj_implicit. apply enters. intro. silent. Qed.

(** X14: [mj_step2] never enters [mj_RungeKutta]: with the RK4 integrator
    it integrates with [mj_Euler], as with every integrator but the implicit
    one, for which it enters [mj_implicit]. *)
Theorem step2_never_RungeKutta (C : Collab) (m : mjModel) (d : mjData) :
  valid_solver m ->
  let t := trace (final (mj_step2 C m (start d))) in
  occurs (Enter RungeKutta) t = false /\
  occurs (Enter Euler) t = negb (integrator (opt m) =? mjINT_IMPLICIT) /\
  occurs (Enter Implicit) t = (integrator (opt m) =? mjINT_IMPLICIT).
Proof.
  intros Hs. cbv zeta.
  pose proof (fwdConstraint_total C m Hs) as Tc.
  pose proof (checkAcc_total C m Hs) as Ta.
  assert (Pre : forall e (b : bool),
             e <> Enter Step2 -> e <> Enter FwdActuation -> e <> Enter FwdAcceleration ->
             steady (same_occ e) (mj_fwdConstraint C m) ->
             steady (same_occ e) (mj_checkAcc C m) ->
             e <> Call mj_sensorAcc -> e <> Call mj_compareFwdInv ->
             emits e b (if integrator (opt m) =? mjINT_IMPLICIT
                        then mj_implicit C m else mj_Euler C m) ->
             emits e b (mj_step2 C m)).
  { intros e b N1 N2 N3 S1 S2 N4 N5 Hlast. unfold mj_step2.
    apply (emits_bind e false b);
      [apply total_log | apply emits_silent, same_occ_log, not_eq_sym, N1 | intro].
    apply (emits_bind e false b); [apply fwdActuation_total | | intro].
    { apply emits_silent. unfold mj_fwdActuation.
      apply steady_bind; [exact _ | apply same_occ_log, not_eq_sym, N2 | intro; silent]. }
    apply (emits_bind e false b); [apply fwdAcceleration_total | | intro].
    { apply emits_silent. unfold mj_fwdAcceleration.
      apply steady_bind; [exact _ | apply same_occ_log, not_eq_sym, N3 | intro; silent]. }
    apply (emits_bind e false b); [exact Tc | apply emits_silent, S1 | intro].
    apply (emits_bind e false b); [apply call_total | | intro].
    { apply emits_silent. unfold call.
      apply steady_bind; [exact _ | apply same_occ_log, not_eq_sym, N4 | intro; silent]. }
    apply (emits_bind e false b); [exact Ta | apply emits_silent, S2 | intro].
    apply (emits_bind e false b); [apply total_when, call_total | | intro; exact Hlast].
    apply emits_silent, steady_when; [exact _|]. unfold call.
    apply steady_bind; [exact _ | apply same_occ_log, not_eq_sym, N5 | intro; silent]. }
  repeat split.
  - rewrite (Pre (Enter RungeKutta) false); try discriminate; try silent; [reflexivity|].
    destruct (integrator (opt m) =? mjINT_IMPLICIT); quiet.
  - rewrite (Pre (Enter Euler) (negb (integrator (opt m) =? mjINT_IMPLICIT)));
      try discriminate; try silent; [reflexivity|].
    destruct (integrator (opt m) =? mjINT_IMPLICIT); [quiet | apply Euler_enters].
  - rewrite (Pre (Enter Implicit) (integrator (opt m) =? mjINT_IMPLICIT));
      try discriminate; try silent; [reflexivity|].
    destruct (integrator (opt m) =? mjINT_IMPLICIT); [apply implicit_enters | quiet].
Qed.

Lemma step2_never_RungeKutta_witness :
  let m := Demo.slider mjINT_RK4 mjSOL_NEWTON Num.zero (Num.of_Z (-1)) (Num.of_Z 1) in
  let t := trace (final (mj_step2 Demo.collab m (start Demo.rest))) in
  occurs (Enter RungeKutta) t = false /\
  occurs (Enter Euler) t = true /\
  occurs (Enter Implicit) t = false.
Proof.
  intros m.
  apply (step2_never_RungeKutta Demo.collab m Demo.rest).
  right. right. reflexivity.
Defined.

(** X15: [mj_step1] stops before the actuation stage: it enters the
    position and the velocity stage and none of the actuation, acceleration
    and constraint stages, nor an integrator. *)
Theorem step1_stages (C : Collab) (m : mjModel) (d : mjData) :
  let t := trace (final (mj_step1 C m (start d))) in
  occurs (Enter FwdPosition) t = true /\
  occurs (Enter FwdVelocity) t = true /\
  occurs (Enter FwdActuation) t = false /\
  occurs (Enter FwdAcceleration) t = false /\
  occurs (Enter FwdConstraint) t = false /\
  occurs (Enter Euler) t = false.
Proof.
  cbv zeta. repeat split.
  - assert (H : emits (Enter FwdPosition) true (mj_step1 C m)).
    { unfold mj_step1.
      do 3 (apply (emits_bind _ false); [returns | quiet | intro]).
      apply (emits_bind _ true false);
        [apply fwdPosition_total | apply fwdPosition_enters | intro; quiet]. }
    now rewrite H.
  - assert (H : emits (Enter FwdVelocity) true (mj_step1 C m)).
    { unfold mj_step1.
      do 6 (apply (emits_bind _ false); [returns | quiet | intro]).
      apply (emits_bind _ true false);
        [apply fwdVelocity_total | apply fwdVelocity_enters | intro; quiet]. }
    now rewrite H.
  - assert (H : steady (same_occ (Enter FwdActuation)) (mj_step1 C m))
      by (unfold mj_step1; silent).
    exact (H (start d)).
  - assert (H : steady (same_occ (Enter FwdAcceleration)) (mj_step1 C m))
      by (unfold mj_step1; silent).
    exact (H (start d)).
  - assert (H : steady (same_occ (Enter FwdConstraint)) (mj_step1 C m))
      by (unfold mj_step1; silent).
    exact (H (start d)).
  - assert (H : steady (same_occ (Enter Euler)) (mj_step1 C m))
      by (unfold mj_step1; silent).
    exact (H (start d)).
Qed.

(** *** Sensors *)

Section Sensors.

Variable C : Collab.
Variable m : mjModel.

Lemma position_block_sensor (s k : Z) :
  emits (Call mj_sensorPos) ((s <? mjSTAGE_POS) && negb (truthy k))
        (position_block C m s k).
Proof.
  unfold position_block. apply emits_when.
  apply (emits_bind _ false); [apply fwdPosition_total | quiet | intro].
  apply (emits_eq _ (negb (truthy k) && true || false));
    [now rewrite andb_true_r, orb_false_r|].
  apply emits_bind; [returns | apply emits_when, call_emits | intro; quiet].
Qed.

Lemma velocity_block_sensor (s k : Z) :
  emits (Call mj_sensorVel) ((s <? mjSTAGE_VEL) && negb (truthy k))
        (velocity_block C m s k).
Proof.
  unfold velocity_block. apply emits_when.
  apply (emits_bind _ false); [apply fwdVelocity_total | quiet | intro].
  apply (emits_eq _ (negb (truthy k) && true || false));
    [now rewrite andb_true_r, orb_false_r|].
  apply emits_bind; [returns | apply emits_when, call_emits | intro; quiet].
Qed.

Lemma forwardSkip_sensorAcc (s k : Z) :
  valid_solver m ->
  emits (Call mj_sensorAcc) (negb (truthy k)) (mj_forwardSkip C m s k).
Proof.
  intros Hs. unfold mj_forwardSkip.
  apply (emits_bind _ false); [apply total_log | quiet | intro].
  apply (emits_bind _ false); [apply position_block_total | quiet | intro].
  apply (emits_bind _ false); [apply velocity_block_total | quiet | intro].
  apply (emits_bind _ false); [apply call_control_total | quiet | intro].
  apply (emits_bind _ false); [apply fwdActuation_total | quiet | intro].
  apply (emits_bind _ false); [apply fwdAcceleration_total | quiet | intro].
  apply (emits_bind _ false); [now apply fwdConstraint_total | quiet | intro].
  apply (emits_eq _ (negb (truthy k) && true)); [apply andb_true_r|].
  apply emits_when, call_emits.
Qed.

End Sensors.

(** X16: [mj_forwardSkip] calls the position and the velocity sensors
    exactly when their stage is not skipped and skipsensor is zero, and,
    with a solver that the driver knows, the acceleration sensors exactly
    when skipsensor is zero. *)
Theorem forwardSkip_sensors (C : Collab) (m : mjModel) (d : mjData)
        (skipstage skipsensor : Z) :
  valid_solver m ->
  let t := trace (final (mj_forwardSkip C m skipstage skipsensor (start d))) in
  occurs (Call mj_sensorPos) t = (skipstage <? mjSTAGE_POS) && negb (truthy skipsensor) /\
  occurs (Call mj_sensorVel) t = (skipstage <? mjSTAGE_VEL) && negb (truthy skipsensor) /\
  occurs (Call mj_sensorAcc) t = negb (truthy skipsensor).
Proof.
  intros Hs. cbv zeta. repeat split.
  - rewrite (forwardSkip_emits C m (Call mj_sensorPos)
               ((skipstage <? mjSTAGE_POS) && negb (truthy skipsensor))
               false false false false);
      try discriminate; try quiet; [|apply position_block_sensor].
    cbn. now rewrite !orb_false_r.
  - rewrite (forwardSkip_emits C m (Call mj_sensorVel) false
               ((skipstage <? mjSTAGE_VEL) && negb (truthy skipsensor))
               false false false);
      try discriminate; try quiet; [|apply velocity_block_sensor].
    cbn. now rewrite !orb_false_r.
  - now rewrite (forwardSkip_sensorAcc C m skipstage skipsensor Hs).
Qed.

Lemma forwardSkip_sensors_witness :
  let t := trace (final (mj_forwardSkip Demo.collab Demo.model mjSTAGE_POS 0
                           (start Demo.rest))) in
  occurs (Call mj_sensorPos) t = false /\
  occurs (Call mj_sensorVel) t = true /\
  occurs (Call mj_sensorAcc) t = true.
Proof.
  apply (forwardSkip_sensors Demo.collab Demo.model Demo.rest mjSTAGE_POS 0).
  right. right. reflexivity.
Defined.

(** X17: the evaluations of [mj_RungeKutta] call no sensor: the trace has
    a call of [mj_sensorPos], [mj_sensorVel] or [mj_sensorAcc] after
    [mj_RungeKutta] only if it had one before. *)
Theorem RungeKutta_calls_no_sensor (C : Collab) (m : mjModel) (w : world) (p : proc) :
  p = mj_sensorPos \/ p = mj_sensorVel \/ p = mj_sensorAcc ->
  occurs (Call p) (trace (final (mj_RungeKutta C m 4 w))) = occurs (Call p) (trace w).
Proof.
  intros Hp.
  assert (HF : steady (same_occ (Call p)) (mj_forwardSkip C m mjSTAGE_NONE 1)).
  { unfold mj_forwardSkip, position_block, velocity_block.
    change (negb (truthy 1)) with false. cbn [when].
    destruct Hp as [-> | [-> | ->]]; silent. }
  assert (H : steady (same_occ (Call p)) (mj_RungeKutta C m 4)).
  { unfold mj_RungeKutta.
    apply steady_bind; [exact _ | apply same_occ_log; discriminate | intro].
    apply steady_bind; [exact _ | apply steady_get; exact _ | intros d0].
    change (negb (4 =? 4)) with false. cbv iota.
    apply steady_bind; [exact _ | | intros [[dX0 X] F]].
    - apply steady_forM; [exact _|]. intros i [[dX0 X] F]. unfold rk_stage.
      steady_with ltac:(idtac;
        lazymatch goal with
        | |- steady _ (modify _) => apply same_occ_modify
        | |- steady _ (mj_forwardSkip _ _ _ _) => exact HF
        end).
    - steady_with ltac:(idtac; apply same_occ_modify). }
  exact (H w).
Qed.

Lemma RungeKutta_calls_no_sensor_witness :
  occurs (Call mj_sensorAcc)
         (trace (final (mj_RungeKutta Demo.collab Demo.model 4 (start Demo.rest)))) =
    occurs (Call mj_sensorAcc) (trace (start Demo.rest)).
Proof.
  apply (RungeKutta_calls_no_sensor Demo.collab Demo.model (start Demo.rest) mj_sensorAcc).
  right. right. reflexivity.
Defined.

(** *** Value checks *)

(** X18: when the smallest index with a bad position is i, [mj_checkPos]
    calls [mj_resetData] once and returns the reset data with the warning
    recorded after the reset: the arrays and the clock of the reset data,
    lastinfo i, and the counter that the reset left plus one. *)
Theorem checkPos_bad (C : Collab) (m : mjModel) (w : world) (i : Z) :
  0 <= i < nq m ->
  mju_isBad C ((dat w).[qpos] i) = true ->
  (forall j, 0 <= j < i -> mju_isBad C ((dat w).[qpos] j) = false) ->
  let dr := run C mj_resetData m (mj_warning (dat w) mjWARN_BADQPOS i) in
  exists w',
    mj_checkPos C m w = Done tt w' /\
    arr (dat w') = arr dr /\
    time (dat w') = time dr /\
    lastinfo (warning (dat w') mjWARN_BADQPOS) = i /\
    number (warning (dat w') mjWARN_BADQPOS) = number (warning dr mjWARN_BADQPOS) + 1 /\
    trace w' = trace w ++ [Enter CheckPos; Call mj_resetData].
Proof.
  intros Hi Hbad Hbefore dr. unfold mj_checkPos.
  cbv [bind enter log get]. cbn [dat trace].
  unfold first_bad. rewrite (first_index_first (nq m) _ i Hi Hbad Hbefore).
  cbv [bind modify call log]. cbn [dat trace].
  eexists. split; [reflexivity|]. cbn. rewrite <- app_assoc. repeat split.
Qed.

Lemma checkPos_bad_witness :
  let d := Demo.rest.[qpos := of_list [Num.nan]] in
  let dr := run Demo.collab mj_resetData Demo.model (mj_warning d mjWARN_BADQPOS 0) in
  exists w',
    mj_checkPos Demo.collab Demo.model (start d) = Done tt w' /\
    arr (dat w') = arr dr /\
    time (dat w') = time dr /\
    lastinfo (warning (dat w') mjWARN_BADQPOS) = 0 /\
    number (warning (dat w') mjWARN_BADQPOS) = number (warning dr mjWARN_BADQPOS) + 1 /\
    trace w' = [Enter CheckPos; Call mj_resetData].
Proof.
  intros d.
  apply (checkPos_bad Demo.collab Demo.model (start d) 0).
  - simpl. lia.
  - reflexivity.
  - intros j Hj. lia.
Defined.

(** X19: when some acceleration is bad, [mj_checkAcc] resets the data and
    computes the forward dynamics again: the trace has a call of
    [mj_resetData] and an entry of [mj_forward] afterwards, whether the new
    forward pass returns or stops.  When no acceleration is bad, it leaves
    the data as it is and calls nothing. *)
Theorem checkAcc_recomputes (C : Collab) (m : mjModel) (w : world) :
  (forall i, first_bad C (dat w).[qacc] (nv m) = Some i ->
     occurs (Call mj_resetData) (trace (final (mj_checkAcc C m w))) = true /\
     occurs (Enter Forward) (trace (final (mj_checkAcc C m w))) = true) /\
  (first_bad C (dat w).[qacc] (nv m) = None ->
     mj_checkAcc C m w =
       Done tt {| dat := dat w; trace := trace w ++ [Enter CheckAcc] |}).
Proof.
  split.
  - intros i Hi.
    assert (R : emits (Call mj_resetData) true
                  (modify (fun d => mj_warning d mjWARN_BADQACC i);;
                   call C mj_resetData m;;
                   modify (warning_number_incr mjWARN_BADQACC);;
                   modify (warning_set_lastinfo mjWARN_BADQACC i);;
                   mj_forward C m)).
    { apply (emits_bind _ false true); [apply total_modify | quiet | intro].
      apply (emits_bind _ true false); [apply call_total | apply call_emits | intro; quiet]. }
    assert (F : emits (Enter Forward) true
                  (modify (fun d => mj_warning d mjWARN_BADQACC i);;
                   call C mj_resetData m;;
                   modify (warning_number_incr mjWARN_BADQACC);;
                   modify (warning_set_lastinfo mjWARN_BADQACC i);;
                   mj_forward C m)).
    { apply (emits_bind _ false true); [apply total_modify | quiet | intro].
      apply (emits_bind _ false true); [apply call_total | quiet | intro].
      apply (emits_bind _ false true); [apply total_modify | quiet | intro].
      apply (emits_bind _ false true); [apply total_modify | quiet | intro].
      apply forward_enters. }
    assert (E : mj_checkAcc C m w =
                (modify (fun d => mj_warning d mjWARN_BADQACC i);;
                 call C mj_resetData m;;
                 modify (warning_number_incr mjWARN_BADQACC);;
                 modify (warning_set_lastinfo mjWARN_BADQACC i);;
                 mj_forward C m)
                  {| dat := dat w; trace := trace w ++ [Enter CheckAcc] |}).
    { unfold mj_checkAcc.
      etransitivity; [eapply bind_done; reflexivity|].
      etransitivity; [eapply bind_done; reflexivity|].
      cbn [dat]. now rewrite Hi. }
    rewrite E, R, F. now rewrite !orb_true_r.
  - intros Hok. unfold mj_checkAcc.
    cbv [bind enter log get]. cbn [dat trace]. now rewrite Hok.
Qed.

Lemma checkAcc_recomputes_witness :
  let d := Demo.rest.[qacc := of_list [Num.nan]] in
  (occurs (Call mj_resetData) (trace (final (mj_checkAcc Demo.collab Demo.model (start d)))) = true /\
   occurs (Enter Forward) (trace (final (mj_checkAcc Demo.collab Demo.model (start d)))) = true) /\
  mj_checkAcc Demo.collab Demo.model (start Demo.rest) =
    Done tt {| dat := Demo.rest; trace := [Enter CheckAcc] |}.
Proof.
  intros d. split.
  - apply (proj1 (checkAcc_recomputes Demo.collab Demo.model (start d)) 0). reflexivity.
  - apply (proj2 (checkAcc_recomputes Demo.collab Demo.model (start Demo.rest))). reflexivity.
Defined.

(** *** Implicit damping in [mj_Euler] *)

(** X20: when the diagonal addresses dof_Madr of the nv degrees of freedom
    are pairwise distinct, the loop of lines 484-486 adds h*dof_damping[i]
    to the diagonal entry of each degree of freedom i, once, and leaves the
    entries of the mass matrix that are off the diagonal as they are. *)
Theorem add_damping_diagonal (m : mjModel) (M0 : buf) (i a : Z) :
  (forall j k, 0 <= j < nv m -> 0 <= k < nv m -> dof_Madr m j = dof_Madr m k -> j = k) ->
  0 <= i < nv m ->
  (forall j, 0 <= j < nv m -> dof_Madr m j <> a) ->
  add_damping m M0 (dof_Madr m i) =
    Num.add (M0 (dof_Madr m i)) (Num.mul (timestep (opt m)) (dof_damping m i)) /\
  add_damping m M0 a = M0 a.
Proof.
  intros Hinj Hi Ha.
  assert (H : forall j,
             (0 <= j < nv m ->
              add_damping m M0 (dof_Madr m j) =
                Num.add (M0 (dof_Madr m j)) (Num.mul (timestep (opt m)) (dof_damping m j))) /\
             (forall b, (forall k, 0 <= k < nv m -> dof_Madr m k <> b) ->
                        add_damping m M0 b = M0 b)).
  { intros j. unfold add_damping.
    pose (P := fun k (Mk : buf) =>
                 (forall l, (0 <= l < k ->
                             Mk (dof_Madr m l) =
                               Num.add (M0 (dof_Madr m l))
                                       (Num.mul (timestep (opt m)) (dof_damping m l))) /\
                            (k <= l < nv m -> Mk (dof_Madr m l) = M0 (dof_Madr m l))) /\
                 (forall b, (forall l, 0 <= l < nv m -> dof_Madr m l <> b) -> Mk b = M0 b)).
    assert (G : P (nv m)
                  (for_loop 0 (nv m)
                     (fun k Mk =>
                        upd Mk (dof_Madr m k)
                          (Num.add (Mk (dof_Madr m k))
                                   (Num.mul (timestep (opt m)) (dof_damping m k))))
                     M0)).
    { apply (for_loop_ind P); [lia | |]; unfold P.
      - split; [intros l; split; [lia | reflexivity] | reflexivity].
      - intros k Mk Hk [IH1 IH2]. split.
        + intros l. unfold upd. split; intros Hl.
          * destruct (dof_Madr m l =? dof_Madr m k) eqn:E.
            -- apply Z.eqb_eq in E. apply Hinj in E; [|lia|lia]. subst l.
               f_equal. apply (proj2 (IH1 k)). lia.
            -- apply IH1. apply Z.eqb_neq in E.
               assert (l <> k) by (intro; subst; contradiction). lia.
          * destruct (dof_Madr m l =? dof_Madr m k) eqn:E.
            -- apply Z.eqb_eq in E. apply Hinj in E; lia.
            -- apply IH1. lia.
        + intros b Hb. unfold upd. destruct (b =? dof_Madr m k) eqn:E.
          * apply Z.eqb_eq in E. exfalso. apply (Hb k); [lia | now symmetry].
          * now apply IH2. }
    destruct G as [G1 G2]. split; [intros Hj; apply G1; lia | exact G2]. }
  split; [now apply H | now apply (H 0)].
Qed.

Lemma add_damping_diagonal_witness :
  let m := Demo.slider mjINT_EULER mjSOL_NEWTON Num.one (Num.of_Z (-1)) (Num.of_Z 1) in
  add_damping m Demo.rest.[qM] (dof_Madr m 0) =
    Num.add (Demo.rest.[qM] (dof_Madr m 0)) (Num.mul Demo.centi (dof_damping m 0)) /\
  add_damping m Demo.rest.[qM] 5 = Demo.rest.[qM] 5.
Proof.
  intros m.
  apply (add_damping_diagonal m Demo.rest.[qM] 0 5).
  - intros j k Hj Hk _. simpl in Hj, Hk. lia.
  - simpl. lia.
  - intros j _. simpl. lia.
Defined.

(** X21: with damping (some dof_damping entry is positive) [mj_Euler]
    integrates the velocity from the acceleration that [mj_solveM] gives
    for qfrc_smooth + qfrc_constraint on the data d1 that [mj_factorM]
    leaves when it refactors the mass matrix with the damping added:
    on each degree of freedom the new velocity is the velocity of d1 plus
    that acceleration times h. *)
Theorem Euler_with_damping (C : Collab) (m : mjModel) (w : world) (i : Z) :
  has_damping m = true ->
  0 <= i < nv m ->
  let d1 := run C mj_factorM m (dat w).[qM := add_damping m (dat w).[qM]] in
  let qfrc := mju_add scratch d1.[qfrc_smooth] d1.[qfrc_constraint] (nv m) in
  exists w',
    mj_Euler C m w = Done tt w' /\
    (dat w').[qvel] i =
      Num.add (d1.[qvel] i) (Num.mul (mj_solveM C m d1 scratch qfrc 1 i) (timestep (opt m))).
Proof.
  intros Hd Hi d1 qfrc. unfold has_damping in Hd. unfold mj_Euler.
  destruct (first_index (nv m) (fun k => Num.gt (dof_damping m k) (Num.of_Z 0)));
    [|discriminate].
  erewrite bind_done by reflexivity.
  erewrite bind_done by reflexivity.
  match goal with
  | |- exists w', ?tail ?w0 = _ /\ _ =>
      destruct (hoare_steady (keeps qvel i) tail w0) with (w := w0)
        as ([] & w' & E & K);
      [ total_with idtac
      | apply Euler_tail_keeps; discriminate
      | apply pre_refl
      | exists w'; split; [exact E|] ]
  end.
  unfold keeps in K. rewrite K. cbn [dat].
  read_head. unfold mju_addToScl. rewrite (inb_true _ _ Hi). reflexivity.
Qed.

Lemma Euler_with_damping_witness :
  let m := Demo.slider mjINT_EULER mjSOL_NEWTON Num.one (Num.of_Z (-1)) (Num.of_Z 1) in
  let d1 := run Demo.collab mj_factorM m Demo.rest.[qM := add_damping m Demo.rest.[qM]] in
  let qfrc := mju_add scratch d1.[qfrc_smooth] d1.[qfrc_constraint] (nv m) in
  exists w',
    mj_Euler Demo.collab m (start Demo.rest) = Done tt w' /\
    (dat w').[qvel] 0 =
      Num.add (d1.[qvel] 0)
              (Num.mul (mj_solveM Demo.collab m d1 scratch qfrc 1 0) Demo.centi).
Proof.
  intros m.
  apply (Euler_with_damping Demo.collab m (start Demo.rest) 0).
  - reflexivity.
  - simpl. lia.
Defined.

(** *** Energy in the evaluations of [mj_RungeKutta] *)

(** X22: the evaluations of [mj_RungeKutta] pass skipsensor = 1 to
    [mj_forwardSkip], which holds back the sensors but not the energy:
    with a solver the driver knows, the trace has a call of [mj_energyPos]
    after [mj_RungeKutta] exactly when it had one before or mjENBL_ENERGY
    is set, and likewise for [mj_energyVel]. *)
Theorem RungeKutta_recomputes_energy (C : Collab) (m : mjModel) (w : world) :
  valid_solver m ->
  let t := trace (final (mj_RungeKutta C m 4 w)) in
  occurs (Call mj_energyPos) t =
    occurs (Call mj_energyPos) (trace w) || mjENABLED m mjENBL_ENERGY /\
  occurs (Call mj_energyVel) t =
    occurs (Call mj_energyVel) (trace w) || mjENABLED m mjENBL_ENERGY.
Proof.
  intros Hs.
  assert (HF : forall p, p = mj_energyPos \/ p = mj_energyVel ->
                 emits (Call p) (mjENABLED m mjENBL_ENERGY)
                       (mj_forwardSkip C m mjSTAGE_NONE 1)).
  { intros p [-> | ->].
    - eapply emits_eq;
        [|apply (forwardSkip_emits C m (Call mj_energyPos)
                   ((mjSTAGE_NONE <? mjSTAGE_POS) && mjENABLED m mjENBL_ENERGY)
                   false false false false);
          try discriminate; try quiet; apply position_block_energy].
      cbn. now rewrite !orb_false_r.
    - eapply emits_eq;
        [|apply (forwardSkip_emits C m (Call mj_energyVel) false
                   ((mjSTAGE_NONE <? mjSTAGE_VEL) && mjENABLED m mjENBL_ENERGY)
                   false false false);
          try discriminate; try quiet; apply velocity_block_energy].
      cbn. now rewrite !orb_false_r. }
  assert (HS : forall p A T i loc, p = mj_energyPos \/ p = mj_energyVel ->
                 emits (Call p) (mjENABLED m mjENBL_ENERGY) (rk_stage C m A T 4 i loc)).
  { intros p A T i [[dX0 X] F] Hp. unfold rk_stage.
    eapply emits_eq; [|
      do 4 (apply (emits_bind _ false); [returns | quiet | intro]);
      apply (emits_bind _ (mjENABLED m mjENBL_ENERGY) false);
        [apply forwardSkip_total, Hs | apply HF, Hp | intro; quiet]].
    cbn. now rewrite orb_false_r. }
  assert (H : forall p, p = mj_energyPos \/ p = mj_energyVel ->
                emits (Call p) (mjENABLED m mjENBL_ENERGY) (mj_RungeKutta C m 4)).
  { intros p Hp. unfold mj_RungeKutta.
    eapply emits_eq; [|
      apply (emits_bind _ false);
        [apply total_log | apply emits_silent, same_occ_log; discriminate | intro];
      apply (emits_bind _ false); [apply total_get | quiet | intros d0];
      change (negb (4 =? 4)) with false; cbv iota;
      apply (emits_bind _ (mjENABLED m mjENBL_ENERGY) false);
        [ apply total_forM; intros; apply rk_stage_total, Hs
        | unfold forM; change (Z.to_nat (4 - 1)) with 3%nat; cbn [forM_up];
          eapply emits_eq; [|
            do 3 (apply (emits_bind _ (mjENABLED m mjENBL_ENERGY));
                    [apply rk_stage_total, Hs | apply HS, Hp | intro]);
            quiet]
        | intros [[dX0 X] F]; quiet ]].
    - cbn. now rewrite !orb_false_r.
    - now destruct (mjENABLED m mjENBL_ENERGY). }
  split; [apply (H mj_energyPos) | apply (H mj_energyVel)]; auto.
Qed.

Lemma RungeKutta_recomputes_energy_witness :
  let m := Demo.slider mjINT_RK4 mjSOL_NEWTON Num.zero (Num.of_Z (-1)) (Num.of_Z 1) in
  let t := trace (final (mj_RungeKutta Demo.collab m 4 (start Demo.rest))) in
  occurs (Call mj_energyPos) t =
    occurs (Call mj_energyPos) (trace (start Demo.rest)) || mjENABLED m mjENBL_ENERGY /\
  occurs (Call mj_energyVel) t =
    occurs (Call mj_energyVel) (trace (start Demo.rest)) || mjENABLED m mjENBL_ENERGY.
Proof.
  intros m.
  apply (RungeKutta_recomputes_energy Demo.collab m (start Demo.rest)).
  right. right. reflexivity.
Defined.
